(** * Scheduled playback core: track cache, buffer loader, mixer channel

    A shallow embedding of [track_cache.js] (the track cache and the audio
    buffer manager that shares its file) and of [mixer_channel.js].

    Conventions of the embedding.

    - JavaScript objects that are shared and mutated in place (the [Track]
      objects) live in a store [Heap]; code receives and keeps references
      [Ref] into it.  Every reference denotes an object, so the store is a
      total function.
    - JavaScript numbers are modelled by exact rationals [Q]; rounding of
      IEEE doubles is outside the model.  An optional or nullable numeric
      argument is an [option Q].
    - A function that may throw returns a [Completion] together with the
      state reached when it stopped.
    - Calls into the audio engine are recorded on the node they are made
      on; the engine's own range checks are not modelled.
    - Messages to [LogHandler] and to the console are not part of the
      model. *)

From Stdlib Require Import List String Bool Arith Lia ZArith QArith SpecFloat Permutation.
Import ListNotations.

Local Open Scope nat_scope.

(** ** Exceptions and completions *)

Inductive Exception : Type :=
| TrackCacheOutOfMemory (numLoadedOrLoading : nat)
| TrackNotLoaded
| IllegalParam
| TypeError.

Inductive Completion (A : Type) : Type :=
| Normal (a : A)
| Throw (e : Exception).

Arguments Normal {A} a.
Arguments Throw {A} e.

(** ** Track records *)

Module Track.

(** Decoded PCM data. *)
Definition AudioBuffer : Type := list Z.

Inductive LoadStatus : Type :=
| NOT_LOADED
| LOADING
| LOAD_SUCCESS
| LOAD_FAILED.

(** Modelled from the spec: the [Track] class (model/track) is imported by
    both source files but is not among them.  The record and its
    status-transition operations follow the Track Record of the data
    model: a status, a buffer that only the transition to NOT_LOADED
    releases, and descriptive fields fixed at creation. *)
Record t : Type := mk {
  guid : string;
  loadStatus : LoadStatus;
  audioBuffer : option AudioBuffer;
  bpm : Q;
  title : string;
  audioSourceKey : string;
  scId : string
}.

Definition withStatus (s : LoadStatus) (b : option AudioBuffer) (x : t) : t :=
  mk (guid x) s b (bpm x) (title x) (audioSourceKey x) (scId x).

Definition isStatusLoading (x : t) : bool :=
  match loadStatus x with LOADING => true | _ => false end.

Definition isStatusLoadSuccess (x : t) : bool :=
  match loadStatus x with LOAD_SUCCESS => true | _ => false end.

Definition setStatusLoading (x : t) : t :=
  withStatus LOADING (audioBuffer x) x.

Definition setStatusLoadFailed (x : t) : t :=
  withStatus LOAD_FAILED (audioBuffer x) x.

Definition setStatusNotLoaded (shouldUnloadBuffer : bool) (x : t) : t :=
  withStatus NOT_LOADED
    (if shouldUnloadBuffer then None else audioBuffer x) x.

(** Storing a buffer also sets the status to LOAD_SUCCESS. *)
Definition setAudioBuffer (b : AudioBuffer) (x : t) : t :=
  withStatus LOAD_SUCCESS (Some b) x.

Definition getAudioBuffer (x : t) : option AudioBuffer := audioBuffer x.

End Track.

(** ** The store of track objects *)

Definition Ref : Type := nat.

Definition Heap : Type := Ref -> Track.t.

Definition update (h : Heap) (r : Ref) (x : Track.t) : Heap :=
  fun r' => if Nat.eqb r' r then x else h r'.

(** ** Track cache *)

Module TrackCache.

Import Track.

Definition MAX_TRACKS : nat := 6.

(** The module-level object [_cache].  Its keys are track guids of the
    form ['com.soundcloud~1253'], so [for ... in] visits them in insertion
    order: the cache is an association list, oldest key first.

    The list holds the entries the cache has been given.  A plain
    JavaScript object also answers [in] and [[]] for the names it
    inherits from [Object.prototype] (['constructor'], ['toString'], ...),
    and [for ... in] visits integer-like keys first; neither happens for
    keys of the form above ([isTrackGuid]), and the properties below that
    depend on it carry that form as a hypothesis. *)
Definition Cache : Type := list (string * Ref).

(** Track guids as the header of the cache shows them: a provider and an
    id joined by ['~'].  A string with a ['~'] in it is not the name of a
    member of [Object.prototype] and is not integer-like. *)
Fixpoint isTrackGuid (g : string) : bool :=
  match g with
  | EmptyString => false
  | String c g' => Ascii.eqb c (Ascii.ascii_of_nat 126) || isTrackGuid g'
  end.

Record State : Type := mkState {
  heap : Heap;
  _cache : Cache
}.

Definition empty (h : Heap) : State := mkState h [].

(** [_cache[trackGuid]], among the entries the cache has been given. *)
Fixpoint lookup (trackGuid : string) (c : Cache) : option Ref :=
  match c with
  | [] => None
  | (g, r) :: c' => if String.eqb g trackGuid then Some r else lookup trackGuid c'
  end.

(** [trackGuid in _cache], among the entries the cache has been given. *)
Definition contains (trackGuid : string) (c : Cache) : bool :=
  match lookup trackGuid c with Some _ => true | None => false end.

Definition getTrack (trackGuid : string) (s : State) : option Ref :=
  if contains trackGuid (_cache s) then lookup trackGuid (_cache s) else None.

Fixpoint deleteKey (trackGuid : string) (c : Cache) : Cache :=
  match c with
  | [] => []
  | (g, r) :: c' =>
      if String.eqb g trackGuid then c' else (g, r) :: deleteKey trackGuid c'
  end.

Definition _destroy (trackGuid : string) (s : State) : bool * State :=
  if contains trackGuid (_cache s)
  then (true, mkState (heap s) (deleteKey trackGuid (_cache s)))
  else (false, s).

Definition loadedOrLoading (x : Track.t) : bool :=
  isStatusLoadSuccess x || isStatusLoading x.

(** The counting loop of [_getNumTracksLoadedOrLoading]. *)
Fixpoint countLoadedOrLoading (h : Heap) (c : Cache) : nat :=
  match c with
  | [] => 0
  | (_, r) :: c' =>
      (if loadedOrLoading (h r) then 1 else 0) + countLoadedOrLoading h c'
  end.

Definition _getNumTracksLoadedOrLoading (s : State) : nat :=
  countLoadedOrLoading (heap s) (_cache s).

(** [Array.prototype.indexOf] on an array of strings. *)
Fixpoint indexOfFrom (i : Z) (l : list string) (x : string) : Z :=
  match l with
  | [] => (-1)%Z
  | y :: l' => if String.eqb y x then i else indexOfFrom (i + 1)%Z l' x
  end.

Definition indexOf (l : list string) (x : string) : Z := indexOfFrom 0%Z l x.

(** The eviction loop of [_checkAndMakeSpace]: the first cached track that
    is loaded and not bound to a channel is unloaded, and the loop breaks.
    [None] when [madeRoom] stays false.  The entries are visited in the
    order of the list, which is the order of [for ... in] when every key
    is a track guid. *)
Fixpoint evictFirst (trackGuidsInChannels : list string) (h : Heap)
         (c : Cache) : option Heap :=
  match c with
  | [] => None
  | (trackGuid, r) :: c' =>
      if isStatusLoadSuccess (h r)
         && Z.eqb (indexOf trackGuidsInChannels trackGuid) (-1)
      then Some (update h r (setStatusNotLoaded true (h r)))
      else evictFirst trackGuidsInChannels h c'
  end.

(** [trackGuidsInChannels] is what [AudioGraphStore.getTrackGuids()]
    answers during this call. *)
Definition _checkAndMakeSpace (targetTrackGuid : string)
           (trackGuidsInChannels : list string) (s : State) : bool * State :=
  let numTracksLoadedOrLoading := _getNumTracksLoadedOrLoading s in
  if MAX_TRACKS <=? numTracksLoadedOrLoading then
    let alreadyThere :=
      match lookup targetTrackGuid (_cache s) with
      | Some r => loadedOrLoading (heap s r)
      | None => false
      end in
    if alreadyThere then (true, s)
    else
      match evictFirst trackGuidsInChannels (heap s) (_cache s) with
      | Some h' => (true, mkState h' (_cache s))
      | None => (false, s)
      end
  else (true, s).

Definition addTrackAsLoading (track : Ref) (trackGuidsInChannels : list string)
           (s : State) : Completion bool * State :=
  let g := guid (heap s track) in
  let '(ok, s1) := _checkAndMakeSpace g trackGuidsInChannels s in
  if negb ok then
    (Throw (TrackCacheOutOfMemory (_getNumTracksLoadedOrLoading s1)), s1)
  else
    let h2 := update (heap s1) track (setStatusLoading (heap s1 track)) in
    let c2 :=
      if negb (contains g (_cache s1))
      then _cache s1 ++ [(g, track)]
      else _cache s1 in
    (Normal true, mkState h2 c2).

(** The cached entries that take up memory: those whose track is LOADING
    or LOAD_SUCCESS. *)
Definition occupied (s : State) : Cache :=
  filter (fun e =>
            match loadStatus (heap s (snd e)) with
            | LOADING | LOAD_SUCCESS => true
            | NOT_LOADED | LOAD_FAILED => false
            end) (_cache s).

Definition b2n (b : bool) : nat := if b then 1 else 0.

(** A sequence of [addTrackAsLoading] calls, each with the pin set the pin
    source answers at that call; the states reached after each call. *)
Fixpoint runCalls (calls : list (Ref * list string)) (s : State) : list State :=
  match calls with
  | [] => []
  | (track, pins) :: calls' =>
      let s' := snd (addTrackAsLoading track pins s) in
      s' :: runCalls calls' s'
  end.

(** Well-formed caches: a guid is a key at most once (it is a JavaScript
    object) and every entry is filed under the guid of its track. *)
Definition keys (c : Cache) : list string := map fst c.
Definition refs (c : Cache) : list Ref := map snd c.

Definition wf (s : State) : Prop :=
  NoDup (keys (_cache s)) /\
  forall g r, In (g, r) (_cache s) -> guid (heap s r) = g.

Fixpoint nodupb (l : list string) : bool :=
  match l with
  | [] => true
  | x :: l' => negb (existsb (String.eqb x) l') && nodupb l'
  end.

Definition wfb (s : State) : bool :=
  nodupb (keys (_cache s))
  && forallb (fun e => String.eqb (guid (heap s (snd e))) (fst e)) (_cache s).

(** The test the eviction loop makes on an entry: its track is loaded and
    its key is not among the guids bound to channels. *)
Definition evictable (trackGuidsInChannels : list string) (h : Heap)
           (e : string * Ref) : bool :=
  isStatusLoadSuccess (h (snd e))
  && Z.eqb (indexOf trackGuidsInChannels (fst e)) (-1).

End TrackCache.

(** ** Audio buffer manager *)

Module AudioBufferManager.

Import Track TrackCache.

(** What a load promise is rejected with. *)
Inductive Reason : Type :=
| AlreadyLoading (trackGuid : string)
| ExceptionMessage (e : Exception)
| TrackRequestError (trackScId : string) (error : string)
| DecodingError (trackTitle : string).

Inductive Settlement : Type :=
| Resolved (track : Ref)
| Rejected (reason : Reason).

(** A promise is pending ([None]) or settled; only the first call of
    [resolve] or [reject] has an effect. *)
Definition Promise : Type := option Settlement.

Definition settle (p : Promise) (s : Settlement) : Promise :=
  match p with
  | Some _ => p
  | None => Some s
  end.

(** Work handed to the external fetch and decode capabilities. *)
Inductive Request : Type :=
| S3GetObject (bucket key : string)
| DecodeAudioData (body : list Byte.byte).

(** The synchronous body of the promise executor of [pLoadSingleTrack]:
    the promise as it stands when the executor returns, the requests it
    issued, and the cache state. *)
Definition pLoadSingleTrack (bucket : string) (track : Ref)
           (trackGuidsInChannels : list string) (s : State)
  : Promise * list Request * State :=
  let g := guid (heap s track) in
  let cachedTrack := getTrack g s in
  let '(p, shouldGetTrack) :=
    match cachedTrack with
    | Some c =>
        let '(p1, sg1) :=
          if isStatusLoading (heap s c)
          then (settle None (Rejected (AlreadyLoading g)), false)
          else (None, true) in
        if isStatusLoadSuccess (heap s c)
        then (settle p1 (Resolved track), false)
        else (p1, sg1)
    | None => (None, true)
    end in
  if shouldGetTrack then
    match addTrackAsLoading track trackGuidsInChannels s with
    | (Throw e, s1) => (settle p (Rejected (ExceptionMessage e)), [], s1)
    | (Normal _, s1) =>
        (p, [S3GetObject bucket (audioSourceKey (heap s1 track))], s1)
    end
  else (p, [], s).

(** The callback handed to [s3.getObject]. *)
Definition onGetObject (track : Ref) (error : option string)
           (body : list Byte.byte) (p : Promise) (s : State)
  : Promise * list Request * State :=
  match error with
  | Some err =>
      let h' := update (heap s) track (setStatusLoadFailed (heap s track)) in
      (settle p (Rejected (TrackRequestError (scId (h' track)) err)), [],
       mkState h' (_cache s))
  | None => (p, [DecodeAudioData body], s)
  end.

(** The success and failure callbacks handed to [decodeAudioData]. *)
Definition onDecodeSuccess (track : Ref) (buffer : AudioBuffer)
           (p : Promise) (s : State) : Promise * State :=
  let h' := update (heap s) track (setAudioBuffer buffer (heap s track)) in
  (settle p (Resolved track), mkState h' (_cache s)).

Definition onDecodeError (track : Ref) (p : Promise) (s : State)
  : Promise * State :=
  let h' := update (heap s) track (setStatusLoadFailed (heap s track)) in
  (settle p (Rejected (DecodingError (title (h' track)))), mkState h' (_cache s)).

(** Outcomes of the two external capabilities. *)
Inductive FetchOutcome : Type :=
| FetchFailed (error : string)
| Fetched (body : list Byte.byte).

Inductive DecodeOutcome : Type :=
| DecodeFailed
| Decoded (buffer : AudioBuffer).

(** One load carried through with nothing else touching the cache in
    between: the executor, then the callbacks the issued requests lead
    to. *)
Definition loadSingleTrack (bucket : string) (track : Ref)
           (trackGuidsInChannels : list string)
           (fetch : FetchOutcome) (decode : DecodeOutcome) (s : State)
  : Promise * list Request * State :=
  match pLoadSingleTrack bucket track trackGuidsInChannels s with
  | (p, [], s1) => (p, [], s1)
  | (p, reqs, s1) =>
      match fetch with
      | FetchFailed err =>
          let '(p2, _, s2) := onGetObject track (Some err) [] p s1 in
          (p2, reqs, s2)
      | Fetched body =>
          let '(p2, reqs2, s2) := onGetObject track None body p s1 in
          match decode with
          | Decoded buffer =>
              let '(p3, s3) := onDecodeSuccess track buffer p2 s2 in
              (p3, reqs ++ reqs2, s3)
          | DecodeFailed =>
              let '(p3, s3) := onDecodeError track p2 s2 in
              (p3, reqs ++ reqs2, s3)
          end
      end
  end.

Definition shouldTryLoad (trackGuid : string) (s : State) : bool :=
  if contains trackGuid (_cache s) then
    match getTrack trackGuid s with
    | Some r =>
        if isStatusLoading (heap s r) || isStatusLoadSuccess (heap s r)
        then false else true
    | None => true
    end
  else true.

Definition get (trackGuid : string) (s : State) : option Ref :=
  getTrack trackGuid s.

(** [isTrackLoaded] calls [isStatusLoadSuccess] on what [get] answers
    without testing it: on [null] the call is a [TypeError]. *)
Definition isTrackLoaded (trackGuid : string) (s : State) : Completion bool :=
  match get trackGuid s with
  | Some track => Normal (isStatusLoadSuccess (heap s track))
  | None => Throw TypeError
  end.

(** *** Loading several tracks *)

(** An entry of [trackLoadPromises]: the promise of one
    [pLoadSingleTrack], with the track it was made for and the requests
    that are out for it. *)
Record Load : Type := mkLoad {
  loadTrack : Ref;
  loadPromise : Promise;
  outstanding : list Request
}.

(** The loop of [pLoadTracks].  The executor of a promise runs when the
    promise is made, so each [pLoadSingleTrack] has changed the cache and
    the track objects before the next track's status is tested.  The loop
    runs without giving up control, so the guids bound to channels are the
    same at every iteration. *)
Fixpoint startLoads (bucket : string) (tracksToLoad : list Ref)
         (trackGuidsInChannels : list string) (s : State)
  : list Load * list Ref * State :=
  match tracksToLoad with
  | [] => ([], [], s)
  | track :: rest =>
      if negb (isStatusLoading (heap s track)) then
        let '(p, reqs, s1) := pLoadSingleTrack bucket track trackGuidsInChannels s in
        let '(trackLoadPromises, loadingTracks, s2) :=
          startLoads bucket rest trackGuidsInChannels s1 in
        (mkLoad track p reqs :: trackLoadPromises, loadingTracks, s2)
      else
        let '(trackLoadPromises, loadingTracks, s2) :=
          startLoads bucket rest trackGuidsInChannels s in
        (trackLoadPromises, track :: loadingTracks, s2)
  end.

(** What the promise of [pLoadTracks] is settled with. *)
Inductive TracksSettlement : Type :=
| TracksResolved (tracks : list Ref)
| TracksRejected (reason : Reason).

Definition TracksPromise : Type := option TracksSettlement.

(** [Promise.all]: rejected with the reason of a rejected element,
    fulfilled with the values in index order once every element is
    fulfilled. *)
Fixpoint firstRejection (ps : list Promise) : option Reason :=
  match ps with
  | [] => None
  | Some (Rejected reason) :: _ => Some reason
  | _ :: ps' => firstRejection ps'
  end.

Fixpoint allValues (ps : list Promise) : option (list Ref) :=
  match ps with
  | [] => Some []
  | Some (Resolved track) :: ps' =>
      match allValues ps' with
      | Some values => Some (track :: values)
      | None => None
      end
  | _ :: _ => None
  end.

(** The two reactions [pLoadTracks] hangs on [Promise.all], run on the
    single promises as they stand.  They are run when the executor is
    done and again after each callback; a callback settles at most one
    single promise, so the rejection that is seen is the first in time,
    and among those of the executors the first in index order.  A settled
    promise stays as it is. *)
Definition react (resolveLoadingTracks : bool) (loadingTracks : list Ref)
           (trackLoadPromises : list Promise) (p : TracksPromise) : TracksPromise :=
  match p with
  | Some _ => p
  | None =>
      match firstRejection trackLoadPromises with
      | Some reason => Some (TracksRejected reason)
      | None =>
          match allValues trackLoadPromises with
          | Some loadedTracksArr =>
              Some (TracksResolved
                      (if resolveLoadingTracks
                       then loadedTracksArr ++ loadingTracks
                       else loadedTracksArr))
          | None => None
          end
      end
  end.

(** [pLoadTracks] up to the point where control goes back to the event
    loop: the returned promise, the single loads it waits for, the tracks
    that were loading already, and the cache.  [resolveLoadingTracks] is
    [None] when the argument is left out. *)
Definition pLoadTracks (bucket : string) (tracksToLoad : list Ref)
           (resolveLoadingTracks : option bool)
           (trackGuidsInChannels : list string) (s : State)
  : TracksPromise * list Load * list Ref * State :=
  let resolveLoadingTracks :=
    match resolveLoadingTracks with
    | Some b => b
    | None => true
    end in
  let '(trackLoadPromises, loadingTracks, s1) :=
    startLoads bucket tracksToLoad trackGuidsInChannels s in
  let p :=
    if Nat.eqb (List.length trackLoadPromises) 0
    then Some (TracksResolved (if resolveLoadingTracks then loadingTracks else []))
    else react resolveLoadingTracks loadingTracks
               (map loadPromise trackLoadPromises) None in
  (p, trackLoadPromises, loadingTracks, s1).

(** The callbacks the external capabilities may call for one load. *)
Inductive Callback : Type :=
| GetObjectReturned (error : option string) (body : list Byte.byte)
| DecodeSucceeded (buffer : AudioBuffer)
| DecodeFailedCalled.

(** A callback is called for a request that is out, once: it runs the
    matching function of [pLoadSingleTrack] on the load's track and
    promise.  For a request that is not out nothing runs. *)
Definition answer (cb : Callback) (l : Load) (s : State) : Load * State :=
  match outstanding l, cb with
  | S3GetObject _ _ :: rest, GetObjectReturned error body =>
      let '(p, reqs, s') := onGetObject (loadTrack l) error body (loadPromise l) s in
      (mkLoad (loadTrack l) p (rest ++ reqs), s')
  | DecodeAudioData _ :: rest, DecodeSucceeded buffer =>
      let '(p, s') := onDecodeSuccess (loadTrack l) buffer (loadPromise l) s in
      (mkLoad (loadTrack l) p rest, s')
  | DecodeAudioData _ :: rest, DecodeFailedCalled =>
      let '(p, s') := onDecodeError (loadTrack l) (loadPromise l) s in
      (mkLoad (loadTrack l) p rest, s')
  | _, _ => (l, s)
  end.

(** The callback [cb] for the [i]-th load. *)
Fixpoint deliver (i : nat) (cb : Callback) (loads : list Load) (s : State)
  : list Load * State :=
  match loads, i with
  | [], _ => ([], s)
  | l :: loads', O =>
      let '(l', s') := answer cb l s in (l' :: loads', s')
  | l :: loads', S i' =>
      let '(loads'', s') := deliver i' cb loads' s in (l :: loads'', s')
  end.

(** A run of callbacks after [pLoadTracks] has returned, the reactions
    running after each. *)
Fixpoint afterCallbacks (resolveLoadingTracks : bool) (loadingTracks : list Ref)
         (callbacks : list (nat * Callback))
         (p : TracksPromise) (loads : list Load) (s : State)
  : TracksPromise * list Load * State :=
  match callbacks with
  | [] => (p, loads, s)
  | (i, cb) :: callbacks' =>
      let '(loads', s') := deliver i cb loads s in
      afterCallbacks resolveLoadingTracks loadingTracks callbacks'
        (react resolveLoadingTracks loadingTracks (map loadPromise loads') p)
        loads' s'
  end.

(** The tracks of the loads that have a request out. *)
Definition requested (loads : list Load) : list Ref :=
  map loadTrack
      (filter (fun l => match outstanding l with [] => false | _ => true end) loads).

End AudioBufferManager.

(** ** Scheduled actions *)

Module TrackAction.

(** The action types of the data model.  [addActionMc] has a default
    case for any other value, which only logs; with these five types it
    is never reached. *)
Inductive types : Type := PLAY | STOP | PAUSE | PITCH | GAIN_FADE.

Inductive targets : Type := SOURCE | GAIN.

(** Modelled from the spec: the [TrackAction] class is imported by the
    mixer channel but is not among the sources.  The record follows the
    Scheduled Action of the data model; the getters the channel calls are
    its projections.  The play offset is optional (it defaults to 0). *)
Record t : Type := mk {
  getActionType : types;
  getActionTarget : targets;
  getActionTrackGuid : string;
  getActionTimeMSAbs : Q;
  getActionOffsetMS : option Q;
  getPitchValueApplied : Q;
  getEndVal : Q;
  getFadeNumBeats : Q
}.

Definition withTimeMSAbs (timeMSAbs : Q) (a : t) : t :=
  mk (getActionType a) (getActionTarget a) (getActionTrackGuid a) timeMSAbs
     (getActionOffsetMS a) (getPitchValueApplied a) (getEndVal a)
     (getFadeNumBeats a).

Definition targets_eqb (x y : targets) : bool :=
  match x, y with
  | SOURCE, SOURCE | GAIN, GAIN => true
  | _, _ => false
  end.

(** [TrackActionFactory.copyFromTrackAction]: actions are immutable
    values here, so a copy is the action itself. *)
Definition copyFromTrackAction (a : t) : t := a.

End TrackAction.

Module TrackActionsCollection.

(** Modelled from the spec: the [TrackActionsCollection] class is imported
    by the mixer channel but is not among the sources.  It holds the
    replay log of the data model, the ordered list of the source-targeted
    actions believed to be scheduled on the live source node:
    [addActionWithTimeMSAbs] appends an action under the absolute time it
    was scheduled at, [resetActions] replaces the list, [actions] reads
    it. *)
Definition t : Type := list TrackAction.t.

Definition actions (c : t) : list TrackAction.t := c.

Definition addActionWithTimeMSAbs (a : TrackAction.t) (timeMSAbs : Q) (c : t) : t :=
  c ++ [TrackAction.withTimeMSAbs timeMSAbs a].

Definition resetActions (l : list TrackAction.t) (c : t) : t := l.

(** [new TrackActionsCollection()] *)
Definition new : t := [].

End TrackActionsCollection.

(** ** The audio engine, as far as the channel drives it *)

Module Audio.

(** The Web Audio objects the channel drives, reduced to what the channel
    does with them: nodes are created by the context, wired, and record
    the start, stop and parameter events scheduled on them. *)
Inductive ParamEvent : Type :=
| SetValueAtTime (value time : Q)
| LinearRampToValueAtTime (value time : Q).

(** An [AudioParam]: its [value] and the automation events scheduled on
    it, oldest first. *)
Record AudioParam : Type := mkParam {
  value : Q;
  events : list ParamEvent
}.

Definition schedule (e : ParamEvent) (p : AudioParam) : AudioParam :=
  mkParam (value p) (events p ++ [e]).

(** Nodes carry the serial number the context gave them, so that a node
    and its replacement are told apart. *)
Record GainNode : Type := mkGain {
  gainId : nat;
  gain : AudioParam;
  toDestination : bool
}.

Record SourceNode : Type := mkSource {
  sourceId : nat;
  buffer : Track.AudioBuffer;
  outputs : list nat;
  started : option (Q * Q);
  stopped : option Q;
  playbackRate : AudioParam;
  onended : bool
}.

Record AudioContext : Type := mkContext {
  currentTime : Q;
  nextNodeId : nat
}.

Definition createGain (ctx : AudioContext) : GainNode * AudioContext :=
  (mkGain (nextNodeId ctx) (mkParam 1 []) false,
   mkContext (currentTime ctx) (S (nextNodeId ctx))).

Definition createBufferSource (ctx : AudioContext) (b : Track.AudioBuffer)
  : SourceNode * AudioContext :=
  (mkSource (nextNodeId ctx) b [] None None (mkParam 1 []) false,
   mkContext (currentTime ctx) (S (nextNodeId ctx))).

Definition connect (g : GainNode) (sn : SourceNode) : SourceNode :=
  mkSource (sourceId sn) (buffer sn) (outputs sn ++ [gainId g]) (started sn)
           (stopped sn) (playbackRate sn) (onended sn).

Definition disconnect (sn : SourceNode) : SourceNode :=
  mkSource (sourceId sn) (buffer sn) [] (started sn) (stopped sn)
           (playbackRate sn) (onended sn).

(** [start] can be used once per node; on a second use the engine raises
    a [DOMException] ([None]). *)
Definition start (when offset : Q) (sn : SourceNode) : option SourceNode :=
  match started sn with
  | Some _ => None
  | None =>
      Some (mkSource (sourceId sn) (buffer sn) (outputs sn) (Some (when, offset))
                     (stopped sn) (playbackRate sn) (onended sn))
  end.

Definition stop (when : Q) (sn : SourceNode) : SourceNode :=
  mkSource (sourceId sn) (buffer sn) (outputs sn) (started sn) (Some when)
           (playbackRate sn) (onended sn).

Definition setOnended (sn : SourceNode) : SourceNode :=
  mkSource (sourceId sn) (buffer sn) (outputs sn) (started sn) (stopped sn)
           (playbackRate sn) true.

Definition setPlaybackRateAtTime (v time : Q) (sn : SourceNode) : SourceNode :=
  mkSource (sourceId sn) (buffer sn) (outputs sn) (started sn) (stopped sn)
           (schedule (SetValueAtTime v time) (playbackRate sn)) (onended sn).

Definition linearRampToValueAtTime (v time : Q) (g : GainNode) : GainNode :=
  mkGain (gainId g) (schedule (LinearRampToValueAtTime v time) (gain g))
         (toDestination g).

End Audio.

(** ** Mixer channel *)

Module MixerChannel.

Import Audio.
Local Open Scope Q_scope.

Inductive playStates : Type :=
| STOPPED
| STOPPED_AND_PLAY_SCHEDULED
| PLAYING_AND_STOP_SCHEDULED
| PLAYING.

Definition playStates_eqb (x y : playStates) : bool :=
  match x, y with
  | STOPPED, STOPPED
  | STOPPED_AND_PLAY_SCHEDULED, STOPPED_AND_PLAY_SCHEDULED
  | PLAYING_AND_STOP_SCHEDULED, PLAYING_AND_STOP_SCHEDULED
  | PLAYING, PLAYING => true
  | _, _ => false
  end.

(** The fields of a [MixerChannel] object. *)
Record t : Type := mk {
  audioContext : AudioContext;
  track : Ref;
  gainNode : option GainNode;
  sourceNode : option SourceNode;
  preBendPitchValue : option Q;
  isBent : bool;
  actionsAddedCollection : TrackActionsCollection.t;
  _playState : playStates;
  startScheduledTimeMS : Q;
  stopScheduledTimeMS : Q;
  startedAtOffsetMS : Q;
  stoppedAtOffsetMS : Q
}.

Definition set_audioContext (v : AudioContext) (mc : t) : t :=
  mk v (track mc) (gainNode mc) (sourceNode mc) (preBendPitchValue mc)
     (isBent mc) (actionsAddedCollection mc) (_playState mc)
     (startScheduledTimeMS mc) (stopScheduledTimeMS mc)
     (startedAtOffsetMS mc) (stoppedAtOffsetMS mc).

Definition set_gainNode (v : option GainNode) (mc : t) : t :=
  mk (audioContext mc) (track mc) v (sourceNode mc) (preBendPitchValue mc)
     (isBent mc) (actionsAddedCollection mc) (_playState mc)
     (startScheduledTimeMS mc) (stopScheduledTimeMS mc)
     (startedAtOffsetMS mc) (stoppedAtOffsetMS mc).

Definition set_sourceNode (v : option SourceNode) (mc : t) : t :=
  mk (audioContext mc) (track mc) (gainNode mc) v (preBendPitchValue mc)
     (isBent mc) (actionsAddedCollection mc) (_playState mc)
     (startScheduledTimeMS mc) (stopScheduledTimeMS mc)
     (startedAtOffsetMS mc) (stoppedAtOffsetMS mc).

Definition set_preBendPitchValue (v : option Q) (mc : t) : t :=
  mk (audioContext mc) (track mc) (gainNode mc) (sourceNode mc) v
     (isBent mc) (actionsAddedCollection mc) (_playState mc)
     (startScheduledTimeMS mc) (stopScheduledTimeMS mc)
     (startedAtOffsetMS mc) (stoppedAtOffsetMS mc).

Definition set_isBent (v : bool) (mc : t) : t :=
  mk (audioContext mc) (track mc) (gainNode mc) (sourceNode mc)
     (preBendPitchValue mc) v (actionsAddedCollection mc) (_playState mc)
     (startScheduledTimeMS mc) (stopScheduledTimeMS mc)
     (startedAtOffsetMS mc) (stoppedAtOffsetMS mc).

Definition set_actionsAddedCollection (v : TrackActionsCollection.t) (mc : t) : t :=
  mk (audioContext mc) (track mc) (gainNode mc) (sourceNode mc)
     (preBendPitchValue mc) (isBent mc) v (_playState mc)
     (startScheduledTimeMS mc) (stopScheduledTimeMS mc)
     (startedAtOffsetMS mc) (stoppedAtOffsetMS mc).

Definition set_playState (v : playStates) (mc : t) : t :=
  mk (audioContext mc) (track mc) (gainNode mc) (sourceNode mc)
     (preBendPitchValue mc) (isBent mc) (actionsAddedCollection mc) v
     (startScheduledTimeMS mc) (stopScheduledTimeMS mc)
     (startedAtOffsetMS mc) (stoppedAtOffsetMS mc).

Definition set_startScheduledTimeMS (v : Q) (mc : t) : t :=
  mk (audioContext mc) (track mc) (gainNode mc) (sourceNode mc)
     (preBendPitchValue mc) (isBent mc) (actionsAddedCollection mc)
     (_playState mc) v (stopScheduledTimeMS mc)
     (startedAtOffsetMS mc) (stoppedAtOffsetMS mc).

Definition set_stopScheduledTimeMS (v : Q) (mc : t) : t :=
  mk (audioContext mc) (track mc) (gainNode mc) (sourceNode mc)
     (preBendPitchValue mc) (isBent mc) (actionsAddedCollection mc)
     (_playState mc) (startScheduledTimeMS mc) v
     (startedAtOffsetMS mc) (stoppedAtOffsetMS mc).

Definition set_startedAtOffsetMS (v : Q) (mc : t) : t :=
  mk (audioContext mc) (track mc) (gainNode mc) (sourceNode mc)
     (preBendPitchValue mc) (isBent mc) (actionsAddedCollection mc)
     (_playState mc) (startScheduledTimeMS mc) (stopScheduledTimeMS mc)
     v (stoppedAtOffsetMS mc).

Definition set_stoppedAtOffsetMS (v : Q) (mc : t) : t :=
  mk (audioContext mc) (track mc) (gainNode mc) (sourceNode mc)
     (preBendPitchValue mc) (isBent mc) (actionsAddedCollection mc)
     (_playState mc) (startScheduledTimeMS mc) (stopScheduledTimeMS mc)
     (startedAtOffsetMS mc) v.

(** A method of the channel: it reads and writes the channel object and
    returns or throws. *)
Definition M (A : Type) : Type := t -> Completion A * t.

Definition ret {A : Type} (a : A) : M A := fun mc => (Normal a, mc).

Definition bind {A B : Type} (m : M A) (k : A -> M B) : M B :=
  fun mc =>
    match m mc with
    | (Normal a, mc') => k a mc'
    | (Throw e, mc') => (Throw e, mc')
    end.

Definition throw {A : Type} (e : Exception) : M A := fun mc => (Throw e, mc).

Definition get : M t := fun mc => (Normal mc, mc).

Definition modify (f : t -> t) : M unit := fun mc => (Normal tt, f mc).

Notation "x <- c ;; k" := (bind c (fun x => k))
  (at level 61, c at next level, right associativity).
Notation "c ;; k" := (bind c (fun _ => k))
  (at level 61, right associativity).

(** A method call on [mc.sourceNode] or [mc.gainNode]; on [null] it is a
    [TypeError]. *)
Definition onSourceNode (f : SourceNode -> SourceNode) : M unit :=
  fun mc =>
    match sourceNode mc with
    | Some sn => (Normal tt, set_sourceNode (Some (f sn)) mc)
    | None => (Throw TypeError, mc)
    end.

Definition onGainNode (f : GainNode -> GainNode) : M unit :=
  fun mc =>
    match gainNode mc with
    | Some g => (Normal tt, set_gainNode (Some (f g)) mc)
    | None => (Throw TypeError, mc)
    end.

Fixpoint forEach {A : Type} (l : list A) (body : A -> M unit) : M unit :=
  match l with
  | [] => ret tt
  | x :: l' => body x ;; forEach l' body
  end.

(** Unfolding of the method combinators, for proofs. *)
Ltac run :=
  unfold bind, ret, get, modify, throw, onSourceNode, onGainNode; simpl.

(** Case analysis on the comparisons of numbers a method makes. *)
Ltac comparisons :=
  repeat match goal with
         | |- context [Qle_bool ?a ?b] => destruct (Qle_bool a b); simpl
         | |- context [Qeq_bool ?a ?b] => destruct (Qeq_bool a b); simpl
         end.

(** JavaScript truthiness of a value that is [true], [false] or
    [undefined] ([None]). *)
Definition truthy (v : option bool) : bool :=
  match v with
  | Some true => true
  | _ => false
  end.

Definition Qlt_bool (x y : Q) : bool := negb (Qle_bool y x).

(** Modelled from the spec: [TimeUtil.secToMS], [TimeUtil.msToSec],
    [TypeUtil.defaultVal] and [NumberUtil.isPositive] are imported helpers
    that are not among the sources.  The engine clock counts seconds and
    the channel keeps milliseconds; an omitted flag of [clearActions]
    takes its default; a tempo is usable when it is a positive number. *)
Definition secToMS (sec : Q) : Q := sec * 1000.
Definition msToSec (ms : Q) : Q := ms / 1000.
Definition defaultVal (v : option bool) (d : bool) : bool :=
  match v with Some b => b | None => d end.
Definition isPositive (x : Q) : bool := Qlt_bool 0 x.

Definition AT_TIME_NOW : Q := -1.

(** The play states in which [clearActions] takes the channel for
    stopped. *)
Definition stoppedOrScheduled (ps : playStates) : bool :=
  playStates_eqb ps STOPPED || playStates_eqb ps STOPPED_AND_PLAY_SCHEDULED.

Definition setDestination (b : bool) (g : GainNode) : GainNode :=
  mkGain (gainId g) (gain g) b.

Definition _createGainNode : M bool :=
  fun mc =>
    let '(g, ctx) := createGain (audioContext mc) in
    (Normal true,
     set_gainNode (Some (setDestination true g)) (set_audioContext ctx mc)).

Definition currentTimeMS (mc : t) : Q := secToMS (currentTime (audioContext mc)).

(** The engine's clock moves on between calls; within one call it is read
    as a constant. *)
Definition clockReads (sec : Q) (mc : t) : t :=
  set_audioContext (mkContext sec (nextNodeId (audioContext mc))) mc.

Definition _filterAtTimeNow (mc : t) (timeMS : Q) : Q :=
  if Qeq_bool timeMS AT_TIME_NOW then currentTimeMS mc else timeMS.

(** The property [_playStates] that the second test of [_getPlayState]
    reads: nothing ever assigns it, so it reads as [undefined]. *)
Definition _playStates (mc : t) : option playStates := None.

Definition _getPlayState : M playStates :=
  fun mc =>
    let currentTimeMS := currentTimeMS mc in
    let mc' :=
      if playStates_eqb (_playState mc) STOPPED_AND_PLAY_SCHEDULED then
        if Qle_bool (startScheduledTimeMS mc) currentTimeMS
        then set_playState PLAYING mc else mc
      else
        match _playStates mc with
        | Some PLAYING_AND_STOP_SCHEDULED =>
            if Qle_bool (stopScheduledTimeMS mc) currentTimeMS
            then set_playState STOPPED mc else mc
        | _ => mc
        end in
    (Normal (_playState mc'), mc').

Section WithEnvironment.

(** [TimeUtil.isBadTime] on a number: the helper is not among the
    sources, so its verdict on numbers is a parameter.  On [undefined]
    and [null] it answers true, which is how the documented defaults of
    [addActionMc] come about. *)
Variable isBadNumber : Q -> bool.

(** [COMMON_CONST.INVALID_TIME_VAL] and [COMMON_CONST.INVALID_VAL],
    numeric sentinels defined outside the sources. *)
Variable INVALID_TIME_VAL : Q.
Variable INVALID_VAL : Q.

(** The store of track objects, which a channel only reads. *)
Variable tracks : Heap.

Definition isBadTime (v : option Q) : bool :=
  match v with
  | Some q => isBadNumber q
  | None => true
  end.

Definition orZero (v : option Q) : Q :=
  match v with
  | Some q => if isBadNumber q then 0 else q
  | None => 0
  end.

Definition _resetPlayAttributes : M unit :=
  modify (set_playState STOPPED) ;;
  modify (set_startScheduledTimeMS INVALID_TIME_VAL) ;;
  modify (set_stopScheduledTimeMS INVALID_TIME_VAL) ;;
  modify (set_startedAtOffsetMS INVALID_TIME_VAL) ;;
  modify (set_stoppedAtOffsetMS INVALID_TIME_VAL).

Definition getTrackCurrentOffsetMS : M Q :=
  currentPlayState <- _getPlayState ;;
  mc <- get ;;
  match currentPlayState with
  | STOPPED | STOPPED_AND_PLAY_SCHEDULED =>
      if Qeq_bool (stoppedAtOffsetMS mc) INVALID_TIME_VAL
      then ret INVALID_VAL
      else ret (stoppedAtOffsetMS mc)
  | PLAYING | PLAYING_AND_STOP_SCHEDULED =>
      let currentTimeMS := currentTimeMS mc in
      let playedTimeMS := currentTimeMS - startScheduledTimeMS mc in
      ret (startedAtOffsetMS mc + playedTimeMS)
  end.

Definition fadeTimeSec (fadeNumBeats trackBpm : Q) : Q :=
  (fadeNumBeats / trackBpm) * 60.

Definition _actionGainFade (atTimeMS endGainVal fadeNumBeats trackBpm : Q)
  : M (option bool) :=
  if negb (isPositive trackBpm) then throw IllegalParam
  else
    let fadeTimeSec := fadeTimeSec fadeNumBeats trackBpm in
    let atTimeSec := atTimeMS / 1000 in
    let initialGainVal := 1 - endGainVal in
    onGainNode (linearRampToValueAtTime initialGainVal atTimeSec) ;;
    onGainNode (linearRampToValueAtTime endGainVal (atTimeSec + fadeTimeSec)) ;;
    ret None.

(** The [DOMException] of a second [start] is caught and only
    logged. *)
Definition _actionPlayHelper (atTimeMS offsetMS : Q) : M unit :=
  onSourceNode (fun sn =>
    match start (msToSec atTimeMS) (msToSec offsetMS) sn with
    | Some sn' => sn'
    | None => sn
    end) ;;
  onSourceNode setOnended ;;
  modify (set_startScheduledTimeMS atTimeMS) ;;
  modify (set_playState STOPPED_AND_PLAY_SCHEDULED) ;;
  modify (set_startedAtOffsetMS offsetMS).

Definition _actionPlay (atTimeMS : Q) (offsetMS : option Q) : M (option bool) :=
  let actionAdded := false in
  if isBadNumber atTimeMS then ret (Some actionAdded)
  else
    let offsetMS := orZero offsetMS in
    mc <- get ;;
    let currentTimeMS := currentTimeMS mc in
    let atTimeMS := _filterAtTimeNow mc atTimeMS in
    currentPlayState <- _getPlayState ;;
    match currentPlayState with
    | PLAYING
    | PLAYING_AND_STOP_SCHEDULED
    | STOPPED_AND_PLAY_SCHEDULED =>
        if Qeq_bool atTimeMS currentTimeMS then ret (Some actionAdded)
        else ret (Some actionAdded)
    | STOPPED =>
        _actionPlayHelper atTimeMS offsetMS ;;
        ret (Some true)
    end.

Definition _actionPause (atTimeMS : Q) : M (option bool) :=
  ret (Some false).

Definition _actionPitch (atTimeMS pitchValue : Q) : M (option bool) :=
  if isBadNumber atTimeMS then ret (Some false)
  else
    mc <- get ;;
    let atTimeMS := _filterAtTimeNow mc atTimeMS in
    onSourceNode (setPlaybackRateAtTime pitchValue (msToSec atTimeMS)) ;;
    modify (set_isBent false) ;;
    ret (Some true).

Definition _actionStopHelper (atTimeMS : Q) : M unit :=
  onSourceNode (stop (msToSec atTimeMS)) ;;
  modify (set_stopScheduledTimeMS atTimeMS) ;;
  modify (set_playState PLAYING_AND_STOP_SCHEDULED) ;;
  mc <- get ;;
  let currentTimeMS := currentTimeMS mc in
  offset <- getTrackCurrentOffsetMS ;;
  modify (set_stoppedAtOffsetMS (offset + atTimeMS - currentTimeMS)).

Definition _actionStop (atTimeMS : Q) : M (option bool) :=
  if isBadNumber atTimeMS then ret (Some false)
  else
    mc <- get ;;
    let atTimeMS := _filterAtTimeNow mc atTimeMS in
    currentPlayState <- _getPlayState ;;
    match currentPlayState with
    | PLAYING =>
        _actionStopHelper atTimeMS ;;
        ret (Some true)
    | PLAYING_AND_STOP_SCHEDULED
    | STOPPED
    | STOPPED_AND_PLAY_SCHEDULED => ret (Some false)
    end.

(** The signature of [addActionMc], for the one place where
    [_sourceNodeRecreate] calls back into it. *)
Definition AddAction : Type :=
  TrackAction.t -> option Q -> option Q -> option Q -> M (option bool).

(** [_sourceNodeRecreate], with the [addActionMc] it re-submits old
    actions through as an argument. *)
Definition _sourceNodeRecreateVia (addActionMc : AddAction)
           (deleteOldNode addBackOldActions : bool) : M bool :=
  mc <- get ;;
  match gainNode mc with
  | None => ret false
  | Some g =>
      let addBackOldActions :=
        if negb deleteOldNode then false else addBackOldActions in
      let build : M bool :=
        mc <- get ;;
        match Track.getAudioBuffer (tracks (track mc)) with
        | None =>
            modify (set_sourceNode None) ;;
            ret false
        | Some trackBuffer =>
            let '(sn, ctx) := createBufferSource (audioContext mc) trackBuffer in
            modify (set_audioContext ctx) ;;
            modify (set_sourceNode (Some (connect g sn))) ;;
            (if addBackOldActions then
               let minTimeMSAbs := currentTimeMS mc in
               let actions :=
                 TrackActionsCollection.actions (actionsAddedCollection mc) in
               let tmpActions := map TrackAction.copyFromTrackAction actions in
               modify (fun mc' =>
                 set_actionsAddedCollection
                   (TrackActionsCollection.resetActions
                      [] (actionsAddedCollection mc')) mc') ;;
               forEach tmpActions (fun action =>
                 if Qle_bool minTimeMSAbs (TrackAction.getActionTimeMSAbs action)
                 then addActionMc action None None (Some minTimeMSAbs) ;; ret tt
                 else ret tt)
             else modify (set_actionsAddedCollection TrackActionsCollection.new)) ;;
            ret true
        end in
      match sourceNode mc with
      | Some _ =>
          if deleteOldNode then onSourceNode disconnect ;; build
          else ret true
      | None => build
      end
  end.

(** [_ensureSourceNodePresent] asks for no deletion and no replay, so
    the callback is never reached. *)
Definition _ensureSourceNodePresent : M bool :=
  _sourceNodeRecreateVia (fun _ _ _ _ => ret None) false false.

Definition addActionMc (action : TrackAction.t)
           (baseTimeOffsetMS mixSetOffsetTimeMS minTimeMSAbs : option Q)
  : M (option bool) :=
  present <- _ensureSourceNodePresent ;;
  if negb present then throw TrackNotLoaded
  else
    let baseTimeOffsetMS := orZero baseTimeOffsetMS in
    let mixSetOffsetTimeMS := orZero mixSetOffsetTimeMS in
    let minTimeMSAbs := orZero minTimeMSAbs in
    mc <- get ;;
    if String.eqb (Track.guid (tracks (track mc)))
                  (TrackAction.getActionTrackGuid action)
    then
      if Qlt_bool (_filterAtTimeNow mc (TrackAction.getActionTimeMSAbs action))
                  minTimeMSAbs
      then ret (Some false)
      else
        let actionTimeMSAbs :=
          _filterAtTimeNow mc (TrackAction.getActionTimeMSAbs action)
          + baseTimeOffsetMS - mixSetOffsetTimeMS in
        actionAdded <-
          match TrackAction.getActionType action with
          | TrackAction.PLAY =>
              _actionPlay actionTimeMSAbs (TrackAction.getActionOffsetMS action)
          | TrackAction.STOP => _actionStop actionTimeMSAbs
          | TrackAction.PAUSE => _actionPause actionTimeMSAbs
          | TrackAction.PITCH =>
              _actionPitch actionTimeMSAbs (TrackAction.getPitchValueApplied action)
          | TrackAction.GAIN_FADE =>
              _actionGainFade actionTimeMSAbs (TrackAction.getEndVal action)
                              (TrackAction.getFadeNumBeats action)
                              (Track.bpm (tracks (track mc)))
          end ;;
        (if truthy actionAdded
            && TrackAction.targets_eqb (TrackAction.getActionTarget action)
                                       TrackAction.SOURCE
         then
           let actionCopy := TrackAction.copyFromTrackAction action in
           modify (fun mc' =>
             set_actionsAddedCollection
               (TrackActionsCollection.addActionWithTimeMSAbs
                  actionCopy actionTimeMSAbs (actionsAddedCollection mc')) mc')
         else ret tt) ;;
        ret actionAdded
    else ret (Some false).

Definition _sourceNodeRecreate : bool -> bool -> M bool :=
  _sourceNodeRecreateVia addActionMc.

(** The loop of [addActions]: [allAdded = allAdded && addActionMc(...)]. *)
Fixpoint addActionsFrom (allAdded : option bool) (actionList : list TrackAction.t)
         (baseTimeOffsetMS mixSetOffsetTimeMS minTimeMSAbs : option Q)
  : M (option bool) :=
  match actionList with
  | [] => ret allAdded
  | action :: rest =>
      allAdded' <-
        (if truthy allAdded
         then addActionMc action baseTimeOffsetMS mixSetOffsetTimeMS minTimeMSAbs
         else ret allAdded) ;;
      addActionsFrom allAdded' rest baseTimeOffsetMS mixSetOffsetTimeMS minTimeMSAbs
  end.

Definition addActions (actionList : list TrackAction.t)
           (baseTimeOffsetMS mixSetOffsetTimeMS minTimeMSAbs : option Q)
  : M (option bool) :=
  addActionsFrom (Some true) actionList
                 baseTimeOffsetMS mixSetOffsetTimeMS minTimeMSAbs.

Definition clearActions (forceSourceNodeReset forceGainNodeReset : option bool)
  : M unit :=
  let forceSourceNodeReset := defaultVal forceSourceNodeReset false in
  let forceGainNodeReset := defaultVal forceGainNodeReset false in
  modify (fun mc =>
    set_actionsAddedCollection
      (TrackActionsCollection.resetActions [] (actionsAddedCollection mc)) mc) ;;
  (if forceGainNodeReset then
     onGainNode (setDestination false) ;;
     _createGainNode ;;
     mc <- get ;;
     match gainNode mc with
     | Some g => onSourceNode (connect g)
     | None => throw TypeError
     end
   else ret tt) ;;
  currentPlayState <- _getPlayState ;;
  if playStates_eqb currentPlayState STOPPED
     || playStates_eqb currentPlayState STOPPED_AND_PLAY_SCHEDULED
     || forceSourceNodeReset
  then
    modify (set_playState STOPPED) ;;
    _sourceNodeRecreate true false ;;
    _resetPlayAttributes
  else ret tt.

(** The channel after a source node was built for it: a fresh node on
    the track's buffer, wired to the gain node, and an empty replay
    log. *)
Definition withNewSource (g : GainNode) (b : Track.AudioBuffer)
           (mc : MixerChannel.t) : MixerChannel.t :=
  set_actionsAddedCollection TrackActionsCollection.new
    (set_sourceNode
       (Some (connect g (fst (createBufferSource (audioContext mc) b))))
       (set_audioContext (snd (createBufferSource (audioContext mc) b)) mc)).

(** A channel on which scheduling can go ahead: it has its gain node,
    and its source node is there or can be built from the track's
    buffer. *)
Definition schedulable (mc : MixerChannel.t) : Prop :=
  gainNode mc <> None /\
  (sourceNode mc <> None \/ Track.getAudioBuffer (tracks (track mc)) <> None).

Definition schedulableb (mc : MixerChannel.t) : bool :=
  match gainNode mc with
  | None => false
  | Some _ =>
      match sourceNode mc, Track.getAudioBuffer (tracks (track mc)) with
      | None, None => false
      | _, _ => true
      end
  end.

(** The batch operation as the specification words it, for comparison
    with [addActions]: [addAction] is applied to each element in order,
    and the result tells whether every one was accepted. *)
Fixpoint addActionsEach (actionList : list TrackAction.t)
         (baseTimeOffsetMS mixSetOffsetTimeMS minTimeMSAbs : option Q)
  : M bool :=
  match actionList with
  | [] => ret true
  | action :: rest =>
      added <- addActionMc action baseTimeOffsetMS mixSetOffsetTimeMS minTimeMSAbs ;;
      allOthers <- addActionsEach rest baseTimeOffsetMS mixSetOffsetTimeMS minTimeMSAbs ;;
      ret (truthy added && allOthers)
  end.

(** The elements of a batch that [addActions] submits: those up to and
    including the first that is not accepted. *)
Fixpoint attempted (actionList : list TrackAction.t)
         (baseTimeOffsetMS mixSetOffsetTimeMS minTimeMSAbs : option Q) (mc : t)
  : list TrackAction.t :=
  match actionList with
  | [] => []
  | action :: rest =>
      match addActionMc action baseTimeOffsetMS mixSetOffsetTimeMS minTimeMSAbs mc with
      | (Normal (Some true), mc1) =>
          action :: attempted rest baseTimeOffsetMS mixSetOffsetTimeMS minTimeMSAbs mc1
      | _ => [action]
      end
  end.

(** Every element of a batch, submitted in order, is accepted. *)
Fixpoint allAccepted (actionList : list TrackAction.t)
         (baseTimeOffsetMS mixSetOffsetTimeMS minTimeMSAbs : option Q) (mc : t)
  : Prop :=
  match actionList with
  | [] => True
  | action :: rest =>
      exists mc1,
        addActionMc action baseTimeOffsetMS mixSetOffsetTimeMS minTimeMSAbs mc
        = (Normal (Some true), mc1)
        /\ allAccepted rest baseTimeOffsetMS mixSetOffsetTimeMS minTimeMSAbs mc1
  end.

Definition _processPlaybackEnded : M unit :=
  modify (set_playState STOPPED) ;;
  _sourceNodeRecreate true false ;;
  ret tt.

(** The constructor, run on an object none of whose fields is set
    yet. *)
Definition blank (track : Ref) (audioContext : AudioContext) : t :=
  mk audioContext track None None None false [] STOPPED
     INVALID_TIME_VAL INVALID_TIME_VAL INVALID_TIME_VAL INVALID_TIME_VAL.

Definition constructor (track : Ref) (audioContext : AudioContext) : t :=
  snd ((_createGainNode ;;
        _sourceNodeRecreate false false ;;
        modify (set_preBendPitchValue None) ;;
        modify (set_isBent false) ;;
        modify (set_actionsAddedCollection TrackActionsCollection.new) ;;
        _resetPlayAttributes) (blank track audioContext)).

(** *** Pitch bend, teardown *)

Definition PITCH_BEND_FACTOR : Q := 5 # 100.
Definition PITCH_BEND_UP : string := "pb_up".
Definition PITCH_BEND_DOWN : string := "pb_down".

Definition getPitch : M Q :=
  mc <- get ;;
  match sourceNode mc with
  | Some sn => ret (value (playbackRate sn))
  | None => throw TypeError
  end.

Definition pitchBend (direction : string) : M bool :=
  present <- _ensureSourceNodePresent ;;
  if negb present then throw TrackNotLoaded
  else
    mc <- get ;;
    if isBent mc then ret false
    else
      match sourceNode mc with
      | None => throw TypeError
      | Some sn =>
          let currentPitch := value (playbackRate sn) in
          let newPitch :=
            if String.eqb direction PITCH_BEND_DOWN
            then currentPitch - PITCH_BEND_FACTOR
            else currentPitch + PITCH_BEND_FACTOR in
          modify (set_preBendPitchValue (Some (value (playbackRate sn)))) ;;
          onSourceNode
            (setPlaybackRateAtTime newPitch (currentTime (audioContext mc))) ;;
          modify (set_isBent true) ;;
          ret true
      end.

(** [pitchBendRestore] has no [return] with a value: the call answers
    [undefined] on every path. *)
Definition pitchBendRestore : M (option bool) :=
  present <- _ensureSourceNodePresent ;;
  if negb present then throw TrackNotLoaded
  else
    mc <- get ;;
    match isBent mc, preBendPitchValue mc with
    | true, Some preBend =>
        onSourceNode (setPlaybackRateAtTime preBend (currentTime (audioContext mc))) ;;
        modify (set_isBent false) ;;
        ret None
    | _, _ => ret None
    end.

Definition destroy : M unit :=
  mc <- get ;;
  (match sourceNode mc with
   | Some _ => onSourceNode disconnect
   | None => ret tt
   end) ;;
  mc <- get ;;
  match gainNode mc with
  | Some _ => onGainNode (setDestination false)
  | None => ret tt
  end.

End WithEnvironment.

End MixerChannel.

(** ** The fade duration and the stop offset in IEEE doubles

    The model computes with exact rationals.  For the one concrete duration
    the specification quotes, and for the offset a STOP records, the same
    expressions are also evaluated in binary64, the arithmetic JavaScript
    numbers have. *)

Module Binary64.

Local Open Scope Z_scope.

Definition prec : Z := 53.
Definition emax : Z := 1024.

Definition d4 : spec_float := S754_finite false (2 ^ 52) (-50).
Definition d8 : spec_float := S754_finite false (2 ^ 52) (-49).
Definition d60 : spec_float := S754_finite false (15 * 2 ^ 49) (-47).
Definition d120 : spec_float := S754_finite false (15 * 2 ^ 49) (-46).

(** [(fadeNumBeats / trackBpm) * 60] *)
Definition fadeTimeSec (fadeNumBeats trackBpm : spec_float) : spec_float :=
  SFmul prec emax (SFdiv prec emax fadeNumBeats trackBpm) d60.

Definition d0 : spec_float := S754_zero false.
Definition d2000 : spec_float := S754_finite false (125 * 2 ^ 46) (-42).
Definition d3000 : spec_float := S754_finite false (375 * 2 ^ 44) (-41).
Definition d5000 : spec_float := S754_finite false (625 * 2 ^ 43) (-40).

(** The double written [4000.1]. *)
Definition d4000_1 : spec_float :=
  SFdiv prec emax (S754_finite false (40001 * 2 ^ 37) (-37))
                  (S754_finite false (5 * 2 ^ 50) (-49)).

(** [getTrackCurrentOffsetMS() + atTimeMS - currentTimeMS] of
    [_actionStopHelper] on a channel that is playing, where the offset
    read is [startedAtOffsetMS + (currentTimeMS - startScheduledTimeMS)]. *)
Definition stopOffsetMS
           (startedAtOffsetMS startScheduledTimeMS currentTimeMS atTimeMS : spec_float)
  : spec_float :=
  SFsub prec emax
        (SFadd prec emax
               (SFadd prec emax startedAtOffsetMS
                      (SFsub prec emax currentTimeMS startScheduledTimeMS))
               atTimeMS)
        currentTimeMS.

End Binary64.

(** ** Sample states *)

Module Examples.

Import Track TrackCache.

Definition guidOf (i : nat) : string :=
  String.append "com.soundcloud~"
                (String (Ascii.ascii_of_nat (48 + i)) EmptyString).

Definition sampleTrack (i : nat) (status : LoadStatus) : Track.t :=
  Track.mk (guidOf i) status
           (match status with
            | LOAD_SUCCESS => Some [Z.of_nat i]
            | _ => None
            end)
           120 (guidOf i) "tracks/sample.mp3" "sc".

(** Tracks 0 to 5 are decoded; every other track is not loaded. *)
Definition sampleHeap : Heap :=
  fun r => sampleTrack r (if r <? 6 then LOAD_SUCCESS else NOT_LOADED).

(** A cache that holds the six decoded tracks and track 6, which was
    unloaded earlier. *)
Definition fullCache : State :=
  mkState sampleHeap (map (fun i => (guidOf i, i)) [0; 1; 2; 3; 4; 5; 6]).

(** The same cache when a second object for track 3, not loaded, sits at
    reference 9. *)
Definition aliasedCache : State :=
  mkState (update sampleHeap 9 (sampleTrack 3 NOT_LOADED)) (_cache fullCache).

(** A cache with room: it holds the decoded tracks 0, 1 and 2. *)
Definition roomyCache : State :=
  mkState sampleHeap (map (fun i => (guidOf i, i)) [0; 1; 2]).

(** Every cached track is bound to a channel. *)
Definition allPins : list string := map guidOf [0; 1; 2; 3; 4; 5; 6].

(** Tracks 0 and 1 are bound to channels. *)
Definition demoPins : list string := [guidOf 0; guidOf 1].

Definition demoCalls : list (Ref * list string) :=
  [ (7, demoPins);
    (6, []);
    (8, map guidOf [0; 1; 2; 3; 4; 5; 6; 7; 8]);
    (2, demoPins) ].

(** *** Channels *)

Import Audio MixerChannel.
Local Open Scope Q_scope.

(** An environment in which every number is a good time and both
    sentinels are -1. *)
Definition anyNumber : Q -> bool := fun _ => false.
Definition invalid : Q := -1.

Definition context0 : AudioContext := mkContext 2 0%nat.

(** A channel built on decoded track 0 and one built on track 7, which
    has no buffer; the clock reads 2 s. *)
Definition loadedChannel : MixerChannel.t :=
  constructor anyNumber invalid invalid sampleHeap 0%nat context0.

Definition unloadedChannel : MixerChannel.t :=
  constructor anyNumber invalid invalid sampleHeap 7%nat context0.

Definition playAt (trackGuid : string) (timeMS : Q) : TrackAction.t :=
  TrackAction.mk TrackAction.PLAY TrackAction.SOURCE trackGuid timeMS
                 (Some 0) 1 0 0.

Definition stopAt (trackGuid : string) (timeMS : Q) : TrackAction.t :=
  TrackAction.mk TrackAction.STOP TrackAction.SOURCE trackGuid timeMS
                 None 1 0 0.

Definition fadeAt (trackGuid : string) (timeMS endVal beats : Q) : TrackAction.t :=
  TrackAction.mk TrackAction.GAIN_FADE TrackAction.GAIN trackGuid timeMS
                 None 1 endVal beats.

Definition pitchAt (trackGuid : string) (timeMS pitch : Q) : TrackAction.t :=
  TrackAction.mk TrackAction.PITCH TrackAction.SOURCE trackGuid timeMS
                 None pitch 0 0.

Definition submit (action : TrackAction.t) (mc : MixerChannel.t)
  : Completion (option bool) * MixerChannel.t :=
  addActionMc anyNumber invalid invalid sampleHeap action None None None mc.

(** Track 0 after its buffer has been released. *)
Definition releasedHeap : Heap :=
  update sampleHeap 0%nat (setStatusNotLoaded true (sampleHeap 0%nat)).

(** Track 7 once the loader has stored a buffer on it. *)
Definition heapAfterLoad : Heap :=
  update sampleHeap 7%nat (setAudioBuffer [7%Z] (sampleHeap 7%nat)).

(** Play scheduled at 3 s; at 4 s a stop is scheduled for 5 s; the clock
    then reads 6 s. *)
Definition playScheduledChannel : MixerChannel.t :=
  snd (submit (playAt (guidOf 0) 3000) loadedChannel).

Definition stopScheduledChannel : MixerChannel.t :=
  clockReads 6
    (snd (submit (stopAt (guidOf 0) 5000) (clockReads 4 playScheduledChannel))).

(** A fade of 8 beats to gain 0 at 3 s, on a channel that is stopped. *)
Definition fadedChannel : MixerChannel.t :=
  snd (submit (fadeAt (guidOf 0) 3000 0 8) loadedChannel).

(** The play scheduled at 3 s has begun: the clock reads 4 s. *)
Definition playingChannel : MixerChannel.t := clockReads 4 playScheduledChannel.

(** The pitch of the loaded channel bent upwards. *)
Definition bentChannel : MixerChannel.t :=
  snd (pitchBend sampleHeap PITCH_BEND_UP loadedChannel).

(** Track 0 with a tempo of 0 bpm. *)
Definition noTempoHeap : Heap :=
  update sampleHeap 0%nat
         (Track.mk (guidOf 0) LOAD_SUCCESS (Some [0%Z]) 0 (guidOf 0)
                   "tracks/sample.mp3" "sc").

End Examples.

(** * Properties of the track cache *)

Module TrackCacheFacts.

Import Track TrackCache.

Lemma update_same (h : Heap) (r : Ref) (x : Track.t) : update h r x r = x.
Proof. unfold update. now rewrite Nat.eqb_refl. Qed.

Lemma update_other (h : Heap) (r r' : Ref) (x : Track.t) :
  r' <> r -> update h r x r' = h r'.
Proof.
  intros Hne. unfold update.
  destruct (Nat.eqb_spec r' r); [contradiction | reflexivity].
Qed.

Lemma loadedOrLoading_status (x : Track.t) :
  loadedOrLoading x =
  match loadStatus x with
  | LOADING | LOAD_SUCCESS => true
  | NOT_LOADED | LOAD_FAILED => false
  end.
Proof.
  unfold loadedOrLoading, isStatusLoadSuccess, isStatusLoading.
  now destruct (loadStatus x).
Qed.

Lemma count_is_occupied (s : State) :
  _getNumTracksLoadedOrLoading s = List.length (occupied s).
Proof.
  unfold _getNumTracksLoadedOrLoading, occupied.
  induction (_cache s) as [|[g r] c IH]; simpl; [reflexivity|].
  rewrite loadedOrLoading_status, IH.
  now destruct (loadStatus (heap s r)).
Qed.

Lemma count_app (h : Heap) (c c' : Cache) :
  countLoadedOrLoading h (c ++ c') =
  countLoadedOrLoading h c + countLoadedOrLoading h c'.
Proof.
  induction c as [|[g r] c IH]; simpl; [reflexivity|].
  rewrite IH. lia.
Qed.

Lemma lookup_In (g : string) (c : Cache) (r : Ref) :
  lookup g c = Some r -> In (g, r) c.
Proof.
  induction c as [|[g0 r0] c IH]; simpl; [discriminate|].
  destruct (String.eqb_spec g0 g) as [->|Hne].
  - intros [= ->]. now left.
  - intros H. right. auto.
Qed.

Lemma lookup_None (g : string) (c : Cache) :
  lookup g c = None -> ~ In g (keys c).
Proof.
  induction c as [|[g0 r0] c IH]; simpl; [tauto|].
  destruct (String.eqb_spec g0 g) as [->|Hne]; [discriminate|].
  intros H [Heq|Hin]; [contradiction | now apply IH].
Qed.

Lemma In_keys (g : string) (r : Ref) (c : Cache) : In (g, r) c -> In g (keys c).
Proof. intros H. unfold keys. now apply (in_map fst) in H. Qed.

Lemma In_refs (g : string) (r : Ref) (c : Cache) : In (g, r) c -> In r (refs c).
Proof. intros H. unfold refs. now apply (in_map snd) in H. Qed.

Lemma NoDup_keys_unique (c : Cache) (g : string) (r r' : Ref) :
  NoDup (keys c) -> In (g, r) c -> In (g, r') c -> r = r'.
Proof.
  induction c as [|[g0 r0] c IH]; simpl; [tauto|].
  intros Hnd. inversion Hnd as [|? ? Hnotin Hnd']; subst.
  intros [[= -> ->]|H1] [[= <-]|H2]; try reflexivity.
  - exfalso. apply Hnotin. eapply In_keys; eauto.
  - subst. exfalso. apply Hnotin. eapply In_keys; eauto.
  - auto.
Qed.

Lemma lookup_of_In (c : Cache) (g : string) (r : Ref) :
  NoDup (keys c) -> In (g, r) c -> lookup g c = Some r.
Proof.
  intros Hnd Hin.
  destruct (lookup g c) as [r'|] eqn:E.
  - f_equal. eapply NoDup_keys_unique; eauto using lookup_In.
  - exfalso. eapply lookup_None; eauto using In_keys.
Qed.

Section Wf.

Variable s : State.
Hypothesis Hwf : wf s.

Lemma wf_entry_of_ref (r : Ref) :
  In r (refs (_cache s)) -> In (guid (heap s r), r) (_cache s).
Proof.
  destruct Hwf as [_ Hg]. unfold refs. intros Hin.
  apply in_map_iff in Hin as [[g r'] [Heq Hin]]. simpl in Heq. subst r'.
  now rewrite (Hg _ _ Hin).
Qed.

Lemma wf_refs_NoDup : NoDup (refs (_cache s)).
Proof.
  destruct Hwf as [Hnd Hg]. revert Hnd Hg. unfold keys, refs.
  induction (_cache s) as [|[g r] c IH]; simpl; intros Hnd Hg.
  - constructor.
  - inversion Hnd as [|? ? Hnotin Hnd']; subst. constructor.
    + intros Hin. apply in_map_iff in Hin as [[g' r'] [Heq Hin]].
      simpl in Heq. subst r'. apply Hnotin.
      assert (g' = g) as ->.
      { rewrite <- (Hg g' r) by now right. apply Hg. now left. }
      now apply (in_map fst) in Hin.
    + apply IH; auto.
Qed.

Lemma wf_uncached_ref (r : Ref) :
  contains (guid (heap s r)) (_cache s) = false -> ~ In r (refs (_cache s)).
Proof.
  unfold contains. intros Hc Hin. apply wf_entry_of_ref in Hin.
  destruct Hwf as [Hnd _]. now rewrite (lookup_of_In _ _ _ Hnd Hin) in Hc.
Qed.

End Wf.

Lemma count_update_absent (h : Heap) (c : Cache) (r : Ref) (x : Track.t) :
  ~ In r (refs c) ->
  countLoadedOrLoading (update h r x) c = countLoadedOrLoading h c.
Proof.
  induction c as [|[g r0] c IH]; simpl; [reflexivity|].
  intros Hnot. rewrite update_other by (intros ->; apply Hnot; now left).
  rewrite IH; [reflexivity | tauto].
Qed.

Lemma count_update_present (h : Heap) (c : Cache) (r : Ref) (x : Track.t) :
  NoDup (refs c) -> In r (refs c) ->
  countLoadedOrLoading (update h r x) c + b2n (loadedOrLoading (h r)) =
  countLoadedOrLoading h c + b2n (loadedOrLoading x).
Proof.
  induction c as [|[g r0] c IH]; simpl; [tauto|].
  intros Hnd Hin. inversion Hnd as [|? ? Hnotin Hnd']; subst.
  destruct (Nat.eq_dec r0 r) as [->|Hne].
  - rewrite update_same, count_update_absent by assumption.
    unfold b2n. destruct (loadedOrLoading x), (loadedOrLoading (h r)); lia.
  - destruct Hin as [Heq|Hin]; [contradiction|].
    rewrite update_other by assumption.
    specialize (IH Hnd' Hin). lia.
Qed.

(** Rewriting a track in place without touching its guid keeps the cache
    well formed. *)
Lemma wf_update (h : Heap) (c : Cache) (r : Ref) (x : Track.t) :
  wf (mkState h c) -> guid x = guid (h r) -> wf (mkState (update h r x) c).
Proof.
  intros [Hnd Hg] Hx. split; [exact Hnd|]. simpl in *.
  intros g r' Hin. destruct (Nat.eq_dec r' r) as [->|Hne].
  - rewrite update_same, Hx. auto.
  - rewrite update_other by assumption. auto.
Qed.

Lemma NoDup_snoc (l : list string) (x : string) :
  NoDup l -> ~ In x l -> NoDup (l ++ [x]).
Proof.
  induction l as [|y l IH]; simpl; intros Hnd Hx.
  - constructor; [tauto | constructor].
  - inversion Hnd as [|? ? Hy Hl]; subst. constructor.
    + rewrite in_app_iff. simpl. intros [H|[H|[]]]; [tauto|].
      apply Hx. now left.
    + apply IH; tauto.
Qed.

Lemma wf_append (h : Heap) (c : Cache) (r : Ref) :
  wf (mkState h c) -> contains (guid (h r)) c = false ->
  wf (mkState h (c ++ [(guid (h r), r)])).
Proof.
  intros [Hnd Hg] Hc. simpl in *. split; simpl.
  - unfold keys in *. rewrite map_app. simpl.
    apply NoDup_snoc; [exact Hnd|]. apply lookup_None. unfold contains in Hc.
    now destruct (lookup (guid (h r)) c).
  - intros g r' Hin. apply in_app_or in Hin as [Hin|[[= <- <-]|[]]]; auto.
Qed.

Lemma indexOfFrom_bounds (l : list string) (x : string) (i : Z) :
  (0 <= i)%Z -> (indexOfFrom i l x = -1)%Z <-> ~ In x l.
Proof.
  revert i. induction l as [|y l IH]; simpl; intros i Hi; [tauto|].
  destruct (String.eqb_spec y x) as [->|Hne].
  - split; [lia | intros H; exfalso; apply H; now left].
  - rewrite IH by lia. tauto.
Qed.

Lemma indexOf_absent (l : list string) (x : string) :
  Z.eqb (indexOf l x) (-1) = true <-> ~ In x l.
Proof.
  rewrite Z.eqb_eq. unfold indexOf. apply indexOfFrom_bounds. lia.
Qed.

(** What the eviction loop does when it makes room. *)
Lemma evictFirst_Some (pins : list string) (h h' : Heap) (c : Cache) :
  evictFirst pins h c = Some h' ->
  exists g r,
    In (g, r) c /\ isStatusLoadSuccess (h r) = true /\ ~ In g pins /\
    h' = update h r (setStatusNotLoaded true (h r)).
Proof.
  induction c as [|[g r] c IH]; simpl; [discriminate|].
  destruct (isStatusLoadSuccess (h r)) eqn:Hs; simpl.
  - destruct (Z.eqb (indexOf pins g) (-1)) eqn:Hp.
    + intros [= <-]. exists g, r. rewrite indexOf_absent in Hp. auto.
    + intros H. destruct (IH H) as (g' & r' & Hin & ?). exists g', r'. auto.
  - intros H. destruct (IH H) as (g' & r' & Hin & ?). exists g', r'. auto.
Qed.

Lemma wfb_sound (s : State) : wfb s = true -> wf s.
Proof.
  unfold wfb, wf. rewrite andb_true_iff. intros [Hnd Hall]. split.
  - clear Hall. induction (keys (_cache s)) as [|x l IH]; simpl in *.
    + constructor.
    + apply andb_true_iff in Hnd as [Hx Hl]. constructor; auto.
      intros Hin. apply negb_true_iff in Hx.
      assert (existsb (String.eqb x) l = true) as E.
      { apply existsb_exists. exists x. split; [exact Hin | apply String.eqb_refl]. }
      congruence.
  - intros g r Hin. rewrite forallb_forall in Hall.
    specialize (Hall _ Hin). simpl in Hall. now apply String.eqb_eq.
Qed.

Lemma guid_update (h : Heap) (r r' : Ref) (x : Track.t) :
  guid x = guid (h r) -> guid (update h r x r') = guid (h r').
Proof.
  intros Hx. destruct (Nat.eq_dec r' r) as [->|Hne].
  - now rewrite update_same.
  - now rewrite update_other.
Qed.

(** Marking the passed track LOADING and filing it when its guid is new:
    the count grows by at most one, and not at all when the guid's entry
    was loaded or loading already. *)
Lemma markLoading_count (s : State) (track : Ref) (g : string) :
  wf s -> g = guid (heap s track) ->
  let h2 := update (heap s) track (setStatusLoading (heap s track)) in
  let c2 := if negb (contains g (_cache s))
            then _cache s ++ [(g, track)] else _cache s in
  wf (mkState h2 c2) /\
  countLoadedOrLoading h2 c2 <= countLoadedOrLoading (heap s) (_cache s) + 1 /\
  (forall r0, lookup g (_cache s) = Some r0 ->
              loadedOrLoading (heap s r0) = true ->
              countLoadedOrLoading h2 c2 = countLoadedOrLoading (heap s) (_cache s)).
Proof.
  intros Hwf ->. destruct s as [h c]. simpl in *.
  set (h2 := update h track (setStatusLoading (h track))).
  assert (wf (mkState h2 c)) as Hwf2 by (apply wf_update; auto).
  assert (guid (h2 track) = guid (h track)) as Hg2
      by (unfold h2; now rewrite update_same).
  destruct (contains (guid (h track)) c) eqn:Hc; simpl.
  - split; [exact Hwf2|].
    destruct (in_dec Nat.eq_dec track (refs c)) as [Hin|Hnot].
    + pose proof (count_update_present h c track (setStatusLoading (h track))
                    (wf_refs_NoDup _ Hwf) Hin) as Hcount.
      fold h2 in Hcount. simpl in Hcount. split.
      * unfold b2n in Hcount.
        destruct (loadedOrLoading (h track)); simpl in Hcount; lia.
      * intros r0 Hl Hlol.
        pose proof (wf_entry_of_ref _ Hwf track Hin) as Hentry. simpl in Hentry.
        destruct Hwf as [Hnd _]. simpl in Hnd.
        rewrite (lookup_of_In _ _ _ Hnd Hentry) in Hl.
        injection Hl as <-. rewrite Hlol in Hcount. simpl in Hcount. lia.
    + unfold h2. rewrite count_update_absent by assumption.
      split; [lia | reflexivity].
  - pose proof (wf_uncached_ref _ Hwf track Hc) as Hnot. simpl in Hnot.
    split; [|split].
    + rewrite <- Hg2. apply wf_append; [exact Hwf2 | now rewrite Hg2].
    + rewrite count_app. unfold h2 at 1.
      rewrite count_update_absent by assumption. simpl.
      unfold h2. rewrite update_same. simpl. lia.
    + intros r0 Hl _. unfold contains in Hc. now rewrite Hl in Hc.
Qed.

(** One call keeps the cache well formed and within its bound. *)
Lemma addTrackAsLoading_step (s : State) (track : Ref) (pins : list string) :
  wf s -> _getNumTracksLoadedOrLoading s <= MAX_TRACKS ->
  wf (snd (addTrackAsLoading track pins s)) /\
  _getNumTracksLoadedOrLoading (snd (addTrackAsLoading track pins s)) <= MAX_TRACKS.
Proof.
  intros Hwf Hle.
  unfold addTrackAsLoading, _checkAndMakeSpace, _getNumTracksLoadedOrLoading in *.
  destruct (Nat.leb_spec MAX_TRACKS (countLoadedOrLoading (heap s) (_cache s)))
    as [Hfull|Hroom].
  - destruct (lookup (guid (heap s track)) (_cache s)) as [r0|] eqn:Hl.
    + destruct (loadedOrLoading (heap s r0)) eqn:Hlol; simpl.
      * destruct (markLoading_count s track _ Hwf eq_refl) as (Hw & _ & Hsame).
        split; [exact Hw|]. rewrite (Hsame r0 Hl Hlol). exact Hle.
      * destruct (evictFirst pins (heap s) (_cache s)) as [h'|] eqn:He; simpl;
          [|now split].
        apply evictFirst_Some in He as (gv & v & Hin & Hs & _ & ->).
        destruct s as [h c]. simpl in *.
        set (h' := update h v (setStatusNotLoaded true (h v))).
        assert (wf (mkState h' c)) as Hwf' by (apply wf_update; auto).
        assert (countLoadedOrLoading h' c + 1 = countLoadedOrLoading h c) as Hdrop.
        { pose proof (count_update_present h c v (setStatusNotLoaded true (h v))
                        (wf_refs_NoDup _ Hwf) (In_refs _ _ _ Hin)) as Hc.
          fold h' in Hc. unfold loadedOrLoading in Hc at 1. rewrite Hs in Hc.
          simpl in Hc. lia. }
        assert (guid (h track) = guid (h' track)) as Hg
            by (symmetry; apply guid_update; reflexivity).
        destruct (markLoading_count (mkState h' c) track _ Hwf' Hg)
          as (Hw & Hcount & _).
        simpl in *. split; [exact Hw | lia].
    + destruct (evictFirst pins (heap s) (_cache s)) as [h'|] eqn:He; simpl;
        [|now split].
      apply evictFirst_Some in He as (gv & v & Hin & Hs & _ & ->).
      destruct s as [h c]. simpl in *.
      set (h' := update h v (setStatusNotLoaded true (h v))).
      assert (wf (mkState h' c)) as Hwf' by (apply wf_update; auto).
      assert (countLoadedOrLoading h' c + 1 = countLoadedOrLoading h c) as Hdrop.
      { pose proof (count_update_present h c v (setStatusNotLoaded true (h v))
                      (wf_refs_NoDup _ Hwf) (In_refs _ _ _ Hin)) as Hc.
        fold h' in Hc. unfold loadedOrLoading in Hc at 1. rewrite Hs in Hc.
        simpl in Hc. lia. }
      assert (guid (h track) = guid (h' track)) as Hg
          by (symmetry; apply guid_update; reflexivity).
      destruct (markLoading_count (mkState h' c) track _ Hwf' Hg)
        as (Hw & Hcount & _).
      simpl in *. split; [exact Hw | lia].
  - simpl.
    destruct (markLoading_count s track _ Hwf eq_refl) as (Hw & Hcount & _).
    split; [exact Hw | simpl; lia].
Qed.

(** Making room leaves the descriptive fields of every track alone. *)
Lemma checkAndMakeSpace_descr (g : string) (pins : list string) (s : State)
      (r : Ref) :
  scId (heap (snd (_checkAndMakeSpace g pins s)) r) = scId (heap s r) /\
  title (heap (snd (_checkAndMakeSpace g pins s)) r) = title (heap s r).
Proof.
  unfold _checkAndMakeSpace.
  destruct (MAX_TRACKS <=? _getNumTracksLoadedOrLoading s); [|now split].
  destruct (match lookup g (_cache s) with
            | Some r0 => loadedOrLoading (heap s r0)
            | None => false
            end); [now split|].
  destruct (evictFirst pins (heap s) (_cache s)) as [h'|] eqn:He; [|now split].
  apply evictFirst_Some in He as (gv & v & _ & _ & _ & ->). simpl.
  destruct (Nat.eq_dec r v) as [->|Hne].
  - now rewrite update_same.
  - now rewrite update_other.
Qed.

End TrackCacheFacts.

Module TrackCacheSpec.

Import Track TrackCache TrackCacheFacts Examples.

(** What [_checkAndMakeSpace] can do to the state: nothing, or unload one
    cached track that is loaded and whose key is not pinned. *)
Lemma checkAndMakeSpace_effect (g : string) (pins : list string) (s : State) :
  _cache (snd (_checkAndMakeSpace g pins s)) = _cache s /\
  (snd (_checkAndMakeSpace g pins s) = s \/
   (fst (_checkAndMakeSpace g pins s) = true /\
    exists gv v,
      In (gv, v) (_cache s) /\ isStatusLoadSuccess (heap s v) = true /\
      ~ In gv pins /\
      heap (snd (_checkAndMakeSpace g pins s)) =
      update (heap s) v (setStatusNotLoaded true (heap s v)))).
Proof.
  unfold _checkAndMakeSpace.
  destruct (MAX_TRACKS <=? _getNumTracksLoadedOrLoading s); [|now split; [|left]].
  destruct (match lookup g (_cache s) with
            | Some r => loadedOrLoading (heap s r)
            | None => false
            end); [now split; [|left]|].
  destruct (evictFirst pins (heap s) (_cache s)) as [h'|] eqn:He;
    [|now split; [|left]].
  simpl. split; [reflexivity|]. right. split; [reflexivity|].
  apply evictFirst_Some in He as (gv & v & Hin & Hs & Hp & ->).
  exists gv, v. auto.
Qed.

Lemma addTrackAsLoading_heap (track : Ref) (pins : list string) (s : State) :
  let g := guid (heap s track) in
  let s1 := snd (_checkAndMakeSpace g pins s) in
  snd (addTrackAsLoading track pins s) = s \/
  heap (snd (addTrackAsLoading track pins s)) =
  update (heap s1) track (setStatusLoading (heap s1 track)).
Proof.
  unfold addTrackAsLoading. simpl.
  destruct (_checkAndMakeSpace (guid (heap s track)) pins s) as [ok s1] eqn:E.
  pose proof (checkAndMakeSpace_effect (guid (heap s track)) pins s) as [_ H].
  rewrite E in H. simpl in *.
  destruct ok; simpl; [now right|].
  destruct H as [->|[Hf _]]; [now left | discriminate Hf].
Qed.

Lemma runCalls_bound (calls : list (Ref * list string)) (s : State) :
  wf s ->
  _getNumTracksLoadedOrLoading s <= MAX_TRACKS ->
  Forall (fun s' => List.length (occupied s') <= MAX_TRACKS) (runCalls calls s).
Proof.
  revert s. induction calls as [|[track pins] calls IH]; intros s Hwf Hle.
  - constructor.
  - simpl.
    destruct (addTrackAsLoading_step s track pins Hwf Hle) as [Hwf' Hle'].
    constructor; [now rewrite <- count_is_occupied | now apply IH].
Qed.

Lemma wf_empty (h : Heap) : wf (empty h).
Proof. split; [constructor | intros g r []]. Qed.

(** C1. Along every sequence of [addTrackAsLoading] calls, each made with
    whatever pin set is current, the number of cached entries whose track
    is LOADING or LOAD_SUCCESS stays at most MAX_TRACKS: from the empty
    cache the module starts with, and from any well-formed cache that is
    within the bound.  Entries that are NOT_LOADED or LOAD_FAILED are not
    among the counted ones, and a call made while fewer than MAX_TRACKS
    are counted returns true however many such entries there are. *)
Theorem addTrackAsLoading_bound (s : State) (calls : list (Ref * list string)) :
  wf s ->
  List.length (occupied s) <= MAX_TRACKS ->
  Forall (fun s' => List.length (occupied s') <= MAX_TRACKS) (runCalls calls s)
  /\ Forall (fun s' => List.length (occupied s') <= MAX_TRACKS)
            (runCalls calls (empty (heap s)))
  /\ (forall track pins,
        List.length (occupied s) < MAX_TRACKS ->
        fst (addTrackAsLoading track pins s) = Normal true).
Proof.
  intros Hwf Hle. split; [|split].
  - apply runCalls_bound; [exact Hwf | now rewrite count_is_occupied].
  - apply runCalls_bound; [apply wf_empty | apply Nat.le_0_l].
  - intros track pins Hlt. rewrite <- count_is_occupied in Hlt.
    unfold addTrackAsLoading, _checkAndMakeSpace.
    destruct (Nat.leb_spec MAX_TRACKS (_getNumTracksLoadedOrLoading s)); [lia|].
    reflexivity.
Qed.

Lemma addTrackAsLoading_bound_witness :
  wf fullCache /\
  List.length (occupied fullCache) <= MAX_TRACKS /\
  Forall (fun s' => List.length (occupied s') <= MAX_TRACKS)
         (runCalls demoCalls fullCache).
Proof.
  assert (wf fullCache) as Hwf by (apply wfb_sound; reflexivity).
  assert (List.length (occupied fullCache) <= MAX_TRACKS) as Hle
      by (vm_compute; lia).
  split; [exact Hwf|]. split; [exact Hle|].
  exact (proj1 (addTrackAsLoading_bound fullCache demoCalls Hwf Hle)).
Defined.

(** C2. Whatever pin set the pin source answers during a call of
    [addTrackAsLoading], a track whose guid is in that set keeps its
    buffer and is not moved to NOT_LOADED (its status is untouched, or it
    is the passed track and becomes LOADING); the only other track the
    call can change is one cached entry that was LOAD_SUCCESS and whose
    guid is not pinned, which is unloaded. *)
Theorem pinned_track_never_evicted (s : State) (track : Ref) (pins : list string) :
  wf s ->
  (forall r,
      In (guid (heap s r)) pins ->
      audioBuffer (heap (snd (addTrackAsLoading track pins s)) r)
      = audioBuffer (heap s r) /\
      (loadStatus (heap (snd (addTrackAsLoading track pins s)) r)
       = loadStatus (heap s r) \/
       (r = track /\
        loadStatus (heap (snd (addTrackAsLoading track pins s)) r) = LOADING)))
  /\
  (forall r,
      r <> track ->
      heap (snd (addTrackAsLoading track pins s)) r <> heap s r ->
      exists g,
        In (g, r) (_cache s) /\ ~ In g pins /\
        loadStatus (heap s r) = LOAD_SUCCESS /\
        heap (snd (addTrackAsLoading track pins s)) r
        = setStatusNotLoaded true (heap s r)).
Proof.
  intros Hwf.
  pose proof (addTrackAsLoading_heap track pins s) as Hheap. simpl in Hheap.
  pose proof (checkAndMakeSpace_effect (guid (heap s track)) pins s) as [_ Hsp].
  remember (snd (_checkAndMakeSpace (guid (heap s track)) pins s)) as s1 eqn:Es1.
  remember (snd (addTrackAsLoading track pins s)) as s' eqn:Es'.
  clear Es1 Es'.
  split.
  - intros r Hpin.
    assert (heap s1 r = heap s r) as Hr.
    { destruct Hsp as [E | (_ & gv & v & Hin & _ & Hnp & E)]; rewrite E; [reflexivity|].
      apply update_other. intros ->.
      destruct Hwf as [_ Hg]. rewrite (Hg _ _ Hin) in Hpin. contradiction. }
    destruct Hheap as [E | E]; rewrite E; [now split; [|left]|].
    destruct (Nat.eq_dec r track) as [->|Hne].
    + rewrite update_same. simpl. rewrite Hr. split; [reflexivity|]. now right.
    + rewrite update_other by assumption. rewrite Hr. now split; [|left].
  - intros r Hne Hchg.
    destruct Hheap as [E|E]; [now rewrite E in Hchg|].
    rewrite E in *. rewrite update_other in * by assumption.
    destruct Hsp as [E1|(_ & gv & v & Hin & Hs & Hnp & E1)];
      [now rewrite E1 in Hchg|].
    rewrite E1 in *.
    destruct (Nat.eq_dec r v) as [->|Hne'];
      [|now rewrite update_other in Hchg by assumption].
    rewrite update_same. exists gv. repeat split; auto.
    unfold isStatusLoadSuccess in Hs. now destruct (loadStatus (heap s v)).
Qed.

Lemma pinned_track_never_evicted_witness :
  wf fullCache /\
  In (guid (heap fullCache 0)) demoPins /\
  audioBuffer (heap (snd (addTrackAsLoading 7 demoPins fullCache)) 0)
  = audioBuffer (heap fullCache 0) /\
  heap (snd (addTrackAsLoading 7 demoPins fullCache)) 2
  = setStatusNotLoaded true (heap fullCache 2).
Proof.
  assert (wf fullCache) as Hwf by (apply wfb_sound; reflexivity).
  assert (In (guid (heap fullCache 0)) demoPins) as Hin by (left; reflexivity).
  destruct (pinned_track_never_evicted fullCache 7 demoPins Hwf) as [Hpin Hev].
  split; [exact Hwf|]. split; [exact Hin|]. split.
  - exact (proj1 (Hpin 0 Hin)).
  - destruct (Hev 2) as (g & _ & _ & _ & E).
    + discriminate.
    + vm_compute. discriminate.
    + exact E.
Defined.

(** C10. A call of [addTrackAsLoading] that does not throw returns true
    and leaves the passed track LOADING.  This holds in particular when
    the passed track is the cached entry for its guid and was
    LOAD_SUCCESS: the call then cannot throw, the entry stays the same
    object, and it is LOADING afterwards. *)
Theorem addTrackAsLoading_marks_loading (s : State) (track : Ref) (pins : list string) :
  (forall b s',
      addTrackAsLoading track pins s = (Normal b, s') ->
      b = true /\ loadStatus (heap s' track) = LOADING)
  /\
  (lookup (guid (heap s track)) (_cache s) = Some track ->
   loadStatus (heap s track) = LOAD_SUCCESS ->
   exists s',
     addTrackAsLoading track pins s = (Normal true, s') /\
     lookup (guid (heap s track)) (_cache s') = Some track /\
     loadStatus (heap s' track) = LOADING).
Proof.
  split.
  - intros b s'. unfold addTrackAsLoading.
    destruct (_checkAndMakeSpace (guid (heap s track)) pins s) as [[|] s1]; simpl.
    + intros [= <- <-]. simpl. now rewrite update_same.
    + discriminate.
  - intros Hl Hs. unfold addTrackAsLoading, _checkAndMakeSpace.
    assert (loadedOrLoading (heap s track) = true) as Hlol
        by (rewrite loadedOrLoading_status; now rewrite Hs).
    rewrite Hl, Hlol.
    destruct (MAX_TRACKS <=? _getNumTracksLoadedOrLoading s); simpl;
      unfold contains; rewrite Hl; simpl;
      (eexists; split; [reflexivity|]; simpl; split;
       [exact Hl | now rewrite update_same]).
Qed.

Lemma addTrackAsLoading_marks_loading_witness :
  lookup (guid (heap fullCache 3)) (_cache fullCache) = Some 3 /\
  loadStatus (heap fullCache 3) = LOAD_SUCCESS /\
  loadStatus (heap (snd (addTrackAsLoading 3 demoPins fullCache)) 3) = LOADING /\
  exists s',
    addTrackAsLoading 3 demoPins fullCache = (Normal true, s') /\
    lookup (guid (heap fullCache 3)) (_cache s') = Some 3 /\
    loadStatus (heap s' 3) = LOADING.
Proof.
  destruct (addTrackAsLoading_marks_loading fullCache 3 demoPins) as [H1 H2].
  split; [reflexivity|]. split; [reflexivity|]. split.
  - destruct (addTrackAsLoading 3 demoPins fullCache) as [[b|e] s'] eqn:E.
    + exact (proj2 (H1 b s' eq_refl)).
    + vm_compute in E. discriminate E.
  - apply H2; reflexivity.
Defined.

End TrackCacheSpec.

(** * Properties of the audio buffer manager *)

Module AudioBufferManagerSpec.

Import Track TrackCache TrackCacheFacts AudioBufferManager Examples.

Lemma getTrack_lookup (g : string) (s : State) :
  getTrack g s = lookup g (_cache s).
Proof.
  unfold getTrack, contains. now destruct (lookup g (_cache s)).
Qed.

(** [shouldTryLoad] is the test the executor makes on the cached entry. *)
Lemma shouldTryLoad_true (g : string) (s : State) :
  shouldTryLoad g s = true ->
  match getTrack g s with
  | Some c => isStatusLoading (heap s c) = false
              /\ isStatusLoadSuccess (heap s c) = false
  | None => True
  end.
Proof.
  unfold shouldTryLoad. rewrite getTrack_lookup. unfold contains.
  destruct (lookup g (_cache s)) as [c|]; [|trivial].
  destruct (isStatusLoading (heap s c)), (isStatusLoadSuccess (heap s c));
    simpl; intros H; try discriminate H. now split.
Qed.

(** When the track is neither loaded nor loading and the cache takes it,
    the executor leaves the promise pending and issues the fetch. *)
Lemma executor_pending (bucket : string) (track : Ref) (pins : list string)
      (s s1 : State) (b : bool) :
  shouldTryLoad (guid (heap s track)) s = true ->
  addTrackAsLoading track pins s = (Normal b, s1) ->
  pLoadSingleTrack bucket track pins s
  = (None, [S3GetObject bucket (audioSourceKey (heap s1 track))], s1).
Proof.
  intros Htry Hadd. apply shouldTryLoad_true in Htry.
  unfold pLoadSingleTrack.
  destruct (getTrack (guid (heap s track)) s) as [c|].
  - destruct Htry as [-> ->]. simpl. now rewrite Hadd.
  - simpl. now rewrite Hadd.
Qed.

(** The three callbacks, whatever the cache looks like when they run. *)
Lemma onGetObject_error (track : Ref) (err : string) (body : list Byte.byte)
      (s : State) :
  let '(p, reqs, s') := onGetObject track (Some err) body None s in
  p = Some (Rejected (TrackRequestError (scId (heap s track)) err)) /\
  reqs = [] /\
  loadStatus (heap s' track) = LOAD_FAILED.
Proof.
  simpl. rewrite !update_same. simpl. auto.
Qed.

Lemma onDecodeError_fails (track : Ref) (s : State) :
  let '(p, s') := onDecodeError track None s in
  p = Some (Rejected (DecodingError (title (heap s track)))) /\
  loadStatus (heap s' track) = LOAD_FAILED.
Proof.
  simpl. rewrite !update_same. simpl. auto.
Qed.

Lemma onDecodeSuccess_stores (track : Ref) (buffer : AudioBuffer) (s : State) :
  let '(p, s') := onDecodeSuccess track buffer None s in
  p = Some (Resolved track) /\
  audioBuffer (heap s' track) = Some buffer /\
  loadStatus (heap s' track) = LOAD_SUCCESS.
Proof.
  simpl. rewrite !update_same. simpl. auto.
Qed.

Lemma addTrackAsLoading_descr (s s1 : State) (track : Ref) (pins : list string)
      (b : bool) :
  addTrackAsLoading track pins s = (Normal b, s1) ->
  scId (heap s1 track) = scId (heap s track) /\
  title (heap s1 track) = title (heap s track).
Proof.
  unfold addTrackAsLoading.
  pose proof (checkAndMakeSpace_descr (guid (heap s track)) pins s track) as Hd.
  destruct (_checkAndMakeSpace (guid (heap s track)) pins s) as [[|] s0];
    simpl in *; [|discriminate].
  intros [= _ <-]. simpl. rewrite update_same. simpl. exact Hd.
Qed.

(** C6. [loadSingleTrack], for every track, pin set and outcome of the
    external fetch and decode:
    - cached and LOAD_SUCCESS: the promise is resolved by the executor
      and no request is issued;
    - cached and LOADING: it is rejected by the executor with the
      already-loading reason and no request is issued;
    - otherwise, once the cache has taken the track as LOADING: a failed
      fetch marks the track LOAD_FAILED and rejects with the request
      error; a failed decode marks it LOAD_FAILED and rejects with the
      decoding error; a successful decode stores the buffer on the track,
      which makes it LOAD_SUCCESS, and resolves with the track. *)
Theorem loadSingleTrack_outcomes (bucket : string) (track : Ref)
        (pins : list string) (s : State) :
  (forall c fetch decode,
      getTrack (guid (heap s track)) s = Some c ->
      loadStatus (heap s c) = LOAD_SUCCESS ->
      loadSingleTrack bucket track pins fetch decode s
      = (Some (Resolved track), [], s))
  /\
  (forall c fetch decode,
      getTrack (guid (heap s track)) s = Some c ->
      loadStatus (heap s c) = LOADING ->
      loadSingleTrack bucket track pins fetch decode s
      = (Some (Rejected (AlreadyLoading (guid (heap s track)))), [], s))
  /\
  (forall s1 b,
      shouldTryLoad (guid (heap s track)) s = true ->
      addTrackAsLoading track pins s = (Normal b, s1) ->
      let fetchRequest := S3GetObject bucket (audioSourceKey (heap s1 track)) in
      (forall err decode,
          let '(p, reqs, s') :=
            loadSingleTrack bucket track pins (FetchFailed err) decode s in
          p = Some (Rejected (TrackRequestError (scId (heap s track)) err)) /\
          reqs = [fetchRequest] /\
          loadStatus (heap s' track) = LOAD_FAILED)
      /\
      (forall body,
          let '(p, reqs, s') :=
            loadSingleTrack bucket track pins (Fetched body) DecodeFailed s in
          p = Some (Rejected (DecodingError (title (heap s track)))) /\
          reqs = [fetchRequest; DecodeAudioData body] /\
          loadStatus (heap s' track) = LOAD_FAILED)
      /\
      (forall body buffer,
          let '(p, reqs, s') :=
            loadSingleTrack bucket track pins (Fetched body) (Decoded buffer) s in
          p = Some (Resolved track) /\
          reqs = [fetchRequest; DecodeAudioData body] /\
          audioBuffer (heap s' track) = Some buffer /\
          loadStatus (heap s' track) = LOAD_SUCCESS)).
Proof.
  split; [|split].
  - intros c fetch decode Hc Hs.
    unfold loadSingleTrack, pLoadSingleTrack. rewrite Hc.
    unfold isStatusLoading, isStatusLoadSuccess. now rewrite Hs.
  - intros c fetch decode Hc Hs.
    unfold loadSingleTrack, pLoadSingleTrack. rewrite Hc.
    unfold isStatusLoading, isStatusLoadSuccess. now rewrite Hs.
  - intros s1 b Htry Hadd fetchRequest.
    pose proof (executor_pending bucket track pins s s1 b Htry Hadd) as Hex.
    destruct (addTrackAsLoading_descr _ _ _ _ _ Hadd) as [Hsc Hti].
    unfold loadSingleTrack. rewrite Hex. split; [|split].
    + intros err decode.
      pose proof (onGetObject_error track err [] s1) as H.
      destruct (onGetObject track (Some err) [] None s1) as [[p reqs] s'].
      rewrite <- Hsc. subst fetchRequest. simpl. intuition.
    + intros body. subst fetchRequest. simpl.
      rewrite !update_same. simpl. rewrite Hti. auto.
    + intros body buffer. subst fetchRequest. simpl.
      rewrite !update_same. simpl. auto.
Qed.

Lemma loadSingleTrack_outcomes_witness :
  getTrack (guid (heap fullCache 3)) fullCache = Some 3 /\
  loadStatus (heap fullCache 3) = LOAD_SUCCESS /\
  loadSingleTrack "bucket" 3 demoPins (Fetched []) (Decoded [1%Z]) fullCache
  = (Some (Resolved 3), [], fullCache) /\
  shouldTryLoad (guid (heap fullCache 7)) fullCache = true /\
  fst (addTrackAsLoading 7 demoPins fullCache) = Normal true /\
  (let '(p, reqs, s') :=
     loadSingleTrack "bucket" 7 demoPins (Fetched []) (Decoded [1%Z]) fullCache in
   p = Some (Resolved 7) /\
   audioBuffer (heap s' 7) = Some [1%Z] /\
   loadStatus (heap s' 7) = LOAD_SUCCESS).
Proof.
  destruct (loadSingleTrack_outcomes "bucket" 7 demoPins fullCache)
    as (_ & _ & Hrun).
  destruct (loadSingleTrack_outcomes "bucket" 3 demoPins fullCache)
    as (Hhit & _ & _).
  split; [reflexivity|]. split; [reflexivity|].
  split; [apply (Hhit 3); reflexivity|].
  split; [reflexivity|]. split; [reflexivity|].
  destruct (addTrackAsLoading 7 demoPins fullCache) as [[b|e] s1] eqn:E.
  - destruct (Hrun s1 b eq_refl eq_refl) as (_ & _ & Hok).
    specialize (Hok [] [1%Z]).
    destruct (loadSingleTrack "bucket" 7 demoPins (Fetched []) (Decoded [1%Z])
                              fullCache) as [[p reqs] s'].
    tauto.
  - vm_compute in E. discriminate E.
Defined.

End AudioBufferManagerSpec.

(** * Properties of the mixer channel *)

Module MixerChannelFacts.

Import Audio MixerChannel.
Local Open Scope Q_scope.

Lemma Qlt_bool_iff (x y : Q) : Qlt_bool x y = true <-> x < y.
Proof.
  unfold Qlt_bool. rewrite negb_true_iff. split.
  - intros H. apply Qnot_le_lt. intros Hle.
    apply Qle_bool_iff in Hle. congruence.
  - intros H. destruct (Qle_bool y x) eqn:E; [|reflexivity].
    apply Qle_bool_iff in E. exfalso. exact (Qlt_not_le _ _ H E).
Qed.

Local Arguments secToMS : simpl never.
Local Arguments msToSec : simpl never.

Section Env.

Variable isBadNumber : Q -> bool.
Variables INVALID_TIME_VAL INVALID_VAL : Q.
Variable tracks : Heap.

(** Without a source node and without a buffer, no node can be made,
    and the channel is left as it was. *)
Lemma ensure_absent (mc : MixerChannel.t) :
  sourceNode mc = None ->
  Track.getAudioBuffer (tracks (track mc)) = None ->
  _ensureSourceNodePresent tracks mc = (Normal false, mc).
Proof.
  intros Hs Hb. destruct mc; simpl in *. subst.
  unfold _ensureSourceNodePresent, _sourceNodeRecreateVia. run.
  destruct gainNode0; [|reflexivity]. simpl. now rewrite Hb.
Qed.

(** A channel that has its source node keeps it. *)
Lemma ensure_present (mc : MixerChannel.t) (g : GainNode) (sn : SourceNode) :
  gainNode mc = Some g ->
  sourceNode mc = Some sn ->
  _ensureSourceNodePresent tracks mc = (Normal true, mc).
Proof.
  intros Hg Hs. destruct mc; simpl in *. subst.
  unfold _ensureSourceNodePresent, _sourceNodeRecreateVia. run. reflexivity.
Qed.

Lemma ensure_created (mc : MixerChannel.t) (g : GainNode) (b : Track.AudioBuffer) :
  gainNode mc = Some g ->
  sourceNode mc = None ->
  Track.getAudioBuffer (tracks (track mc)) = Some b ->
  _ensureSourceNodePresent tracks mc = (Normal true, withNewSource g b mc).
Proof.
  intros Hg Hs Hb. destruct mc; simpl in *. subst.
  unfold _ensureSourceNodePresent, _sourceNodeRecreateVia. run.
  rewrite Hb. reflexivity.
Qed.

(** [_ensureSourceNodePresent] is [_sourceNodeRecreate] asked for no
    deletion and no replay. *)
Lemma ensure_is_recreate (mc : MixerChannel.t) :
  _ensureSourceNodePresent tracks mc
  = _sourceNodeRecreate isBadNumber INVALID_TIME_VAL INVALID_VAL tracks
                        false false mc.
Proof.
  unfold _ensureSourceNodePresent, _sourceNodeRecreate, _sourceNodeRecreateVia.
  run. destruct (gainNode mc); [|reflexivity].
  destruct (sourceNode mc); [reflexivity|].
  destruct (Track.getAudioBuffer (tracks (track mc))); reflexivity.
Qed.

Lemma schedulableb_sound (mc : MixerChannel.t) :
  schedulableb tracks mc = true -> schedulable tracks mc.
Proof.
  unfold schedulableb, schedulable.
  destruct (gainNode mc); [|discriminate].
  destruct (sourceNode mc); [intros _; split; [|left]; discriminate|].
  destruct (Track.getAudioBuffer (tracks (track mc))); [|discriminate].
  intros _. split; [|right]; discriminate.
Qed.

(** On such a channel the guard at the head of [addActionMc] passes, and
    what it leaves behind agrees with the channel on everything the
    scheduling decisions read. *)
Lemma ensure_schedulable (mc : MixerChannel.t) :
  schedulable tracks mc ->
  exists mc1,
    _ensureSourceNodePresent tracks mc = (Normal true, mc1) /\
    track mc1 = track mc /\
    gainNode mc1 = gainNode mc /\
    sourceNode mc1 <> None /\
    currentTimeMS mc1 = currentTimeMS mc /\
    _playState mc1 = _playState mc /\
    startScheduledTimeMS mc1 = startScheduledTimeMS mc /\
    stopScheduledTimeMS mc1 = stopScheduledTimeMS mc.
Proof.
  intros [Hg Hs].
  destruct (gainNode mc) as [g|] eqn:Eg; [clear Hg | contradiction].
  destruct (sourceNode mc) as [sn|] eqn:Es.
  - exists mc. rewrite (ensure_present mc g sn Eg Es).
    rewrite Eg, Es. repeat split; auto. discriminate.
  - destruct Hs as [Hs|Hs]; [contradiction|].
    destruct (Track.getAudioBuffer (tracks (track mc))) as [b|] eqn:Eb;
      [clear Hs | contradiction].
    exists (withNewSource g b mc). rewrite (ensure_created mc g b Eg Es Eb).
    repeat split; auto. discriminate.
Qed.

End Env.

End MixerChannelFacts.

Module MixerChannelSpec.

Import Audio MixerChannel MixerChannelFacts Examples.
Local Open Scope Q_scope.
Local Arguments secToMS : simpl never.
Local Arguments msToSec : simpl never.

Section Env.

Variable isBadNumber : Q -> bool.
Variables INVALID_TIME_VAL INVALID_VAL : Q.
Variable tracks : Heap.

Local Abbreviation addAction :=
  (addActionMc isBadNumber INVALID_TIME_VAL INVALID_VAL tracks).

(** [addActionMc] once its guard has passed. *)
Lemma addActionMc_guard_passed (tr : Heap) (mc mc1 : MixerChannel.t)
      (action : TrackAction.t)
      (base off min : option Q) :
  _ensureSourceNodePresent tr mc = (Normal true, mc1) ->
  addActionMc isBadNumber INVALID_TIME_VAL INVALID_VAL tr action base off min mc
  = (if String.eqb (Track.guid (tr (track mc1)))
                   (TrackAction.getActionTrackGuid action)
     then
       if Qlt_bool (_filterAtTimeNow mc1 (TrackAction.getActionTimeMSAbs action))
                   (orZero isBadNumber min)
       then ret (Some false)
       else
         let actionTimeMSAbs :=
           _filterAtTimeNow mc1 (TrackAction.getActionTimeMSAbs action)
           + orZero isBadNumber base - orZero isBadNumber off in
         bind
           (match TrackAction.getActionType action with
            | TrackAction.PLAY =>
                _actionPlay isBadNumber actionTimeMSAbs
                            (TrackAction.getActionOffsetMS action)
            | TrackAction.STOP =>
                _actionStop isBadNumber INVALID_TIME_VAL INVALID_VAL actionTimeMSAbs
            | TrackAction.PAUSE => _actionPause actionTimeMSAbs
            | TrackAction.PITCH =>
                _actionPitch isBadNumber actionTimeMSAbs
                             (TrackAction.getPitchValueApplied action)
            | TrackAction.GAIN_FADE =>
                _actionGainFade actionTimeMSAbs (TrackAction.getEndVal action)
                                (TrackAction.getFadeNumBeats action)
                                (Track.bpm (tr (track mc1)))
            end)
           (fun actionAdded =>
              bind
                (if truthy actionAdded
                    && TrackAction.targets_eqb (TrackAction.getActionTarget action)
                                               TrackAction.SOURCE
                 then
                   modify (fun mc' =>
                     set_actionsAddedCollection
                       (TrackActionsCollection.addActionWithTimeMSAbs
                          (TrackAction.copyFromTrackAction action) actionTimeMSAbs
                          (actionsAddedCollection mc')) mc')
                 else ret tt)
                (fun _ => ret actionAdded))
     else ret (Some false)) mc1.
Proof.
  intros Hens. unfold addActionMc. unfold bind at 1. rewrite Hens.
  reflexivity.
Qed.

Lemma filterAtTimeNow_clock (mc mc1 : MixerChannel.t) (timeMS : Q) :
  currentTimeMS mc1 = currentTimeMS mc ->
  _filterAtTimeNow mc1 timeMS = _filterAtTimeNow mc timeMS.
Proof. intros H. unfold _filterAtTimeNow. now rewrite H. Qed.

(** C4. What the code does in state PLAYING_AND_STOP_SCHEDULED: whatever
    the clock reads, and so also once it is at or past
    [stopScheduledTimeMS], the play-state query answers
    PLAYING_AND_STOP_SCHEDULED and leaves the channel as it is.  The
    test meant to detect the stop reads the property [_playStates],
    which is never set, so the transition to STOPPED is not taken. *)
Theorem getPlayState_stop_never_detected (mc : MixerChannel.t) :
  _playState mc = PLAYING_AND_STOP_SCHEDULED ->
  _getPlayState mc = (Normal PLAYING_AND_STOP_SCHEDULED, mc).
Proof.
  intros H. unfold _getPlayState. rewrite H. simpl. now rewrite H.
Qed.

(** C5, amended.  On a channel that has no source node and whose track
    has no decoded buffer, [addActionMc] throws TrackNotLoaded for every
    action and leaves the channel as it is.  Once the track has a
    decoded buffer, a PLAY for the hosted track whose time passes the
    time checks is accepted by the same channel, still STOPPED, and the
    channel becomes STOPPED_AND_PLAY_SCHEDULED. *)
Theorem addAction_requires_loaded_track (mc : MixerChannel.t) :
  sourceNode mc = None ->
  Track.getAudioBuffer (tracks (track mc)) = None ->
  (forall anyAction anyBase anyOff anyMin,
      addAction anyAction anyBase anyOff anyMin mc = (Throw TrackNotLoaded, mc))
  /\
  (forall (g : GainNode) (tracks' : Heap) (b : Track.AudioBuffer)
          (action : TrackAction.t) (base off min : option Q),
      gainNode mc = Some g ->
      _playState mc = STOPPED ->
      Track.getAudioBuffer (tracks' (track mc)) = Some b ->
      TrackAction.getActionType action = TrackAction.PLAY ->
      Track.guid (tracks' (track mc)) = TrackAction.getActionTrackGuid action ->
      Qlt_bool (_filterAtTimeNow mc (TrackAction.getActionTimeMSAbs action))
               (orZero isBadNumber min) = false ->
      isBadNumber (_filterAtTimeNow mc (TrackAction.getActionTimeMSAbs action)
                   + orZero isBadNumber base - orZero isBadNumber off) = false ->
      fst (addActionMc isBadNumber INVALID_TIME_VAL INVALID_VAL tracks'
                       action base off min mc) = Normal (Some true)
      /\ _playState (snd (addActionMc isBadNumber INVALID_TIME_VAL INVALID_VAL
                                      tracks' action base off min mc))
         = STOPPED_AND_PLAY_SCHEDULED).
Proof.
  intros Hs Hnone. split.
  - intros a' b' o' m'. unfold addActionMc. unfold bind at 1.
    now rewrite (ensure_absent tracks mc Hs Hnone).
  - intros g tracks' b action base off min Hg Hps Hsome Hty Hguid Hmin Hbad.
    pose proof (ensure_created tracks' mc g b Hg Hs Hsome) as Hens.
    assert (currentTimeMS (withNewSource g b mc) = currentTimeMS mc) as Hclk
        by reflexivity.
    rewrite (addActionMc_guard_passed tracks' mc _ action base off min Hens).
    change (track (withNewSource g b mc)) with (track mc).
    rewrite Hguid, String.eqb_refl, Hty.
    rewrite !(filterAtTimeNow_clock mc _ _ Hclk), Hmin.
    cbv zeta. unfold _actionPlay. rewrite Hbad.
    unfold _actionPlayHelper, _getPlayState, withNewSource. run.
    rewrite Hps. simpl. rewrite Hps. simpl.
    destruct (TrackAction.targets_eqb (TrackAction.getActionTarget action)
                                      TrackAction.SOURCE);
      split; reflexivity.
Qed.

(** C7, amended.  On a channel on which scheduling can go ahead (its
    source node is there or can be built), [addActionMc] returns false
    without throwing whenever the action's track id is not the hosted
    track's; and, for the hosted track's id and with no base offset and
    no set offset in play (both absent or zero), it returns false
    whenever the effective time is earlier than [minTimeMSAbs]. *)
Theorem addAction_rejects (mc : MixerChannel.t) (action : TrackAction.t)
        (base off min : option Q) :
  schedulable tracks mc ->
  (Track.guid (tracks (track mc)) <> TrackAction.getActionTrackGuid action ->
   fst (addAction action base off min mc) = Normal (Some false))
  /\
  (Track.guid (tracks (track mc)) = TrackAction.getActionTrackGuid action ->
   orZero isBadNumber base == 0 ->
   orZero isBadNumber off == 0 ->
   _filterAtTimeNow mc (TrackAction.getActionTimeMSAbs action)
   + orZero isBadNumber base - orZero isBadNumber off
   < orZero isBadNumber min ->
   fst (addAction action base off min mc) = Normal (Some false)).
Proof.
  intros Hsch.
  destruct (ensure_schedulable tracks mc Hsch)
    as (mc1 & Hens & Htr & _ & _ & Hclk & _).
  rewrite (addActionMc_guard_passed tracks mc mc1 action base off min Hens).
  rewrite Htr, (filterAtTimeNow_clock mc mc1 _ Hclk). split.
  - intros Hne. apply String.eqb_neq in Hne. now rewrite Hne.
  - intros Heq Hb Ho Hlt. rewrite Heq, String.eqb_refl.
    rewrite Hb, Ho in Hlt.
    assert (_filterAtTimeNow mc (TrackAction.getActionTimeMSAbs action)
            < orZero isBadNumber min) as Hlt'.
    { eapply Qle_lt_trans; [|exact Hlt].
      unfold Qminus. rewrite Qplus_0_r.
      setoid_replace (- 0) with 0 by reflexivity.
      rewrite Qplus_0_r. apply Qle_refl. }
    apply Qlt_bool_iff in Hlt'. now rewrite Hlt'.
Qed.

(** C8. A GAIN_FADE action that [addActionMc] takes on (the channel can
    schedule, the action is for the hosted track, its time is not
    before [minTimeMSAbs], the track's bpm is positive) schedules
    exactly two linear ramps on the gain node, after whatever was
    scheduled before: the first to [1 - endGainVal] at the action time,
    the second to [endGainVal] at the action time plus the fade
    duration, which is [fadeNumBeats / trackBpm * 60] seconds; 8 beats
    at 120 bpm last 4 seconds. *)
Theorem gainFade_schedules_two_ramps (mc : MixerChannel.t) (g : GainNode)
        (action : TrackAction.t) (base off min : option Q) :
  schedulable tracks mc ->
  gainNode mc = Some g ->
  TrackAction.getActionType action = TrackAction.GAIN_FADE ->
  Track.guid (tracks (track mc)) = TrackAction.getActionTrackGuid action ->
  Qlt_bool (_filterAtTimeNow mc (TrackAction.getActionTimeMSAbs action))
           (orZero isBadNumber min) = false ->
  isPositive (Track.bpm (tracks (track mc))) = true ->
  let atTimeSec :=
    (_filterAtTimeNow mc (TrackAction.getActionTimeMSAbs action)
     + orZero isBadNumber base - orZero isBadNumber off) / 1000 in
  let trackBpm := Track.bpm (tracks (track mc)) in
  let fadeSec := fadeTimeSec (TrackAction.getFadeNumBeats action) trackBpm in
  let endGainVal := TrackAction.getEndVal action in
  (exists g',
      gainNode (snd (addAction action base off min mc)) = Some g' /\
      gainId g' = gainId g /\
      events (gain g')
      = events (gain g)
        ++ [LinearRampToValueAtTime (1 - endGainVal) atTimeSec;
            LinearRampToValueAtTime endGainVal (atTimeSec + fadeSec)])
  /\ fadeSec = TrackAction.getFadeNumBeats action / trackBpm * 60
  /\ fadeTimeSec 8 120 == 4.
Proof.
  intros Hsch Hg Hty Hguid Hmin Hbpm atTimeSec trackBpm fadeSec endGainVal.
  split; [|split; [reflexivity | reflexivity]].
  destruct (ensure_schedulable tracks mc Hsch)
    as (mc1 & Hens & Htr & Hg1 & _ & Hclk & _).
  rewrite Hg in Hg1.
  rewrite (addActionMc_guard_passed tracks mc mc1 action base off min Hens).
  rewrite Htr, Hguid, String.eqb_refl, Hty.
  rewrite !(filterAtTimeNow_clock mc mc1 _ Hclk), Hmin.
  cbv zeta. unfold _actionGainFade. rewrite Hbpm. run. rewrite Hg1. simpl.
  eexists. split; [reflexivity|]. split; [reflexivity|].
  simpl. rewrite <- app_assoc. reflexivity.
Qed.

(** A GAIN_FADE that was taken on still makes [addActionMc] return
    [undefined]: [_actionGainFade] has no return value. *)
Lemma gainFade_returns_undefined (mc : MixerChannel.t)
      (action : TrackAction.t) (base off min : option Q) :
  schedulable tracks mc ->
  TrackAction.getActionType action = TrackAction.GAIN_FADE ->
  Track.guid (tracks (track mc)) = TrackAction.getActionTrackGuid action ->
  Qlt_bool (_filterAtTimeNow mc (TrackAction.getActionTimeMSAbs action))
           (orZero isBadNumber min) = false ->
  isPositive (Track.bpm (tracks (track mc))) = true ->
  fst (addAction action base off min mc) = Normal None.
Proof.
  intros Hsch Hty Hguid Hmin Hbpm.
  destruct (ensure_schedulable tracks mc Hsch)
    as (mc1 & Hens & Htr & Hg1 & _ & Hclk & _).
  destruct Hsch as [Hg _].
  destruct (gainNode mc) as [g|] eqn:Eg; [|contradiction].
  rewrite (addActionMc_guard_passed tracks mc mc1 action base off min Hens).
  rewrite Htr, Hguid, String.eqb_refl, Hty.
  rewrite !(filterAtTimeNow_clock mc mc1 _ Hclk), Hmin.
  cbv zeta. unfold _actionGainFade. rewrite Hbpm. run. rewrite Hg1. reflexivity.
Qed.

(** Once the running result is no longer true, the loop of [addActions]
    submits nothing more. *)
Lemma addActionsFrom_stopped (v : option bool) (l : list TrackAction.t)
      (base off min : option Q) (mc : MixerChannel.t) :
  truthy v = false ->
  addActionsFrom isBadNumber INVALID_TIME_VAL INVALID_VAL tracks v l base off min mc
  = (Normal v, mc).
Proof.
  intros Hv. revert mc. induction l as [|a l IH]; intros mc; simpl.
  - reflexivity.
  - rewrite Hv. unfold bind at 1. unfold ret at 1. apply IH.
Qed.

Lemma addActions_cons (a : TrackAction.t) (l : list TrackAction.t)
      (base off min : option Q) (mc : MixerChannel.t) :
  addActions isBadNumber INVALID_TIME_VAL INVALID_VAL tracks (a :: l) base off min mc
  = match addAction a base off min mc with
    | (Normal (Some true), mc1) =>
        addActions isBadNumber INVALID_TIME_VAL INVALID_VAL tracks l base off min mc1
    | (Normal v, mc1) => (Normal v, mc1)
    | (Throw e, mc1) => (Throw e, mc1)
    end.
Proof.
  unfold addActions. simpl. unfold bind at 1.
  destruct (addAction a base off min mc) as [[[[|]|]|e] mc1]; try reflexivity.
  - now apply addActionsFrom_stopped.
  - now apply addActionsFrom_stopped.
Qed.

(** C3, amended.  [addActions] applies [addActionMc] to the elements of
    the list in order up to and including the first one that is not
    accepted, and to none after it: the channel it leaves is the one
    the specification's element-by-element batch leaves on that prefix
    of the list.  It returns true if and only if every action of the
    list, submitted in order, was accepted. *)
Theorem addActions_stops_at_first_rejection (l : list TrackAction.t)
        (base off min : option Q) (mc : MixerChannel.t) :
  snd (addActions isBadNumber INVALID_TIME_VAL INVALID_VAL tracks l base off min mc)
  = snd (addActionsEach isBadNumber INVALID_TIME_VAL INVALID_VAL tracks
           (attempted isBadNumber INVALID_TIME_VAL INVALID_VAL tracks l base off min mc)
           base off min mc)
  /\
  (fst (addActions isBadNumber INVALID_TIME_VAL INVALID_VAL tracks l base off min mc)
   = Normal (Some true)
   <-> allAccepted isBadNumber INVALID_TIME_VAL INVALID_VAL tracks l base off min mc).
Proof.
  revert mc. induction l as [|a l IH]; intros mc.
  - split; [reflexivity|]. simpl. unfold addActions. simpl. tauto.
  - rewrite addActions_cons. simpl.
    destruct (addAction a base off min mc) as [[[[|]|]|e] mc1] eqn:Ea.
    + destruct (IH mc1) as [IHs IHr]. split.
      * rewrite IHs. simpl. unfold bind at 1. rewrite Ea.
        unfold bind.
        now destruct (addActionsEach isBadNumber INVALID_TIME_VAL INVALID_VAL
                        tracks _ base off min mc1) as [[r|e] mc2].
      * rewrite IHr. split.
        -- intros H. exists mc1. now split.
        -- intros (mc2 & [= <-] & H). exact H.
    + split.
      * simpl. unfold bind at 1. rewrite Ea. reflexivity.
      * simpl. split; [discriminate|]. intros (mc2 & [=] & _).
    + split.
      * simpl. unfold bind at 1. rewrite Ea. reflexivity.
      * simpl. split; [discriminate|]. intros (mc2 & [=] & _).
    + split.
      * simpl. unfold bind at 1. rewrite Ea. reflexivity.
      * simpl. split; [discriminate|]. intros (mc2 & [=] & _).
Qed.

(** C9, amended.  [clearActions], in every channel state and for every
    combination of the two flags, empties the replay log.  It clears the
    gain node's pending automation only when [forceGainNodeReset] is
    set, by replacing the gain node with a new one; otherwise the gain
    node stays as it is, pending automation included.  When the call
    completes (as it does whenever no gain reset is forced or the
    channel has a source node), the source node is discarded, and built
    anew if the track has a decoded buffer, exactly when the play state
    read from the clock is STOPPED or STOPPED_AND_PLAY_SCHEDULED or
    [forceSourceNodeReset] is set; otherwise the node stays the one it
    was, with what was scheduled on it. *)
Theorem clearActions_effect (mc : MixerChannel.t) (g : GainNode)
        (forceSourceNodeReset forceGainNodeReset : option bool) :
  gainNode mc = Some g ->
  let r := clearActions isBadNumber INVALID_TIME_VAL INVALID_VAL tracks
                        forceSourceNodeReset forceGainNodeReset mc in
  let resets :=
    stoppedOrScheduled (_playState (snd (_getPlayState mc)))
    || defaultVal forceSourceNodeReset false in
  actionsAddedCollection (snd r) = []
  /\ (defaultVal forceGainNodeReset false = false -> gainNode (snd r) = Some g)
  /\ (defaultVal forceGainNodeReset false = true ->
      gainNode (snd r)
      = Some (setDestination true (fst (createGain (audioContext mc)))))
  /\ (defaultVal forceGainNodeReset false = false \/ sourceNode mc <> None ->
      fst r = Normal tt)
  /\ (fst r = Normal tt ->
      if resets then
        match Track.getAudioBuffer (tracks (track mc)) with
        | Some b =>
            exists sn,
              sourceNode (snd r) = Some sn /\
              (nextNodeId (audioContext mc) <= sourceId sn)%nat /\
              buffer sn = b /\
              started sn = None /\ stopped sn = None /\
              events (playbackRate sn) = []
        | None => sourceNode (snd r) = None
        end
      else
        option_map (fun sn => (sourceId sn, started sn, stopped sn, playbackRate sn))
                   (sourceNode (snd r))
        = option_map (fun sn => (sourceId sn, started sn, stopped sn, playbackRate sn))
                     (sourceNode mc)).
Proof.
  intros Hg r resets. subst r resets.
  unfold clearActions, _sourceNodeRecreate, _sourceNodeRecreateVia,
    _resetPlayAttributes, _createGainNode, _getPlayState, stoppedOrScheduled.
  destruct mc as [ctx tr gn sn pre bent acts ps t1 t2 o1 o2].
  simpl in Hg. subst gn.
  destruct (defaultVal forceSourceNodeReset false),
    (defaultVal forceGainNodeReset false);
    destruct sn as [sn|];
    destruct (Track.getAudioBuffer (tracks tr)) as [b|] eqn:Eb;
    destruct ps; unfold currentTimeMS; run; rewrite ?Eb; simpl;
    repeat match goal with
           | |- context [Qle_bool ?a ?b] =>
               destruct (Qle_bool a b); simpl; rewrite ?Eb; simpl
           end;
    repeat (split; [first [reflexivity | discriminate
                          | intros [?|?]; congruence | intros; congruence]|]);
    intros Hok; try discriminate Hok;
    try reflexivity;
    try (eexists; repeat split; simpl; try reflexivity; lia).
Qed.

End Env.

(** ** The channel properties on the sample channels *)

Lemma getPlayState_stop_never_detected_witness :
  _playState stopScheduledChannel = PLAYING_AND_STOP_SCHEDULED /\
  Qle_bool (stopScheduledTimeMS stopScheduledChannel)
           (currentTimeMS stopScheduledChannel) = true /\
  _getPlayState stopScheduledChannel
  = (Normal PLAYING_AND_STOP_SCHEDULED, stopScheduledChannel).
Proof.
  split; [reflexivity|]. split; [reflexivity|].
  exact (getPlayState_stop_never_detected stopScheduledChannel eq_refl).
Defined.

Lemma addAction_requires_loaded_track_witness :
  sourceNode unloadedChannel = None /\
  _playState unloadedChannel = STOPPED /\
  Track.getAudioBuffer (sampleHeap (track unloadedChannel)) = None /\
  Track.getAudioBuffer (heapAfterLoad (track unloadedChannel)) = Some [7%Z] /\
  submit (playAt (guidOf 7) 3000) unloadedChannel
  = (Throw TrackNotLoaded, unloadedChannel) /\
  fst (addActionMc anyNumber invalid invalid heapAfterLoad
                   (playAt (guidOf 7) 3000) None None None unloadedChannel)
  = Normal (Some true) /\
  _playState (snd (addActionMc anyNumber invalid invalid heapAfterLoad
                               (playAt (guidOf 7) 3000) None None None
                               unloadedChannel))
  = STOPPED_AND_PLAY_SCHEDULED.
Proof.
  destruct (addAction_requires_loaded_track
              anyNumber invalid invalid sampleHeap unloadedChannel
              eq_refl eq_refl) as (Hthrow & Hafter).
  destruct (Hafter (mkGain 0 (mkParam 1 []) true) heapAfterLoad [7%Z]
                   (playAt (guidOf 7) 3000) None None None
                   eq_refl eq_refl eq_refl eq_refl eq_refl eq_refl eq_refl)
    as (Hok & Hstate).
  do 4 (split; [reflexivity|]).
  split; [apply Hthrow|]. split; [exact Hok | exact Hstate].
Defined.

(** C5 as stated fails on a channel that holds a source node from the time
    its track was loaded: with the track's buffer released since, the
    guard of [addActionMc] finds the node and does not read the buffer, so
    a PLAY is accepted instead of TrackNotLoaded being thrown. *)
Lemma addAction_requires_loaded_track_counterexample :
  Track.getAudioBuffer (releasedHeap (track loadedChannel)) = None
  /\ Track.guid (releasedHeap (track loadedChannel)) = guidOf 0
  /\ option_map sourceId (sourceNode loadedChannel) = Some 1%nat
  /\ fst (addActionMc anyNumber invalid invalid releasedHeap
                      (playAt (guidOf 0) 3000) None None None loadedChannel)
     = Normal (Some true)
  /\ _playState (snd (addActionMc anyNumber invalid invalid releasedHeap
                                  (playAt (guidOf 0) 3000) None None None
                                  loadedChannel))
     = STOPPED_AND_PLAY_SCHEDULED.
Proof.
  repeat split; reflexivity.
Qed.

(** C7 as stated fails twice over.  On the loaded channel, at clock 2 s,
    a PLAY for the hosted track at 5000 ms with set offset 1000 and
    minimum 4500 has effective time 4000, earlier than the minimum, and
    is accepted.  On the channel whose track has no buffer, an action for
    another track makes [addActionMc] throw instead of returning
    false. *)
Lemma addAction_rejects_counterexample :
  Track.guid (sampleHeap (track loadedChannel))
  = TrackAction.getActionTrackGuid (playAt (guidOf 0) 5000)
  /\ _filterAtTimeNow loadedChannel 5000 + 0 - 1000 < 4500
  /\ fst (addActionMc anyNumber invalid invalid sampleHeap
                      (playAt (guidOf 0) 5000) None (Some 1000) (Some 4500)
                      loadedChannel)
     = Normal (Some true)
  /\ Track.guid (sampleHeap (track unloadedChannel))
     <> TrackAction.getActionTrackGuid (playAt (guidOf 0) 5000)
  /\ fst (submit (playAt (guidOf 0) 5000) unloadedChannel) = Throw TrackNotLoaded.
Proof.
  split; [reflexivity|]. split; [reflexivity|]. split; [reflexivity|].
  split; [|reflexivity].
  intros H. vm_compute in H. discriminate H.
Qed.

Lemma addAction_rejects_witness :
  schedulable sampleHeap loadedChannel /\
  fst (submit (playAt (guidOf 1) 3000) loadedChannel) = Normal (Some false) /\
  _filterAtTimeNow loadedChannel 1000 + 0 - 0 < 2000 /\
  fst (addActionMc anyNumber invalid invalid sampleHeap
                   (playAt (guidOf 0) 1000) None None (Some 2000) loadedChannel)
  = Normal (Some false).
Proof.
  assert (schedulable sampleHeap loadedChannel) as Hsch
      by (apply schedulableb_sound; reflexivity).
  assert (Track.guid (sampleHeap (track loadedChannel))
          <> TrackAction.getActionTrackGuid (playAt (guidOf 1) 3000)) as Hne
      by (intros H; vm_compute in H; discriminate H).
  assert (_filterAtTimeNow loadedChannel 1000 + 0 - 0 < 2000) as Hlt
      by reflexivity.
  split; [exact Hsch|]. split; [|split; [exact Hlt|]].
  - exact (proj1 (addAction_rejects anyNumber invalid invalid sampleHeap
                    loadedChannel (playAt (guidOf 1) 3000) None None None Hsch)
                 Hne).
  - exact (proj2 (addAction_rejects anyNumber invalid invalid sampleHeap
                    loadedChannel (playAt (guidOf 0) 1000) None None (Some 2000)
                    Hsch)
                 eq_refl (Qeq_refl 0) (Qeq_refl 0) Hlt).
Defined.

Lemma gainFade_schedules_two_ramps_witness :
  schedulable sampleHeap loadedChannel /\
  isPositive (Track.bpm (sampleHeap (track loadedChannel))) = true /\
  exists g',
    gainNode (snd (submit (fadeAt (guidOf 0) 3000 0 8) loadedChannel)) = Some g' /\
    gainId g' = 0%nat /\
    events (gain g')
    = [] ++ [LinearRampToValueAtTime (1 - 0) ((3000 + 0 - 0) / 1000);
             LinearRampToValueAtTime 0 ((3000 + 0 - 0) / 1000 + fadeTimeSec 8 120)].
Proof.
  assert (schedulable sampleHeap loadedChannel) as Hsch
      by (apply schedulableb_sound; reflexivity).
  split; [exact Hsch|]. split; [reflexivity|].
  exact (proj1 (gainFade_schedules_two_ramps
                  anyNumber invalid invalid sampleHeap loadedChannel
                  (mkGain 0 (mkParam 1 []) true)
                  (fadeAt (guidOf 0) 3000 0 8) None None None
                  Hsch eq_refl eq_refl eq_refl eq_refl eq_refl)).
Defined.

(** C3 as stated fails on a batch whose first action is for another track
    and whose second is a valid PLAY: [addActions] never submits the
    second, so the channel stays STOPPED, where applying [addAction] to
    each element leaves it STOPPED_AND_PLAY_SCHEDULED. *)
Lemma addActions_each_counterexample :
  fst (submit (playAt (guidOf 0) 3000) loadedChannel) = Normal (Some true)
  /\ _playState
       (snd (addActionsEach anyNumber invalid invalid sampleHeap
               [playAt (guidOf 1) 3000; playAt (guidOf 0) 3000]
               None None None loadedChannel))
     = STOPPED_AND_PLAY_SCHEDULED
  /\ _playState
       (snd (addActions anyNumber invalid invalid sampleHeap
               [playAt (guidOf 1) 3000; playAt (guidOf 0) 3000]
               None None None loadedChannel))
     = STOPPED
  /\ attempted anyNumber invalid invalid sampleHeap
               [playAt (guidOf 1) 3000; playAt (guidOf 0) 3000]
               None None None loadedChannel
     = [playAt (guidOf 1) 3000].
Proof.
  repeat split; reflexivity.
Qed.

(** C9 as stated fails on a channel with a fade pending on its gain node:
    [clearActions] with neither flag set completes and leaves the gain
    node, and the two ramps scheduled on it, in place. *)
Lemma clearActions_gain_counterexample :
  option_map (fun g => List.length (events (gain g))) (gainNode fadedChannel)
  = Some 2%nat
  /\ fst (clearActions anyNumber invalid invalid sampleHeap None None fadedChannel)
     = Normal tt
  /\ gainNode (snd (clearActions anyNumber invalid invalid sampleHeap
                                 None None fadedChannel))
     = gainNode fadedChannel.
Proof.
  repeat split; reflexivity.
Qed.

Lemma clearActions_effect_witness :
  gainNode fadedChannel
  = Some (linearRampToValueAtTime 0 (3000 / 1000 + fadeTimeSec 8 120)
            (linearRampToValueAtTime (1 - 0) (3000 / 1000)
               (mkGain 0 (mkParam 1 []) true)))
  /\ actionsAddedCollection
       (snd (clearActions anyNumber invalid invalid sampleHeap
                          None (Some true) fadedChannel)) = []
  /\ gainNode (snd (clearActions anyNumber invalid invalid sampleHeap
                                 None (Some true) fadedChannel))
     = Some (setDestination true (fst (createGain (audioContext fadedChannel))))
  /\ fst (clearActions anyNumber invalid invalid sampleHeap
                       None (Some true) fadedChannel) = Normal tt.
Proof.
  assert (gainNode fadedChannel
          = Some (linearRampToValueAtTime 0 (3000 / 1000 + fadeTimeSec 8 120)
                    (linearRampToValueAtTime (1 - 0) (3000 / 1000)
                       (mkGain 0 (mkParam 1 []) true)))) as Hg.
  { reflexivity. }
  destruct (clearActions_effect anyNumber invalid invalid sampleHeap fadedChannel _
                                None (Some true) Hg) as (Hlog & _ & Hgain & Hok & _).
  split; [exact Hg|]. split; [exact Hlog|]. split; [exact (Hgain eq_refl)|].
  apply Hok. right. discriminate.
Defined.

End MixerChannelSpec.

(** * The quoted fade duration and the stop offset in doubles *)

Module Binary64Facts.

(** Eight beats at 120 bpm: the division rounds, and the product is 4.0
    exactly. *)
Remark fade_8_beats_at_120_bpm :
  Binary64.fadeTimeSec Binary64.d8 Binary64.d120 = Binary64.d4.
Proof. vm_compute. reflexivity. Qed.

(** A track started at offset 0 at 3000 ms and stopped at 5000 ms: when
    the STOP is submitted at 4000.1 ms the offset recorded is
    2000.0000000000005, one unit in the last place above 2000; submitted
    at 3000 ms it is 2000. *)
Remark stop_offset_keeps_clock_reading :
  Binary64.stopOffsetMS Binary64.d0 Binary64.d3000 Binary64.d4000_1 Binary64.d5000
  = S754_finite false (125 * 2 ^ 46 + 2) (-42)
  /\ Binary64.stopOffsetMS Binary64.d0 Binary64.d3000 Binary64.d3000 Binary64.d5000
     = Binary64.d2000.
Proof. vm_compute. split; reflexivity. Qed.

End Binary64Facts.

(** * Further properties of the track cache *)

Module TrackCacheMore.

Import Track TrackCache TrackCacheFacts TrackCacheSpec Examples.
Import AudioBufferManagerSpec.

Lemma lookup_app (g : string) (c c' : Cache) :
  lookup g (c ++ c')
  = match lookup g c with
    | Some r => Some r
    | None => lookup g c'
    end.
Proof.
  induction c as [|[g0 r0] c IH]; simpl; [reflexivity|].
  now destruct (String.eqb g0 g).
Qed.

Lemma evictFirst_cons (pins : list string) (h : Heap) (g : string) (r : Ref)
      (c : Cache) :
  evictFirst pins h ((g, r) :: c)
  = if evictable pins h (g, r)
    then Some (update h r (setStatusNotLoaded true (h r)))
    else evictFirst pins h c.
Proof. reflexivity. Qed.

(** The eviction loop stops at the first entry that passes its test. *)
Lemma evictFirst_first (pins : list string) (h h' : Heap) (c : Cache) :
  evictFirst pins h c = Some h' ->
  exists c1 g r c2,
    c = c1 ++ (g, r) :: c2 /\
    forallb (fun e => negb (evictable pins h e)) c1 = true /\
    evictable pins h (g, r) = true /\
    h' = update h r (setStatusNotLoaded true (h r)).
Proof.
  induction c as [|[g r] c IH]; [discriminate|].
  rewrite evictFirst_cons.
  destruct (evictable pins h (g, r)) eqn:E.
  - intros [= <-]. exists [], g, r, c. simpl. auto.
  - intros H. destruct (IH H) as (c1 & g' & r' & c2 & -> & Hall & He & ->).
    exists ((g, r) :: c1), g', r', c2. simpl. rewrite E. simpl. auto.
Qed.

Lemma evictFirst_None (pins : list string) (h : Heap) (c : Cache) :
  evictFirst pins h c = None <->
  forallb (fun e => negb (evictable pins h e)) c = true.
Proof.
  induction c as [|[g r] c IH]; [simpl; tauto|].
  rewrite evictFirst_cons. simpl forallb.
  destruct (evictable pins h (g, r)); simpl; [|exact IH].
  split; discriminate.
Qed.

(** X1. After a call of [addTrackAsLoading] that returns, for a track
    whose guid is a track guid, the guid is a key of the cache, and the
    object filed under it is the one that was there before the call if
    there was one (it is not overwritten, also when the passed track is
    another object) and the passed track otherwise; a new key is added
    after the keys there are, and no other key is touched. *)
Theorem addTrackAsLoading_keeps_cached_object (s s' : State) (track : Ref)
        (pins : list string) :
  isTrackGuid (guid (heap s track)) = true ->
  addTrackAsLoading track pins s = (Normal true, s') ->
  contains (guid (heap s track)) (_cache s') = true
  /\ getTrack (guid (heap s track)) s'
     = Some (match getTrack (guid (heap s track)) s with
             | Some cached => cached
             | None => track
             end)
  /\ _cache s'
     = (if contains (guid (heap s track)) (_cache s)
        then _cache s
        else _cache s ++ [(guid (heap s track), track)])
  /\ (forall g, g <> guid (heap s track) -> getTrack g s' = getTrack g s).
Proof.
  intros _. unfold addTrackAsLoading.
  pose proof (checkAndMakeSpace_effect (guid (heap s track)) pins s) as [Hc _].
  destruct (_checkAndMakeSpace (guid (heap s track)) pins s) as [[|] s1];
    simpl in *; [|discriminate].
  intros [= <-]. rewrite !getTrack_lookup. simpl. rewrite Hc.
  unfold contains.
  destruct (lookup (guid (heap s track)) (_cache s)) as [c|] eqn:El; simpl.
  - rewrite El. repeat split; auto.
  - rewrite !lookup_app, El. simpl. rewrite String.eqb_refl.
    repeat split; auto.
    intros g Hg. rewrite !getTrack_lookup. simpl. rewrite lookup_app.
    destruct (lookup g (_cache s)); [reflexivity|]. simpl.
    apply String.eqb_neq in Hg. rewrite String.eqb_sym. now rewrite Hg.
Qed.

Lemma addTrackAsLoading_keeps_cached_object_witness :
  isTrackGuid (guid (heap fullCache 7)) = true /\
  isTrackGuid (guid (heap aliasedCache 9)) = true /\
  fst (addTrackAsLoading 7 demoPins fullCache) = Normal true /\
  getTrack (guid (heap fullCache 7))
           (snd (addTrackAsLoading 7 demoPins fullCache)) = Some 7 /\
  fst (addTrackAsLoading 9 demoPins aliasedCache) = Normal true /\
  getTrack (guid (heap aliasedCache 9))
           (snd (addTrackAsLoading 9 demoPins aliasedCache)) = Some 3.
Proof.
  split; [reflexivity|]. split; [reflexivity|].
  split; [reflexivity|]. split.
  - destruct (addTrackAsLoading 7 demoPins fullCache) as [r s'] eqn:E.
    assert (r = Normal true) as -> by (now vm_compute in E; injection E as <- _).
    exact (proj1 (proj2 (addTrackAsLoading_keeps_cached_object
                           fullCache s' 7 demoPins eq_refl E))).
  - split; [reflexivity|].
    destruct (addTrackAsLoading 9 demoPins aliasedCache) as [r s'] eqn:E.
    assert (r = Normal true) as -> by (now vm_compute in E; injection E as <- _).
    exact (proj1 (proj2 (addTrackAsLoading_keeps_cached_object
                           aliasedCache s' 9 demoPins eq_refl E))).
Defined.

(** X2. For a track whose guid is a track guid, [addTrackAsLoading]
    throws exactly when the cache is full (at least MAX_TRACKS entries are
    loaded or loading), the object cached under the track's guid, if any,
    is neither loaded nor loading, and no cached entry is both loaded and
    unbound.  When it throws, nothing has been changed, the passed
    track's status included, and the exception is the out-of-memory one
    and carries the current number of loaded or loading entries. *)
Theorem addTrackAsLoading_throws_iff (s : State) (track : Ref) (pins : list string) :
  isTrackGuid (guid (heap s track)) = true ->
  ((exists e, fst (addTrackAsLoading track pins s) = Throw e)
   <->
   (MAX_TRACKS <= List.length (occupied s)
    /\ match getTrack (guid (heap s track)) s with
       | Some cached => loadedOrLoading (heap s cached) = false
       | None => True
       end
    /\ forallb (fun e => negb (evictable pins (heap s) e)) (_cache s) = true))
  /\
  (forall e,
      fst (addTrackAsLoading track pins s) = Throw e ->
      snd (addTrackAsLoading track pins s) = s
      /\ e = TrackCacheOutOfMemory (List.length (occupied s))).
Proof.
  intros _. rewrite getTrack_lookup, <- count_is_occupied.
  unfold addTrackAsLoading, _checkAndMakeSpace.
  destruct (Nat.leb_spec MAX_TRACKS (_getNumTracksLoadedOrLoading s)) as [Hfull|Hroom].
  - destruct (lookup (guid (heap s track)) (_cache s)) as [c|] eqn:El.
    + destruct (loadedOrLoading (heap s c)) eqn:Hlol; simpl.
      * split; [|discriminate]. split.
        -- intros [e He]. discriminate He.
        -- intros (_ & H & _). discriminate H.
      * destruct (evictFirst pins (heap s) (_cache s)) as [h'|] eqn:He; simpl.
        -- split; [|discriminate]. split.
           ++ intros [e H]. discriminate H.
           ++ intros (_ & _ & H). apply evictFirst_None in H. congruence.
        -- split.
           ++ split; [|eexists; reflexivity].
              intros _. repeat split; auto. now apply evictFirst_None.
           ++ intros e [= <-]. split; reflexivity.
    + destruct (evictFirst pins (heap s) (_cache s)) as [h'|] eqn:He; simpl.
      * split; [|discriminate]. split.
        -- intros [e H]. discriminate H.
        -- intros (_ & _ & H). apply evictFirst_None in H. congruence.
      * split.
        -- split; [|eexists; reflexivity].
           intros _. repeat split; auto. now apply evictFirst_None.
        -- intros e [= <-]. split; reflexivity.
  - simpl. split; [|discriminate]. split.
    + intros [e H]. discriminate H.
    + intros (H & _). lia.
Qed.

Lemma addTrackAsLoading_throws_iff_witness :
  isTrackGuid (guid (heap fullCache 7)) = true
  /\ fst (addTrackAsLoading 7 allPins fullCache) = Throw (TrackCacheOutOfMemory 6)
  /\ snd (addTrackAsLoading 7 allPins fullCache) = fullCache.
Proof.
  assert (fst (addTrackAsLoading 7 allPins fullCache)
          = Throw (TrackCacheOutOfMemory 6)) as H by reflexivity.
  split; [reflexivity|]. split; [exact H|].
  exact (proj1 (proj2 (addTrackAsLoading_throws_iff fullCache 7 allPins eq_refl)
                      _ H)).
Defined.

(** X3. In a cache all of whose keys are track guids, the track that
    [addTrackAsLoading], called for a track whose guid is a track guid,
    unloads to make room is the first one, in the cache's iteration
    order, that is loaded and not bound to a channel: every entry before
    it fails that test. *)
Theorem eviction_takes_first_candidate (s : State) (track r : Ref)
        (pins : list string) :
  forallb isTrackGuid (keys (_cache s)) = true ->
  isTrackGuid (guid (heap s track)) = true ->
  r <> track ->
  heap (snd (addTrackAsLoading track pins s)) r <> heap s r ->
  exists c1 g c2,
    _cache s = c1 ++ (g, r) :: c2 /\
    forallb (fun e => negb (evictable pins (heap s) e)) c1 = true /\
    evictable pins (heap s) (g, r) = true /\
    heap (snd (addTrackAsLoading track pins s)) r
    = setStatusNotLoaded true (heap s r).
Proof.
  intros _ _ Hne Hchg.
  unfold addTrackAsLoading, _checkAndMakeSpace in *.
  destruct (MAX_TRACKS <=? _getNumTracksLoadedOrLoading s);
    [|simpl in *; rewrite update_other in Hchg by assumption; contradiction].
  destruct (match lookup (guid (heap s track)) (_cache s) with
            | Some r0 => loadedOrLoading (heap s r0)
            | None => false
            end);
    [simpl in *; rewrite update_other in Hchg by assumption; contradiction|].
  destruct (evictFirst pins (heap s) (_cache s)) as [h'|] eqn:He;
    [|simpl in *; contradiction].
  simpl in *. rewrite update_other in * by assumption.
  apply evictFirst_first in He as (c1 & g & v & c2 & Hc & Hall & Hev & ->).
  destruct (Nat.eq_dec r v) as [->|Hrv];
    [|rewrite update_other in Hchg by assumption; contradiction].
  exists c1, g, c2. rewrite update_same. auto.
Qed.

Lemma eviction_takes_first_candidate_witness :
  forallb isTrackGuid (keys (_cache fullCache)) = true /\
  isTrackGuid (guid (heap fullCache 7)) = true /\
  heap (snd (addTrackAsLoading 7 demoPins fullCache)) 2 <> heap fullCache 2 /\
  exists c1 g c2,
    _cache fullCache = c1 ++ (g, 2) :: c2 /\
    forallb (fun e => negb (evictable demoPins (heap fullCache) e)) c1 = true /\
    evictable demoPins (heap fullCache) (g, 2) = true /\
    heap (snd (addTrackAsLoading 7 demoPins fullCache)) 2
    = setStatusNotLoaded true (heap fullCache 2).
Proof.
  assert (heap (snd (addTrackAsLoading 7 demoPins fullCache)) 2
          <> heap fullCache 2) as Hchg by (vm_compute; discriminate).
  split; [reflexivity|]. split; [reflexivity|]. split; [exact Hchg|].
  apply (eviction_takes_first_candidate fullCache 7 2 demoPins eq_refl eq_refl);
    [|exact Hchg].
  discriminate.
Defined.

Lemma lookup_deleteKey_same (g : string) (c : Cache) :
  NoDup (keys c) -> lookup g (deleteKey g c) = None.
Proof.
  induction c as [|[g0 r0] c IH]; simpl; [reflexivity|].
  intros Hnd. inversion Hnd as [|? ? Hnotin Hnd']; subst.
  destruct (String.eqb_spec g0 g) as [->|Hne].
  - destruct (lookup g c) as [r|] eqn:E; [|reflexivity].
    exfalso. apply Hnotin. eapply In_keys, lookup_In, E.
  - simpl. destruct (String.eqb_spec g0 g); [contradiction|]. now apply IH.
Qed.

Lemma lookup_deleteKey_other (g g' : string) (c : Cache) :
  g' <> g -> lookup g' (deleteKey g c) = lookup g' c.
Proof.
  intros Hne. induction c as [|[g0 r0] c IH]; simpl; [reflexivity|].
  destruct (String.eqb_spec g0 g) as [->|Hg].
  - destruct (String.eqb_spec g g'); [congruence | reflexivity].
  - simpl. now rewrite IH.
Qed.

Lemma In_deleteKey (g : string) (c : Cache) (e : string * Ref) :
  In e (deleteKey g c) -> In e c.
Proof.
  induction c as [|[g0 r0] c IH]; simpl; [tauto|].
  destruct (String.eqb g0 g); simpl; [tauto|]. intros [H|H]; auto.
Qed.

Lemma NoDup_deleteKey (g : string) (c : Cache) :
  NoDup (keys c) -> NoDup (keys (deleteKey g c)).
Proof.
  induction c as [|[g0 r0] c IH]; simpl; [trivial|].
  intros Hnd. inversion Hnd as [|? ? Hnotin Hnd']; subst.
  destruct (String.eqb g0 g); [exact Hnd'|]. simpl. constructor; [|auto].
  intros Hin. apply Hnotin. unfold keys in *.
  apply in_map_iff in Hin as [e [He Hin]]. apply in_map_iff.
  exists e. split; [exact He | eapply In_deleteKey; eauto].
Qed.

Lemma count_deleteKey (g : string) (h : Heap) (c : Cache) :
  countLoadedOrLoading h (deleteKey g c) <= countLoadedOrLoading h c.
Proof.
  induction c as [|[g0 r0] c IH]; simpl; [lia|].
  destruct (String.eqb g0 g); simpl; lia.
Qed.

(** X4. For a track guid, [_destroy] answers whether the guid was a key;
    afterwards the guid is no key any more, every other key still leads
    to its track, the cache is still well formed, no track object has
    been touched (an entry that was loading keeps the status LOADING),
    and the number of loaded or loading entries has not grown. *)
Theorem destroy_removes_only_its_key (g : string) (s : State) :
  isTrackGuid g = true ->
  wf s ->
  fst (_destroy g s) = contains g (_cache s)
  /\ contains g (_cache (snd (_destroy g s))) = false
  /\ getTrack g (snd (_destroy g s)) = None
  /\ (forall g', g' <> g -> getTrack g' (snd (_destroy g s)) = getTrack g' s)
  /\ heap (snd (_destroy g s)) = heap s
  /\ wf (snd (_destroy g s))
  /\ List.length (occupied (snd (_destroy g s))) <= List.length (occupied s).
Proof.
  intros _ Hwf. rewrite <- !count_is_occupied.
  unfold _destroy, _getNumTracksLoadedOrLoading.
  destruct Hwf as [Hnd Hg].
  destruct (contains g (_cache s)) eqn:Hc; simpl.
  - rewrite !getTrack_lookup. unfold contains. simpl.
    rewrite lookup_deleteKey_same by assumption.
    repeat split; auto.
    + intros g' Hne. rewrite !getTrack_lookup. simpl.
      now apply lookup_deleteKey_other.
    + now apply NoDup_deleteKey.
    + intros g0 r Hin. apply Hg. eapply In_deleteKey; eauto.
    + apply count_deleteKey.
  - rewrite getTrack_lookup. unfold contains in Hc.
    destruct (lookup g (_cache s)) eqn:El; [discriminate|].
    unfold contains. rewrite El. repeat split; auto.
Qed.

Lemma destroy_removes_only_its_key_witness :
  isTrackGuid (guidOf 3) = true /\
  wf fullCache /\
  fst (_destroy (guidOf 3) fullCache) = true /\
  getTrack (guidOf 3) (snd (_destroy (guidOf 3) fullCache)) = None /\
  List.length (occupied (snd (_destroy (guidOf 3) fullCache)))
  <= List.length (occupied fullCache).
Proof.
  assert (wf fullCache) as Hwf by (apply wfb_sound; reflexivity).
  destruct (destroy_removes_only_its_key (guidOf 3) fullCache eq_refl Hwf)
    as (Hr & _ & Hget & _ & _ & _ & Hcount).
  split; [reflexivity|].
  split; [exact Hwf|]. split; [|split; [exact Hget | exact Hcount]].
  rewrite Hr. reflexivity.
Defined.

Lemma deleteKey_app_new (g : string) (r : Ref) (c : Cache) :
  lookup g c = None -> deleteKey g (c ++ [(g, r)]) = c.
Proof.
  induction c as [|[g0 r0] c IH]; simpl.
  - now rewrite String.eqb_refl.
  - destruct (String.eqb g0 g); [discriminate|]. intros H. now rewrite IH.
Qed.

(** X5. Filing a track under a guid that was no key and destroying that
    guid again gives back the cache's keys and entries as they were, in
    the same order; what the call did to track objects stays: the passed
    track is still LOADING. *)
Theorem add_then_destroy (s s1 : State) (track : Ref) (pins : list string) :
  contains (guid (heap s track)) (_cache s) = false ->
  addTrackAsLoading track pins s = (Normal true, s1) ->
  _destroy (guid (heap s track)) s1 = (true, mkState (heap s1) (_cache s))
  /\ loadStatus (heap s1 track) = LOADING.
Proof.
  intros Hc. unfold addTrackAsLoading.
  pose proof (checkAndMakeSpace_effect (guid (heap s track)) pins s) as [Hcache _].
  destruct (_checkAndMakeSpace (guid (heap s track)) pins s) as [[|] s0];
    simpl in *; [|discriminate].
  intros [= <-]. rewrite Hcache, Hc. simpl. split.
  - unfold _destroy, contains in *. simpl. rewrite lookup_app.
    destruct (lookup (guid (heap s track)) (_cache s)) eqn:El; [discriminate|].
    simpl. rewrite String.eqb_refl. now rewrite deleteKey_app_new.
  - now rewrite update_same.
Qed.

Lemma add_then_destroy_witness :
  contains (guid (heap fullCache 7)) (_cache fullCache) = false /\
  fst (addTrackAsLoading 7 demoPins fullCache) = Normal true /\
  _cache (snd (_destroy (guid (heap fullCache 7))
                        (snd (addTrackAsLoading 7 demoPins fullCache))))
  = _cache fullCache.
Proof.
  split; [reflexivity|]. split; [reflexivity|].
  destruct (addTrackAsLoading 7 demoPins fullCache) as [r s1] eqn:E.
  assert (r = Normal true) as -> by (now vm_compute in E; injection E as <- _).
  cbn [snd].
  now rewrite (proj1 (add_then_destroy fullCache s1 7 demoPins eq_refl E)).
Defined.



End TrackCacheMore.

(** * Further properties of the audio buffer manager *)

Module AudioBufferManagerMore.

Import Track TrackCache TrackCacheFacts TrackCacheSpec AudioBufferManager.
Import AudioBufferManagerSpec TrackCacheMore Examples.

Lemma status_exclusive (x : Track.t) :
  isStatusLoading x = true -> isStatusLoadSuccess x = false.
Proof.
  unfold isStatusLoading, isStatusLoadSuccess. now destruct (loadStatus x).
Qed.

(** Making room leaves every track's guid and source key alone, and every
    track that is loading as it is. *)
Lemma checkAndMakeSpace_keeps (g : string) (pins : list string) (s : State)
      (r : Ref) :
  guid (heap (snd (_checkAndMakeSpace g pins s)) r) = guid (heap s r)
  /\ audioSourceKey (heap (snd (_checkAndMakeSpace g pins s)) r)
     = audioSourceKey (heap s r)
  /\ (isStatusLoading (heap s r) = true ->
      heap (snd (_checkAndMakeSpace g pins s)) r = heap s r).
Proof.
  destruct (checkAndMakeSpace_effect g pins s) as [_ [->|(_ & gv & v & _ & Hs & _ & ->)]];
    [auto|].
  destruct (Nat.eq_dec r v) as [->|Hne].
  - rewrite update_same. simpl. repeat split.
    intros Hl. apply status_exclusive in Hl. congruence.
  - rewrite update_other by assumption. auto.
Qed.

(** What a call of [addTrackAsLoading] that returns leaves behind. *)
Lemma addTrackAsLoading_result (s s' : State) (track : Ref) (pins : list string)
      (b : bool) :
  addTrackAsLoading track pins s = (Normal b, s') ->
  _cache s'
  = (if contains (guid (heap s track)) (_cache s)
     then _cache s
     else _cache s ++ [(guid (heap s track), track)])
  /\ loadStatus (heap s' track) = LOADING
  /\ guid (heap s' track) = guid (heap s track)
  /\ audioSourceKey (heap s' track) = audioSourceKey (heap s track).
Proof.
  unfold addTrackAsLoading.
  pose proof (checkAndMakeSpace_effect (guid (heap s track)) pins s) as [Hc _].
  pose proof (checkAndMakeSpace_keeps (guid (heap s track)) pins s track)
    as (Hg & Hk & _).
  destruct (_checkAndMakeSpace (guid (heap s track)) pins s) as [[|] s0];
    simpl in *; [|discriminate].
  intros [= _ <-]. simpl. rewrite Hc, update_same. simpl.
  destruct (contains (guid (heap s track)) (_cache s)); auto.
Qed.

Lemma addTrackAsLoading_keeps_loading (s : State) (track r : Ref)
      (pins : list string) :
  isStatusLoading (heap s r) = true ->
  isStatusLoading (heap (snd (addTrackAsLoading track pins s)) r) = true.
Proof.
  intros Hl. unfold addTrackAsLoading.
  pose proof (checkAndMakeSpace_keeps (guid (heap s track)) pins s r)
    as (_ & _ & Hkeep).
  pose proof (checkAndMakeSpace_effect (guid (heap s track)) pins s) as [_ Heff].
  destruct (_checkAndMakeSpace (guid (heap s track)) pins s) as [[|] s0];
    simpl in *.
  - destruct (Nat.eq_dec r track) as [->|Hne].
    + now rewrite update_same.
    + rewrite update_other by assumption. now rewrite (Hkeep Hl).
  - now rewrite (Hkeep Hl).
Qed.

(** The three ways the executor of [pLoadSingleTrack] can go. *)
Lemma pLoadSingleTrack_cases (bucket : string) (track : Ref)
      (pins : list string) (s : State) :
  pLoadSingleTrack bucket track pins s
  = let attempt :=
      match addTrackAsLoading track pins s with
      | (Throw e, s1) => (Some (Rejected (ExceptionMessage e)), [], s1)
      | (Normal _, s1) =>
          (None, [S3GetObject bucket (audioSourceKey (heap s1 track))], s1)
      end in
    match getTrack (guid (heap s track)) s with
    | Some c =>
        if isStatusLoading (heap s c)
        then (Some (Rejected (AlreadyLoading (guid (heap s track)))), [], s)
        else if isStatusLoadSuccess (heap s c)
             then (Some (Resolved track), [], s)
             else attempt
    | None => attempt
    end.
Proof.
  unfold pLoadSingleTrack.
  destruct (getTrack (guid (heap s track)) s) as [c|]; simpl.
  - destruct (isStatusLoading (heap s c)) eqn:El.
    + now rewrite (status_exclusive _ El).
    + destruct (isStatusLoadSuccess (heap s c)); simpl; [reflexivity|].
      now destruct (addTrackAsLoading track pins s) as [[b|e] s1].
  - now destruct (addTrackAsLoading track pins s) as [[b|e] s1].
Qed.

Lemma shouldTryLoad_cases (g : string) (s : State) :
  shouldTryLoad g s
  = match getTrack g s with
    | Some c =>
        if isStatusLoading (heap s c) then false
        else if isStatusLoadSuccess (heap s c) then false else true
    | None => true
    end.
Proof.
  unfold shouldTryLoad. rewrite getTrack_lookup. unfold contains.
  destruct (lookup g (_cache s)) as [c|]; [|reflexivity].
  now destruct (isStatusLoading (heap s c)), (isStatusLoadSuccess (heap s c)).
Qed.

(** X7. [shouldTryLoad] answers what the executor of [pLoadSingleTrack]
    will do for a track of that guid.  When it answers false, the
    executor settles the promise on the spot (resolved when the cached
    track is loaded, rejected when it is loading), issues no request and
    changes nothing.  When it answers true, the executor hands the track
    to [addTrackAsLoading]: if that throws, the promise is rejected with
    the exception and no request is issued; otherwise the promise stays
    pending and one fetch is requested, for the track's source key. *)
Theorem shouldTryLoad_agrees_with_executor (bucket : string) (track : Ref)
        (pins : list string) (s : State) :
  (shouldTryLoad (guid (heap s track)) s = false ->
   exists settlement,
     pLoadSingleTrack bucket track pins s = (Some settlement, [], s)
     /\ (settlement = Resolved track
         \/ settlement = Rejected (AlreadyLoading (guid (heap s track)))))
  /\
  (shouldTryLoad (guid (heap s track)) s = true ->
   pLoadSingleTrack bucket track pins s
   = match addTrackAsLoading track pins s with
     | (Throw e, s1) => (Some (Rejected (ExceptionMessage e)), [], s1)
     | (Normal _, s1) =>
         (None, [S3GetObject bucket (audioSourceKey (heap s track))], s1)
     end).
Proof.
  rewrite shouldTryLoad_cases, pLoadSingleTrack_cases. cbv zeta.
  assert (match addTrackAsLoading track pins s with
          | (Throw e, s1) => (Some (Rejected (ExceptionMessage e)), [], s1)
          | (Normal _, s1) =>
              (None, [S3GetObject bucket (audioSourceKey (heap s1 track))], s1)
          end
          = match addTrackAsLoading track pins s with
            | (Throw e, s1) => (Some (Rejected (ExceptionMessage e)), [], s1)
            | (Normal _, s1) =>
                (None, [S3GetObject bucket (audioSourceKey (heap s track))], s1)
            end) as Hkey.
  { destruct (addTrackAsLoading track pins s) as [[b|e] s1] eqn:E; [|reflexivity].
    now destruct (addTrackAsLoading_result _ _ _ _ _ E) as (_ & _ & _ & ->). }
  destruct (getTrack (guid (heap s track)) s) as [c|].
  - destruct (isStatusLoading (heap s c)).
    + split; [|discriminate]. intros _. eexists. split; [reflexivity|]. now right.
    + destruct (isStatusLoadSuccess (heap s c)).
      * split; [|discriminate]. intros _. eexists. split; [reflexivity|]. now left.
      * split; [discriminate|]. intros _. exact Hkey.
  - split; [discriminate|]. intros _. exact Hkey.
Qed.

(** X8. When the cache is full and every loaded entry is bound to a
    channel, a load of a track that is neither loaded nor loading is
    turned down: the promise is rejected with the out-of-memory
    exception, which carries the number of loaded or loading entries, no
    request is issued, and nothing is changed; the track keeps the status
    it had and is not filed in the cache. *)
Theorem load_rejected_when_cache_full (bucket : string) (track : Ref)
        (pins : list string) (s : State) :
  MAX_TRACKS <= List.length (occupied s) ->
  shouldTryLoad (guid (heap s track)) s = true ->
  forallb (fun e => negb (evictable pins (heap s) e)) (_cache s) = true ->
  pLoadSingleTrack bucket track pins s
  = (Some (Rejected (ExceptionMessage
                       (TrackCacheOutOfMemory (List.length (occupied s))))),
     [], s).
Proof.
  intros Hfull Htry Hpinned.
  rewrite shouldTryLoad_cases in Htry. rewrite pLoadSingleTrack_cases. cbv zeta.
  rewrite <- count_is_occupied in *.
  apply evictFirst_None in Hpinned.
  assert (addTrackAsLoading track pins s
          = (Throw (TrackCacheOutOfMemory (_getNumTracksLoadedOrLoading s)), s))
    as Hthrow.
  { unfold addTrackAsLoading, _checkAndMakeSpace.
    destruct (Nat.leb_spec MAX_TRACKS (_getNumTracksLoadedOrLoading s)); [|lia].
    rewrite Hpinned. rewrite getTrack_lookup in Htry.
    destruct (lookup (guid (heap s track)) (_cache s)) as [c|]; [|reflexivity].
    unfold loadedOrLoading.
    destruct (isStatusLoading (heap s c)); [discriminate|].
    destruct (isStatusLoadSuccess (heap s c)); [discriminate|]. reflexivity. }
  rewrite Hthrow.
  destruct (getTrack (guid (heap s track)) s) as [c|]; [|reflexivity].
  destruct (isStatusLoading (heap s c)); [discriminate|].
  destruct (isStatusLoadSuccess (heap s c)); [discriminate|]. reflexivity.
Qed.

Lemma load_rejected_when_cache_full_witness :
  MAX_TRACKS <= List.length (occupied fullCache) /\
  shouldTryLoad (guid (heap fullCache 7)) fullCache = true /\
  pLoadSingleTrack "bucket" 7 allPins fullCache
  = (Some (Rejected (ExceptionMessage (TrackCacheOutOfMemory 6))), [], fullCache).
Proof.
  assert (MAX_TRACKS <= List.length (occupied fullCache)) as Hfull
      by (vm_compute; lia).
  split; [exact Hfull|]. split; [reflexivity|].
  exact (load_rejected_when_cache_full "bucket" 7 allPins fullCache
           Hfull eq_refl eq_refl).
Defined.

(** X9. While a load of a track is under way (the executor has left the
    promise pending), a second [pLoadSingleTrack] for the same track
    object is rejected as already loading, issues no request and changes
    nothing, whatever is bound to channels by then.  This holds when the
    first call found the guid unfiled or filed under that same object;
    the first call issued exactly one request, the fetch. *)
Theorem second_load_rejected_while_pending (bucket : string) (track : Ref)
        (pins pins' : list string) (s s1 : State) (reqs : list Request) :
  getTrack (guid (heap s track)) s = None
  \/ getTrack (guid (heap s track)) s = Some track ->
  pLoadSingleTrack bucket track pins s = (None, reqs, s1) ->
  reqs = [S3GetObject bucket (audioSourceKey (heap s track))]
  /\ pLoadSingleTrack bucket track pins' s1
     = (Some (Rejected (AlreadyLoading (guid (heap s track)))), [], s1).
Proof.
  intros Hfiled. rewrite pLoadSingleTrack_cases. cbv zeta.
  assert (match addTrackAsLoading track pins s with
          | (Throw e, s2) => (Some (Rejected (ExceptionMessage e)), [], s2)
          | (Normal _, s2) =>
              (None, [S3GetObject bucket (audioSourceKey (heap s2 track))], s2)
          end = (None, reqs, s1) ->
          reqs = [S3GetObject bucket (audioSourceKey (heap s track))]
          /\ pLoadSingleTrack bucket track pins' s1
             = (Some (Rejected (AlreadyLoading (guid (heap s track)))), [], s1))
    as Hattempt.
  { destruct (addTrackAsLoading track pins s) as [[b|e] s2] eqn:E; [|discriminate].
    intros [= <- <-].
    destruct (addTrackAsLoading_result _ _ _ _ _ E) as (Hc & Hst & Hg & Hk).
    split; [now rewrite Hk|].
    rewrite pLoadSingleTrack_cases. cbv zeta. rewrite Hg.
    assert (getTrack (guid (heap s track)) s2 = Some track) as ->.
    { rewrite getTrack_lookup in *. rewrite Hc. unfold contains.
      destruct Hfiled as [Hn|Hsome].
      - rewrite Hn, lookup_app, Hn. simpl. now rewrite String.eqb_refl.
      - now rewrite Hsome. }
    unfold isStatusLoading. now rewrite Hst. }
  destruct (getTrack (guid (heap s track)) s) as [c|]; [|exact Hattempt].
  destruct (isStatusLoading (heap s c)); [discriminate|].
  destruct (isStatusLoadSuccess (heap s c)); [discriminate | exact Hattempt].
Qed.

Lemma second_load_rejected_while_pending_witness :
  getTrack (guid (heap roomyCache 7)) roomyCache = None /\
  fst (pLoadSingleTrack "bucket" 7 demoPins roomyCache)
  = (None, [S3GetObject "bucket" "tracks/sample.mp3"]) /\
  pLoadSingleTrack "bucket" 7 []
                   (snd (pLoadSingleTrack "bucket" 7 demoPins roomyCache))
  = (Some (Rejected (AlreadyLoading (guidOf 7))), [],
     snd (pLoadSingleTrack "bucket" 7 demoPins roomyCache)).
Proof.
  split; [reflexivity|]. split; [reflexivity|].
  destruct (pLoadSingleTrack "bucket" 7 demoPins roomyCache) as [[p reqs] s1] eqn:E.
  assert (p = None) as -> by (now vm_compute in E; injection E as <- _ _).
  exact (proj2 (second_load_rejected_while_pending
                  "bucket" 7 demoPins [] roomyCache s1 reqs
                  (or_introl eq_refl) E)).
Defined.

(** X10. [isTrackLoaded] over the life of a load.  For a guid that is not
    filed in the cache it throws a [TypeError] instead of answering
    false.  Once [pLoadSingleTrack] has taken a track on (its guid was
    unfiled, or filed under that object), it answers false while the load
    is pending and after a failed fetch or a failed decode, and true
    after a successful decode. *)
Theorem isTrackLoaded_over_a_load (bucket : string) (track : Ref)
        (pins : list string) (s s1 : State) (reqs : list Request) :
  getTrack (guid (heap s track)) s = None
  \/ getTrack (guid (heap s track)) s = Some track ->
  pLoadSingleTrack bucket track pins s = (None, reqs, s1) ->
  (forall g, contains g (_cache s) = false -> isTrackLoaded g s = Throw TypeError)
  /\ isTrackLoaded (guid (heap s track)) s1 = Normal false
  /\ (forall err body,
        isTrackLoaded (guid (heap s track))
                      (snd (onGetObject track (Some err) body None s1))
        = Normal false)
  /\ isTrackLoaded (guid (heap s track)) (snd (onDecodeError track None s1))
     = Normal false
  /\ (forall buffer,
        isTrackLoaded (guid (heap s track))
                      (snd (onDecodeSuccess track buffer None s1))
        = Normal true).
Proof.
  intros Hfiled Hload. split.
  - intros g Hc. unfold isTrackLoaded, get. rewrite getTrack_lookup.
    unfold contains in Hc. now destruct (lookup g (_cache s)).
  - assert (getTrack (guid (heap s track)) s1 = Some track
            /\ loadStatus (heap s1 track) = LOADING) as [Hget Hst].
    { revert Hload. rewrite pLoadSingleTrack_cases. cbv zeta.
      assert (match addTrackAsLoading track pins s with
              | (Throw e, s2) => (Some (Rejected (ExceptionMessage e)), [], s2)
              | (Normal _, s2) =>
                  (None, [S3GetObject bucket (audioSourceKey (heap s2 track))], s2)
              end = (None, reqs, s1) ->
              getTrack (guid (heap s track)) s1 = Some track
              /\ loadStatus (heap s1 track) = LOADING) as Hattempt.
      { destruct (addTrackAsLoading track pins s) as [[b|e] s2] eqn:E;
          [|discriminate].
        intros [= <- <-].
        destruct (addTrackAsLoading_result _ _ _ _ _ E) as (Hc & Hst & _).
        split; [|exact Hst].
        rewrite getTrack_lookup in *. rewrite Hc. unfold contains.
        destruct Hfiled as [Hn|Hsome].
        - rewrite Hn, lookup_app, Hn. simpl. now rewrite String.eqb_refl.
        - now rewrite Hsome. }
      destruct (getTrack (guid (heap s track)) s) as [c|]; [|exact Hattempt].
      destruct (isStatusLoading (heap s c)); [discriminate|].
      destruct (isStatusLoadSuccess (heap s c)); [discriminate | exact Hattempt]. }
    unfold isTrackLoaded, get. rewrite getTrack_lookup in Hget.
    repeat split; intros; rewrite getTrack_lookup; simpl; rewrite Hget;
      rewrite ?update_same; unfold isStatusLoadSuccess; simpl;
      rewrite ?Hst; reflexivity.
Qed.

Lemma isTrackLoaded_over_a_load_witness :
  getTrack (guid (heap roomyCache 7)) roomyCache = None /\
  fst (pLoadSingleTrack "bucket" 7 demoPins roomyCache)
  = (None, [S3GetObject "bucket" "tracks/sample.mp3"]) /\
  isTrackLoaded (guidOf 7) roomyCache = Throw TypeError /\
  isTrackLoaded (guidOf 7)
                (snd (pLoadSingleTrack "bucket" 7 demoPins roomyCache))
  = Normal false /\
  isTrackLoaded (guidOf 7)
                (snd (onDecodeSuccess 7 [1%Z] None
                        (snd (pLoadSingleTrack "bucket" 7 demoPins roomyCache))))
  = Normal true.
Proof.
  split; [reflexivity|]. split; [reflexivity|].
  destruct (pLoadSingleTrack "bucket" 7 demoPins roomyCache) as [[p reqs] s1] eqn:E.
  assert (p = None) as -> by (now vm_compute in E; injection E as <- _ _).
  destruct (isTrackLoaded_over_a_load "bucket" 7 demoPins roomyCache s1 reqs
              (or_introl eq_refl) E) as (Hthrow & Hpending & _ & _ & Hok).
  split; [apply Hthrow; reflexivity|]. split; [exact Hpending | apply Hok].
Defined.

(** ** Loading several tracks *)

Lemma pLoadSingleTrack_keeps_loading (bucket : string) (track r : Ref)
      (pins : list string) (s : State) :
  isStatusLoading (heap s r) = true ->
  isStatusLoading (heap (snd (pLoadSingleTrack bucket track pins s)) r) = true.
Proof.
  intros Hl. rewrite pLoadSingleTrack_cases. cbv zeta.
  pose proof (addTrackAsLoading_keeps_loading s track r pins Hl) as Hadd.
  destruct (addTrackAsLoading track pins s) as [[b|e] s1]; simpl in Hadd;
    destruct (getTrack (guid (heap s track)) s) as [c|];
    try destruct (isStatusLoading (heap s c));
    try destruct (isStatusLoadSuccess (heap s c)); simpl; assumption.
Qed.

(** What the executor leaves: a settled promise and no request, or a
    pending promise, one fetch, and the track LOADING. *)
Lemma pLoadSingleTrack_shape (bucket : string) (track : Ref)
      (pins : list string) (s : State) :
  let '(p, reqs, s1) := pLoadSingleTrack bucket track pins s in
  (forall r, p = Some (Resolved r) -> r = track)
  /\ ((p <> None /\ reqs = [])
      \/ (p = None /\ isStatusLoading (heap s1 track) = true
          /\ exists key, reqs = [S3GetObject bucket key])).
Proof.
  rewrite pLoadSingleTrack_cases. cbv zeta.
  assert (let '(p, reqs, s1) :=
            match addTrackAsLoading track pins s with
            | (Throw e, s1) => (Some (Rejected (ExceptionMessage e)), [], s1)
            | (Normal _, s1) =>
                (None, [S3GetObject bucket (audioSourceKey (heap s1 track))], s1)
            end in
          (forall r, p = Some (Resolved r) -> r = track)
          /\ ((p <> None /\ reqs = [])
              \/ (p = None /\ isStatusLoading (heap s1 track) = true
                  /\ exists key, reqs = [S3GetObject bucket key]))) as Hattempt.
  { destruct (addTrackAsLoading track pins s) as [[b|e] s1] eqn:E.
    - destruct (addTrackAsLoading_result _ _ _ _ _ E) as (_ & Hst & _).
      split; [discriminate|]. right. split; [reflexivity|].
      split; [unfold isStatusLoading; now rewrite Hst | eexists; reflexivity].
    - split; [discriminate|]. left. split; [discriminate | reflexivity]. }
  destruct (getTrack (guid (heap s track)) s) as [c|]; [|exact Hattempt].
  destruct (isStatusLoading (heap s c)).
  - split; [discriminate|]. left. split; [discriminate | reflexivity].
  - destruct (isStatusLoadSuccess (heap s c)); [|exact Hattempt].
    split; [now intros r [= <-]|]. left. split; [discriminate | reflexivity].
Qed.

Lemma startLoads_cons (bucket : string) (track : Ref) (rest : list Ref)
      (pins : list string) (s : State) :
  startLoads bucket (track :: rest) pins s
  = if isStatusLoading (heap s track) then
      let r2 := startLoads bucket rest pins s in
      (fst (fst r2), track :: snd (fst r2), snd r2)
    else
      let r1 := pLoadSingleTrack bucket track pins s in
      let r2 := startLoads bucket rest pins (snd r1) in
      (mkLoad track (fst (fst r1)) (snd (fst r1)) :: fst (fst r2),
       snd (fst r2), snd r2).
Proof.
  simpl. destruct (isStatusLoading (heap s track)); simpl.
  - now destruct (startLoads bucket rest pins s) as [[ls lg] s2].
  - destruct (pLoadSingleTrack bucket track pins s) as [[p reqs] s1]. simpl.
    now destruct (startLoads bucket rest pins s1) as [[ls lg] s2].
Qed.

Lemma startLoads_keeps_loading (bucket : string) (tracksToLoad : list Ref)
      (pins : list string) (s : State) (r : Ref) :
  isStatusLoading (heap s r) = true ->
  isStatusLoading (heap (snd (startLoads bucket tracksToLoad pins s)) r) = true
  /\ ~ In r (map loadTrack (fst (fst (startLoads bucket tracksToLoad pins s)))).
Proof.
  revert s. induction tracksToLoad as [|track rest IH]; intros s Hl.
  - simpl. auto.
  - rewrite startLoads_cons.
    destruct (isStatusLoading (heap s track)) eqn:Et; cbv zeta; simpl.
    + apply IH, Hl.
    + pose proof (pLoadSingleTrack_keeps_loading bucket track r pins s Hl) as H1.
      destruct (IH _ H1) as [Hk Hn]. split; [exact Hk|].
      intros [<-|Hin]; [congruence | contradiction].
Qed.

(** The loop of [pLoadTracks], summed up. *)
Lemma startLoads_shape (bucket : string) (tracksToLoad : list Ref)
      (pins : list string) (s : State) :
  let '(loads, loadingTracks, s1) := startLoads bucket tracksToLoad pins s in
  Permutation (map loadTrack loads ++ loadingTracks) tracksToLoad
  /\ (forall t, In t loadingTracks -> isStatusLoading (heap s1 t) = true)
  /\ Forall (fun l =>
               (forall r, loadPromise l = Some (Resolved r) -> r = loadTrack l)
               /\ ((loadPromise l <> None /\ outstanding l = [])
                   \/ (loadPromise l = None
                       /\ isStatusLoading (heap s1 (loadTrack l)) = true
                       /\ exists key, outstanding l = [S3GetObject bucket key])))
            loads
  /\ NoDup (requested loads).
Proof.
  revert s. induction tracksToLoad as [|track rest IH]; intros s.
  - simpl. repeat split; try constructor. intros t [].
  - rewrite startLoads_cons.
    destruct (isStatusLoading (heap s track)) eqn:Et; cbv zeta.
    + specialize (IH s).
      pose proof (startLoads_keeps_loading bucket rest pins s track Et) as [Hk _].
      destruct (startLoads bucket rest pins s) as [[ls lg] s2]. simpl in *.
      destruct IH as (Hperm & Hlg & Hls & Hnd).
      repeat split; auto.
      * apply Permutation_sym, Permutation_cons_app, Permutation_sym, Hperm.
      * intros t [<-|Hin]; auto.
    + pose proof (pLoadSingleTrack_shape bucket track pins s) as Hshape.
      destruct (pLoadSingleTrack bucket track pins s) as [[p reqs] s1]. simpl.
      specialize (IH s1).
      pose proof (startLoads_keeps_loading bucket rest pins s1 track) as Hkeep.
      destruct (startLoads bucket rest pins s1) as [[ls lg] s2]. simpl in *.
      destruct IH as (Hperm & Hlg & Hls & Hnd).
      destruct Hshape as [Hval Hreq].
      repeat split; auto.
      * constructor; [|exact Hls]. simpl. split; [exact Hval|].
        destruct Hreq as [Hset|(Hp & Hl1 & Hkey)]; [now left|].
        right. split; [exact Hp|]. split; [|exact Hkey]. now apply Hkeep.
      * unfold requested in *. simpl.
        destruct Hreq as [[_ ->]|(_ & Hl1 & key & ->)]; [exact Hnd|].
        simpl. constructor; [|exact Hnd].
        intros Hin. destruct (Hkeep Hl1) as [_ Hnot]. apply Hnot.
        apply in_map_iff in Hin as (l & Hl & Hin). apply in_map_iff.
        exists l. split; [exact Hl|]. now apply filter_In in Hin.
Qed.

(** X11. [pLoadTracks] sorts the tracks it is given into those it starts
    a load for and those that are LOADING when their turn comes, which it
    sets aside; together they are the given tracks, each as often as it
    was given.  A track that was set aside is still LOADING when the loop
    is done.  Each started load either is settled on the spot, with no
    request, or is pending with the fetch as its one request and its
    track LOADING. *)
Theorem pLoadTracks_partition (bucket : string) (tracksToLoad : list Ref)
        (resolveLoadingTracks : option bool) (pins : list string) (s s1 : State)
        (p : TracksPromise) (loads : list Load) (loadingTracks : list Ref) :
  pLoadTracks bucket tracksToLoad resolveLoadingTracks pins s
  = (p, loads, loadingTracks, s1) ->
  Permutation (map loadTrack loads ++ loadingTracks) tracksToLoad
  /\ (forall t, In t loadingTracks -> isStatusLoading (heap s1 t) = true)
  /\ (forall l, In l loads ->
        (loadPromise l <> None /\ outstanding l = [])
        \/ (loadPromise l = None
            /\ isStatusLoading (heap s1 (loadTrack l)) = true
            /\ exists key, outstanding l = [S3GetObject bucket key])).
Proof.
  unfold pLoadTracks. pose proof (startLoads_shape bucket tracksToLoad pins s) as H.
  destruct (startLoads bucket tracksToLoad pins s) as [[ls lg] s2].
  intros [= _ <- <- <-]. destruct H as (Hperm & Hlg & Hls & _).
  split; [exact Hperm|]. split; [exact Hlg|].
  intros l Hin. rewrite Forall_forall in Hls. now apply Hls.
Qed.

Lemma pLoadTracks_partition_witness :
  map loadTrack (snd (fst (fst (pLoadTracks "bucket" [7; 1; 7; 8] None demoPins
                                            roomyCache))))
  = [7; 1; 8]
  /\ snd (fst (pLoadTracks "bucket" [7; 1; 7; 8] None demoPins roomyCache)) = [7]
  /\ Permutation ([7; 1; 8] ++ [7]) [7; 1; 7; 8].
Proof.
  destruct (pLoadTracks "bucket" [7; 1; 7; 8] None demoPins roomyCache)
    as [[[p loads] lg] s1] eqn:E.
  pose proof (proj1 (pLoadTracks_partition _ _ _ _ _ _ _ _ _ E)) as Hperm.
  vm_compute in E. injection E as _ <- <- _.
  split; [reflexivity|]. split; [reflexivity|]. exact Hperm.
Defined.

(** X12. In one call of [pLoadTracks] a track object is fetched at most
    once, however often it occurs among the given tracks: the loads that
    have a request out are for pairwise different objects. *)
Theorem pLoadTracks_one_fetch_per_track (bucket : string)
        (tracksToLoad : list Ref) (resolveLoadingTracks : option bool)
        (pins : list string) (s : State) :
  NoDup (requested
           (snd (fst (fst (pLoadTracks bucket tracksToLoad resolveLoadingTracks
                                       pins s))))).
Proof.
  unfold pLoadTracks. pose proof (startLoads_shape bucket tracksToLoad pins s) as H.
  destruct (startLoads bucket tracksToLoad pins s) as [[ls lg] s2]. simpl.
  apply H.
Qed.

(** X13. When every given track is LOADING, and so also for no track at
    all, [pLoadTracks] starts nothing and changes nothing, and its
    promise is resolved when it returns: with the given tracks, in the
    given order, when [resolveLoadingTracks] is true or left out, and
    with the empty list when it is false.  The tracks it resolves with
    are still LOADING. *)
Theorem pLoadTracks_nothing_to_load (bucket : string) (tracksToLoad : list Ref)
        (resolveLoadingTracks : option bool) (pins : list string) (s : State) :
  (forall t, In t tracksToLoad -> isStatusLoading (heap s t) = true) ->
  pLoadTracks bucket tracksToLoad resolveLoadingTracks pins s
  = (Some (TracksResolved
             (match resolveLoadingTracks with
              | Some false => []
              | _ => tracksToLoad
              end)),
     [], tracksToLoad, s).
Proof.
  intros Hall.
  assert (startLoads bucket tracksToLoad pins s = ([], tracksToLoad, s)) as Hs.
  { induction tracksToLoad as [|track rest IH]; [reflexivity|].
    rewrite startLoads_cons, (Hall track) by now left.
    cbv zeta. rewrite IH; [reflexivity|]. intros t Ht. apply Hall. now right. }
  unfold pLoadTracks. rewrite Hs. simpl.
  now destruct resolveLoadingTracks as [[|]|].
Qed.

Lemma pLoadTracks_nothing_to_load_witness :
  isStatusLoading
    (heap (snd (pLoadTracks "bucket" [7] None demoPins roomyCache)) 7) = true
  /\ pLoadTracks "bucket" [7] None []
                 (snd (pLoadTracks "bucket" [7] None demoPins roomyCache))
     = (Some (TracksResolved [7]), [], [7],
        snd (pLoadTracks "bucket" [7] None demoPins roomyCache)).
Proof.
  assert (isStatusLoading
            (heap (snd (pLoadTracks "bucket" [7] None demoPins roomyCache)) 7)
          = true) as Hl by reflexivity.
  split; [exact Hl|].
  apply (pLoadTracks_nothing_to_load "bucket" [7] None []).
  intros t [<-|[]]. exact Hl.
Defined.

(** *** After the callbacks *)

Lemma answer_shape (cb : Callback) (l : Load) (s : State) :
  loadTrack (fst (answer cb l s)) = loadTrack l
  /\ (loadPromise l = None \/ loadPromise (fst (answer cb l s)) = loadPromise l)
  /\ ((forall r, loadPromise l = Some (Resolved r) -> r = loadTrack l) ->
      forall r, loadPromise (fst (answer cb l s)) = Some (Resolved r) ->
                r = loadTrack l).
Proof.
  unfold answer.
  destruct (outstanding l) as [|[b k|body] rest];
    destruct cb as [[err|] body'|buf|]; simpl;
    destruct (loadPromise l) as [[r0|reason]|] eqn:Ep; simpl;
    repeat split; auto; intros; try congruence;
    match goal with
    | H : Some (Resolved _) = Some (Resolved _) |- _ => now injection H
    | _ => idtac
    end.
Qed.

Lemma deliver_shape (i : nat) (cb : Callback) (loads : list Load) (s : State) :
  map loadTrack (fst (deliver i cb loads s)) = map loadTrack loads
  /\ Forall2 (fun q q' => q = None \/ q' = q)
             (map loadPromise loads)
             (map loadPromise (fst (deliver i cb loads s)))
  /\ (Forall (fun l => forall r, loadPromise l = Some (Resolved r) ->
                                 r = loadTrack l) loads ->
      Forall (fun l => forall r, loadPromise l = Some (Resolved r) ->
                                 r = loadTrack l) (fst (deliver i cb loads s))).
Proof.
  revert i. induction loads as [|l loads IH]; intros i.
  - destruct i; simpl; repeat split; auto.
  - destruct i as [|i]; simpl.
    + pose proof (answer_shape cb l s) as (Ht & Hp & Hv).
      destruct (answer cb l s) as [l' s']. simpl in *.
      split; [now rewrite Ht|]. split.
      * constructor; [exact Hp|].
        clear. induction loads; simpl; constructor; auto.
      * intros Hall. inversion Hall as [|? ? Hl Hrest]; subst.
        constructor; [|exact Hrest]. rewrite Ht. now apply Hv.
    + specialize (IH i). destruct (deliver i cb loads s) as [loads' s'].
      simpl in *. destruct IH as (Ht & Hp & Hv).
      split; [now rewrite Ht|]. split.
      * constructor; [now right | exact Hp].
      * intros Hall. inversion Hall as [|? ? Hl Hrest]; subst.
        constructor; [exact Hl | now apply Hv].
Qed.

Lemma allValues_Some (ps : list Promise) (vs : list Ref) :
  allValues ps = Some vs <-> ps = map (fun v => Some (Resolved v)) vs.
Proof.
  revert vs. induction ps as [|[[v|reason]|] ps IH]; intros vs; simpl.
  - split.
    + now intros [= <-].
    + destruct vs; [reflexivity | discriminate].
  - destruct (allValues ps) as [vs'|] eqn:E.
    + split.
      * intros [= <-]. simpl. f_equal. now apply IH.
      * destruct vs as [|v' vs]; [discriminate|]. simpl. intros [= -> H].
        apply IH in H. now injection H as ->.
    + split; [discriminate|].
      destruct vs as [|v' vs]; [discriminate|]. simpl. intros [= -> H].
      apply IH in H. discriminate H.
  - split; [discriminate|]. destruct vs; discriminate.
  - split; [discriminate|]. destruct vs; discriminate.
Qed.

Lemma firstRejection_In (ps : list Promise) :
  match firstRejection ps with
  | Some reason => In (Some (Rejected reason)) ps
  | None => forall reason, ~ In (Some (Rejected reason)) ps
  end.
Proof.
  induction ps as [|[[v|reason]|] ps IH]; simpl.
  - intros reason [].
  - destruct (firstRejection ps); [now right|].
    intros reason [H|H]; [discriminate | now apply (IH reason)].
  - now left.
  - destruct (firstRejection ps); [now right|].
    intros reason [H|H]; [discriminate | now apply (IH reason)].
Qed.

(** How the promise of [pLoadTracks] stands to the single promises. *)
Lemma react_fresh (flag : bool) (lg : list Ref) (ps : list Promise) :
  match react flag lg ps None with
  | None =>
      (forall reason, ~ In (Some (Rejected reason)) ps) /\ In None ps
  | Some (TracksResolved l) =>
      exists vs, ps = map (fun v => Some (Resolved v)) vs
                 /\ l = if flag then vs ++ lg else vs
  | Some (TracksRejected reason) => In (Some (Rejected reason)) ps
  end.
Proof.
  unfold react. pose proof (firstRejection_In ps) as Hrej.
  destruct (firstRejection ps) as [reason|]; [exact Hrej|].
  destruct (allValues ps) as [vs|] eqn:E.
  - exists vs. split; [now apply allValues_Some | reflexivity].
  - split; [exact Hrej|].
    induction ps as [|[[v|reason]|] ps IH]; simpl in *.
    + discriminate.
    + right. apply IH; [|now destruct (allValues ps)].
      intros reason H. apply (Hrej reason). now right.
    + exfalso. apply (Hrej reason). now left.
    + now left.
Qed.

Lemma extends_resolved (ps ps' : list Promise) (vs : list Ref) :
  Forall2 (fun q q' => q = None \/ q' = q) ps ps' ->
  ps = map (fun v => Some (Resolved v)) vs -> ps' = ps.
Proof.
  intros H. revert vs. induction H as [|q q' ps ps' Hq Hps IH]; intros vs E.
  - reflexivity.
  - destruct vs as [|v vs]; [discriminate|]. simpl in E. injection E as Eq Eps.
    destruct Hq as [Hq| ->]; [congruence|]. f_equal. eapply IH, Eps.
Qed.

Lemma extends_In (ps ps' : list Promise) (x : Settlement) :
  Forall2 (fun q q' => q = None \/ q' = q) ps ps' ->
  In (Some x) ps -> In (Some x) ps'.
Proof.
  induction 1 as [|q q' ps ps' Hq Hps IH]; simpl; [tauto|].
  intros [->|Hin]; [|right; auto].
  destruct Hq as [Hq| ->]; [discriminate | now left].
Qed.

(** X14. The promise of [pLoadTracks], at any moment after any run of
    callbacks.  It is pending exactly while no started load is rejected
    and one is still pending.  It is resolved only when every started
    load is resolved, and then with the tracks of the started loads in
    the order given, followed by the tracks that were set aside as
    loading (or without them when [resolveLoadingTracks] is false): the
    given tracks, but not in the given order when a loading track came
    before another.  It is rejected only with the reason of a started
    load that is rejected. *)
Theorem pLoadTracks_settlement (bucket : string) (tracksToLoad : list Ref)
        (resolveLoadingTracks : option bool) (pins : list string)
        (callbacks : list (nat * Callback)) (s s1 s' : State)
        (p0 p : TracksPromise) (loads loads' : list Load)
        (loadingTracks : list Ref) :
  pLoadTracks bucket tracksToLoad resolveLoadingTracks pins s
  = (p0, loads, loadingTracks, s1) ->
  afterCallbacks (match resolveLoadingTracks with Some b => b | None => true end)
                 loadingTracks callbacks p0 loads s1
  = (p, loads', s') ->
  map loadTrack loads' = map loadTrack loads
  /\ match p with
     | None =>
         (forall reason, ~ In (Some (Rejected reason)) (map loadPromise loads'))
         /\ In None (map loadPromise loads')
     | Some (TracksResolved l) =>
         map loadPromise loads'
         = map (fun l => Some (Resolved (loadTrack l))) loads
         /\ l = map loadTrack loads
                ++ match resolveLoadingTracks with
                   | Some false => []
                   | _ => loadingTracks
                   end
     | Some (TracksRejected reason) =>
         In (Some (Rejected reason)) (map loadPromise loads')
     end.
Proof.
  intros Hstart Hrun.
  set (flag := match resolveLoadingTracks with Some b => b | None => true end)
    in *.
  set (good := fun l : Load =>
                 forall r, loadPromise l = Some (Resolved r) -> r = loadTrack l).
  set (inv := fun (q : TracksPromise) (ls : list Load) =>
                match q with
                | None =>
                    (forall reason,
                        ~ In (Some (Rejected reason)) (map loadPromise ls))
                    /\ In None (map loadPromise ls)
                | Some (TracksResolved l) =>
                    exists vs,
                      map loadPromise ls = map (fun v => Some (Resolved v)) vs
                      /\ l = (if flag then vs ++ loadingTracks else vs)
                | Some (TracksRejected reason) =>
                    In (Some (Rejected reason)) (map loadPromise ls)
                end).
  assert (Forall good loads /\ inv p0 loads) as [Hgood0 Hinv0].
  { unfold pLoadTracks in Hstart.
    pose proof (startLoads_shape bucket tracksToLoad pins s) as H.
    destruct (startLoads bucket tracksToLoad pins s) as [[ls lg] s2].
    fold flag in Hstart. injection Hstart as <- <- <- <-.
    destruct H as (_ & _ & Hls & _). split.
    - eapply Forall_impl; [|exact Hls]. intros l [Hl _]. exact Hl.
    - destruct ls as [|l ls]; simpl.
      + exists []. split; [reflexivity|]. now destruct flag.
      + apply (react_fresh flag lg (map loadPromise (l :: ls))). }
  assert (map loadTrack loads' = map loadTrack loads
          /\ Forall good loads' /\ inv p loads') as (Htracks & Hgood & Hinv).
  { clear Hstart. revert p0 loads s1 Hrun Hgood0 Hinv0.
    induction callbacks as [|[i cb] callbacks IH]; intros p0 loads s1 Hrun Hg Hi.
    - simpl in Hrun. injection Hrun as <- <- <-. auto.
    - simpl in Hrun.
      pose proof (deliver_shape i cb loads s1) as (Ht & Hext & Hv).
      destruct (deliver i cb loads s1) as [loads1 s2]. simpl in *.
      specialize (IH _ _ _ Hrun (Hv Hg)).
      rewrite <- Ht. apply IH.
      destruct p0 as [[l|reason]|]; simpl.
      + destruct Hi as (vs & Hps & Hl). exists vs.
        now rewrite (extends_resolved _ _ _ Hext Hps).
      + eapply extends_In; eauto.
      + apply (react_fresh flag loadingTracks (map loadPromise loads1)). }
  split; [exact Htracks|].
  destruct p as [[l|reason]|]; simpl in Hinv; [|exact Hinv|exact Hinv].
  destruct Hinv as (vs & Hps & ->).
  assert (vs = map loadTrack loads) as ->.
  { rewrite <- Htracks. clear - Hps Hgood. revert vs Hps.
    induction Hgood as [|l ls Hl Hls IH]; intros vs Hps.
    - destruct vs; [reflexivity | discriminate].
    - destruct vs as [|v vs]; [discriminate|]. simpl in *.
      injection Hps as Hp Hps. f_equal; [|now apply IH].
      exact (Hl v Hp). }
  split.
  - rewrite Hps, map_map. reflexivity.
  - subst flag. destruct resolveLoadingTracks as [[|]|]; try reflexivity.
    now rewrite app_nil_r.
Qed.

Lemma pLoadTracks_settlement_witness :
  fst (fst (fst (pLoadTracks "bucket" [7; 1; 7; 8] None demoPins roomyCache)))
  = None
  /\ fst (fst (afterCallbacks true [7]
                 [(0, GetObjectReturned None []); (2, GetObjectReturned None []);
                  (2, DecodeSucceeded [8%Z]); (0, DecodeSucceeded [7%Z])]
                 None
                 (snd (fst (fst (pLoadTracks "bucket" [7; 1; 7; 8] None demoPins
                                             roomyCache))))
                 (snd (pLoadTracks "bucket" [7; 1; 7; 8] None demoPins
                                   roomyCache))))
     = Some (TracksResolved [7; 1; 8; 7])
  /\ fst (fst (afterCallbacks true [7]
                 [(0, GetObjectReturned None []); (2, GetObjectReturned None []);
                  (2, DecodeFailedCalled); (0, DecodeSucceeded [7%Z])]
                 None
                 (snd (fst (fst (pLoadTracks "bucket" [7; 1; 7; 8] None demoPins
                                             roomyCache))))
                 (snd (pLoadTracks "bucket" [7; 1; 7; 8] None demoPins
                                   roomyCache))))
     = Some (TracksRejected (DecodingError (guidOf 8))).
Proof.
  destruct (pLoadTracks "bucket" [7; 1; 7; 8] None demoPins roomyCache)
    as [[[p0 loads] lg] s1] eqn:E.
  assert (p0 = None /\ lg = [7]) as [-> ->]
      by (vm_compute in E; injection E as <- _ <- _; now split).
  cbn [fst snd]. split; [reflexivity|].
  destruct (afterCallbacks true [7]
              [(0, GetObjectReturned None []); (2, GetObjectReturned None []);
               (2, DecodeSucceeded [8%Z]); (0, DecodeSucceeded [7%Z])]
              None loads s1) as [[p loads'] s'] eqn:Erun.
  pose proof (pLoadTracks_settlement "bucket" [7; 1; 7; 8] None demoPins
                _ _ _ _ _ _ _ _ _ E Erun) as [_ Hp].
  vm_compute in E. injection E as <- <-. split; [|reflexivity].
  destruct p as [[l|reason]|]; cbn [fst].
  - destruct Hp as [_ ->]. reflexivity.
  - vm_compute in Erun. discriminate Erun.
  - vm_compute in Erun. discriminate Erun.
Defined.

End AudioBufferManagerMore.

(** * Further properties of the mixer channel *)

Module MixerChannelMore.

Import Audio MixerChannel MixerChannelFacts MixerChannelSpec Examples.
Local Open Scope Q_scope.
Local Arguments secToMS : simpl never.
Local Arguments msToSec : simpl never.

Section Env.

Variable isBadNumber : Q -> bool.
Variables INVALID_TIME_VAL INVALID_VAL : Q.
Variable tracks : Heap.

Local Abbreviation addAction :=
  (addActionMc isBadNumber INVALID_TIME_VAL INVALID_VAL tracks).

(** The time an action is scheduled at: [atTimeAbs] with "now"
    resolved, plus the base offset, minus the set offset. *)
Local Abbreviation effectiveTime mc action base off :=
  (_filterAtTimeNow mc (TrackAction.getActionTimeMSAbs action)
   + orZero isBadNumber base - orZero isBadNumber off).

(** The call [addActionMc] makes for the action's type. *)
Local Abbreviation dispatch action time bpm :=
  (match TrackAction.getActionType action with
   | TrackAction.PLAY =>
       _actionPlay isBadNumber time (TrackAction.getActionOffsetMS action)
   | TrackAction.STOP =>
       _actionStop isBadNumber INVALID_TIME_VAL INVALID_VAL time
   | TrackAction.PAUSE => _actionPause time
   | TrackAction.PITCH =>
       _actionPitch isBadNumber time (TrackAction.getPitchValueApplied action)
   | TrackAction.GAIN_FADE =>
       _actionGainFade time (TrackAction.getEndVal action)
                       (TrackAction.getFadeNumBeats action) bpm
   end).

(** The guard of [addActionMc] on a channel that can schedule: the
    channel it leaves is the channel itself, or the channel with a
    source node built for it and the replay log emptied. *)
Lemma ensure_schedulable_cases (mc : MixerChannel.t) :
  schedulable tracks mc ->
  exists mc1,
    _ensureSourceNodePresent tracks mc = (Normal true, mc1)
    /\ ((sourceNode mc <> None /\ mc1 = mc)
        \/ (exists g b,
               gainNode mc = Some g /\ sourceNode mc = None
               /\ Track.getAudioBuffer (tracks (track mc)) = Some b
               /\ mc1 = withNewSource g b mc)).
Proof.
  intros [Hg Hs].
  destruct (gainNode mc) as [g|] eqn:Eg; [clear Hg | contradiction].
  destruct (sourceNode mc) as [sn|] eqn:Es.
  - exists mc. rewrite (ensure_present tracks mc g sn Eg Es).
    split; [reflexivity|]. left. split; [discriminate | reflexivity].
  - destruct Hs as [Hs|Hs]; [contradiction|].
    destruct (Track.getAudioBuffer (tracks (track mc))) as [b|] eqn:Eb;
      [clear Hs | contradiction].
    exists (withNewSource g b mc). rewrite (ensure_created tracks mc g b Eg Es Eb).
    split; [reflexivity|]. right. exists g, b. auto.
Qed.

(** What the guard leaves as it was. *)
Lemma ensure_keeps (mc mc1 : MixerChannel.t) :
  (sourceNode mc <> None /\ mc1 = mc)
  \/ (exists g b,
         gainNode mc = Some g /\ sourceNode mc = None
         /\ Track.getAudioBuffer (tracks (track mc)) = Some b
         /\ mc1 = withNewSource g b mc) ->
  track mc1 = track mc
  /\ currentTimeMS mc1 = currentTimeMS mc
  /\ gainNode mc1 = gainNode mc
  /\ sourceNode mc1 <> None
  /\ _playState mc1 = _playState mc
  /\ startScheduledTimeMS mc1 = startScheduledTimeMS mc
  /\ startedAtOffsetMS mc1 = startedAtOffsetMS mc
  /\ actionsAddedCollection mc1
     = match sourceNode mc with
       | Some _ => actionsAddedCollection mc
       | None => []
       end.
Proof.
  intros [[Hs ->]|(g & b & _ & Hs & _ & ->)].
  - destruct (sourceNode mc); [|contradiction]. repeat split; auto.
  - rewrite Hs. repeat split; auto. discriminate.
Qed.

(** [addActionMc] on a channel that can schedule: the guard, the two
    tests, the call for the action's type, the entry in the replay
    log. *)
Lemma addActionMc_unfolded (mc : MixerChannel.t) (action : TrackAction.t)
      (base off min : option Q) :
  schedulable tracks mc ->
  exists mc1,
    _ensureSourceNodePresent tracks mc = (Normal true, mc1)
    /\ ((sourceNode mc <> None /\ mc1 = mc)
        \/ (exists g b,
               gainNode mc = Some g /\ sourceNode mc = None
               /\ Track.getAudioBuffer (tracks (track mc)) = Some b
               /\ mc1 = withNewSource g b mc))
    /\ addAction action base off min mc
       = if String.eqb (Track.guid (tracks (track mc)))
                       (TrackAction.getActionTrackGuid action)
         then
           if Qlt_bool (_filterAtTimeNow mc (TrackAction.getActionTimeMSAbs action))
                       (orZero isBadNumber min)
           then (Normal (Some false), mc1)
           else
             match dispatch action (effectiveTime mc action base off)
                            (Track.bpm (tracks (track mc))) mc1 with
             | (Normal actionAdded, mc2) =>
                 (Normal actionAdded,
                  if truthy actionAdded
                     && TrackAction.targets_eqb
                          (TrackAction.getActionTarget action) TrackAction.SOURCE
                  then set_actionsAddedCollection
                         (TrackActionsCollection.addActionWithTimeMSAbs
                            (TrackAction.copyFromTrackAction action)
                            (effectiveTime mc action base off)
                            (actionsAddedCollection mc2)) mc2
                  else mc2)
             | (Throw e, mc2) => (Throw e, mc2)
             end
         else (Normal (Some false), mc1).
Proof.
  intros Hsch.
  destruct (ensure_schedulable_cases mc Hsch) as (mc1 & Hens & Hcases).
  exists mc1. split; [exact Hens|]. split; [exact Hcases|].
  rewrite (addActionMc_guard_passed isBadNumber INVALID_TIME_VAL INVALID_VAL
             tracks mc mc1 action base off min Hens).
  destruct (ensure_keeps mc mc1 Hcases) as (Htr & Hclk & _).
  rewrite Htr, !(filterAtTimeNow_clock mc mc1 _ Hclk).
  destruct (String.eqb _ _); [|reflexivity].
  destruct (Qlt_bool _ _); [reflexivity|].
  cbv zeta. unfold bind at 1.
  destruct (dispatch action (effectiveTime mc action base off)
                     (Track.bpm (tracks (track mc))) mc1) as [[a|e] mc2];
    [|reflexivity].
  destruct (truthy a && TrackAction.targets_eqb (TrackAction.getActionTarget action)
                                                 TrackAction.SOURCE);
    reflexivity.
Qed.

Lemma addActionMc_dispatch (mc : MixerChannel.t) (action : TrackAction.t)
      (base off min : option Q) :
  schedulable tracks mc ->
  Track.guid (tracks (track mc)) = TrackAction.getActionTrackGuid action ->
  Qlt_bool (_filterAtTimeNow mc (TrackAction.getActionTimeMSAbs action))
           (orZero isBadNumber min) = false ->
  exists mc1,
    _ensureSourceNodePresent tracks mc = (Normal true, mc1)
    /\ ((sourceNode mc <> None /\ mc1 = mc)
        \/ (exists g b,
               gainNode mc = Some g /\ sourceNode mc = None
               /\ Track.getAudioBuffer (tracks (track mc)) = Some b
               /\ mc1 = withNewSource g b mc))
    /\ addAction action base off min mc
       = match dispatch action (effectiveTime mc action base off)
                        (Track.bpm (tracks (track mc))) mc1 with
         | (Normal actionAdded, mc2) =>
             (Normal actionAdded,
              if truthy actionAdded
                 && TrackAction.targets_eqb (TrackAction.getActionTarget action)
                                            TrackAction.SOURCE
              then set_actionsAddedCollection
                     (TrackActionsCollection.addActionWithTimeMSAbs
                        (TrackAction.copyFromTrackAction action)
                        (effectiveTime mc action base off)
                        (actionsAddedCollection mc2)) mc2
              else mc2)
         | (Throw e, mc2) => (Throw e, mc2)
         end.
Proof.
  intros Hsch Hguid Hmin.
  destruct (addActionMc_unfolded mc action base off min Hsch)
    as (mc1 & Hens & Hcases & Heq).
  exists mc1. split; [exact Hens|]. split; [exact Hcases|].
  now rewrite Heq, Hguid, String.eqb_refl, Hmin.
Qed.

(** The play state as [_getPlayState] reads it from the clock. *)
Lemma getPlayState_reads (mc : MixerChannel.t) :
  exists mc',
    _getPlayState mc = (Normal (_playState mc'), mc')
    /\ mc' = (if playStates_eqb (_playState mc) STOPPED_AND_PLAY_SCHEDULED
                 && Qle_bool (startScheduledTimeMS mc) (currentTimeMS mc)
              then set_playState PLAYING mc else mc).
Proof.
  unfold _getPlayState. simpl.
  destruct (playStates_eqb (_playState mc) STOPPED_AND_PLAY_SCHEDULED); simpl;
    [|eexists; split; reflexivity].
  destruct (Qle_bool (startScheduledTimeMS mc) (currentTimeMS mc));
    eexists; split; reflexivity.
Qed.

Lemma actionPlay_accepts (mc : MixerChannel.t) (sn : SourceNode)
      (atTimeMS : Q) (offsetMS : option Q) :
  sourceNode mc = Some sn ->
  fst (_actionPlay isBadNumber atTimeMS offsetMS mc)
  = Normal (Some (negb (isBadNumber atTimeMS)
                  && playStates_eqb (_playState (snd (_getPlayState mc))) STOPPED)).
Proof.
  intros Hs. unfold _actionPlay.
  destruct (isBadNumber atTimeMS); [reflexivity|].
  unfold bind at 1. unfold get at 1. unfold bind at 1.
  destruct (getPlayState_reads mc) as (mc' & -> & Hmc').
  assert (sourceNode mc' = Some sn) as Hs'.
  { rewrite Hmc'. now destruct (_ && _). }
  cbn [snd].
  destruct (_playState mc');
    try (destruct (Qeq_bool _ _); reflexivity).
  unfold _actionPlayHelper. run. rewrite Hs'. reflexivity.
Qed.

Lemma actionStop_accepts (mc : MixerChannel.t) (sn : SourceNode) (atTimeMS : Q) :
  sourceNode mc = Some sn ->
  fst (_actionStop isBadNumber INVALID_TIME_VAL INVALID_VAL atTimeMS mc)
  = Normal (Some (negb (isBadNumber atTimeMS)
                  && playStates_eqb (_playState (snd (_getPlayState mc))) PLAYING)).
Proof.
  intros Hs. unfold _actionStop.
  destruct (isBadNumber atTimeMS); [reflexivity|].
  unfold bind at 1. unfold get at 1. unfold bind at 1.
  destruct (getPlayState_reads mc) as (mc' & -> & Hmc').
  assert (sourceNode mc' = Some sn) as Hs'.
  { rewrite Hmc'. now destruct (_ && _). }
  cbn [snd].
  destruct (_playState mc') eqn:Eps; try reflexivity.
  unfold _actionStopHelper, getTrackCurrentOffsetMS, _getPlayState. run.
  rewrite Hs'. reflexivity.
Qed.

Lemma getPlayState_same (mc mc1 : MixerChannel.t) :
  _playState mc1 = _playState mc ->
  startScheduledTimeMS mc1 = startScheduledTimeMS mc ->
  currentTimeMS mc1 = currentTimeMS mc ->
  _playState (snd (_getPlayState mc1)) = _playState (snd (_getPlayState mc)).
Proof.
  intros Hps Hst Hclk.
  destruct (getPlayState_reads mc) as (mc' & -> & ->).
  destruct (getPlayState_reads mc1) as (mc1' & -> & ->).
  cbn [snd]. rewrite Hps, Hst, Hclk. now destruct (_ && _).
Qed.

(** X15. Which actions [addActionMc] takes on.  On a channel that can
    schedule, for an action for the hosted track whose time is not
    before [minTimeMSAbs]: a PLAY is accepted exactly when the channel
    is STOPPED, a STOP exactly when it is PLAYING (the state being the
    one read from the clock at the call), both only with a good
    effective time; a PITCH is accepted in every state with a good
    time; a PAUSE is never accepted; and a GAIN_FADE for a track whose
    bpm is positive is carried out but answers [undefined]. *)
Theorem addActionMc_acceptance (mc : MixerChannel.t) (action : TrackAction.t)
        (base off min : option Q) :
  schedulable tracks mc ->
  Track.guid (tracks (track mc)) = TrackAction.getActionTrackGuid action ->
  Qlt_bool (_filterAtTimeNow mc (TrackAction.getActionTimeMSAbs action))
           (orZero isBadNumber min) = false ->
  (TrackAction.getActionType action = TrackAction.GAIN_FADE ->
   isPositive (Track.bpm (tracks (track mc))) = true) ->
  fst (addAction action base off min mc)
  = Normal
      (let good := negb (isBadNumber (effectiveTime mc action base off)) in
       let state := _playState (snd (_getPlayState mc)) in
       match TrackAction.getActionType action with
       | TrackAction.PLAY => Some (good && playStates_eqb state STOPPED)
       | TrackAction.STOP => Some (good && playStates_eqb state PLAYING)
       | TrackAction.PAUSE => Some false
       | TrackAction.PITCH => Some good
       | TrackAction.GAIN_FADE => None
       end).
Proof.
  intros Hsch Hguid Hmin Hbpm.
  destruct (addActionMc_dispatch mc action base off min Hsch Hguid Hmin)
    as (mc1 & Hens & Hcases & ->).
  destruct (ensure_schedulable tracks mc Hsch)
    as (mc1' & Hens' & _ & Hg1 & Hs1 & Hclk & Hps & Hst & _).
  rewrite Hens in Hens'. injection Hens' as <-.
  destruct (sourceNode mc1) as [sn|] eqn:Es; [clear Hs1 | contradiction].
  pose proof (getPlayState_same mc mc1 Hps Hst Hclk) as Hstate.
  cbv zeta.
  destruct (TrackAction.getActionType action) eqn:Hty.
  - pose proof (actionPlay_accepts mc1 sn (effectiveTime mc action base off)
                  (TrackAction.getActionOffsetMS action) Es) as H.
    rewrite Hstate in H.
    destruct (_actionPlay _ _ _ mc1) as [[a|e] mc2]; exact H.
  - pose proof (actionStop_accepts mc1 sn (effectiveTime mc action base off) Es)
      as H.
    rewrite Hstate in H.
    destruct (_actionStop _ _ _ _ mc1) as [[a|e] mc2]; exact H.
  - reflexivity.
  - unfold _actionPitch.
    destruct (isBadNumber (effectiveTime mc action base off)); [reflexivity|].
    run. rewrite Es. reflexivity.
  - destruct Hsch as [Hg _]. rewrite <- Hg1 in Hg.
    destruct (gainNode mc1) as [g|] eqn:Eg; [|contradiction].
    unfold _actionGainFade. rewrite (Hbpm eq_refl). run. rewrite Eg. reflexivity.
Qed.

(** Whatever the action's type, the call made for it leaves the replay
    log as it is. *)
Lemma dispatch_keeps_log (mc : MixerChannel.t) (action : TrackAction.t)
      (time bpm : Q) :
  actionsAddedCollection (snd (dispatch action time bpm mc))
  = actionsAddedCollection mc.
Proof.
  destruct mc as [ctx tr gn sno pre bent acts ps t1 t2 o1 o2].
  destruct (TrackAction.getActionType action);
    unfold _actionPlay, _actionStop, _actionPause, _actionPitch, _actionGainFade,
      _actionPlayHelper, _actionStopHelper, getTrackCurrentOffsetMS,
      _getPlayState, currentTimeMS;
    try destruct (isBadNumber time); try destruct (isPositive bpm);
    run; try reflexivity;
    destruct ps; simpl; comparisons; destruct sno; simpl; try reflexivity;
    destruct gn; reflexivity.
Qed.

(** X16. The replay log after [addActionMc], on a channel that can
    schedule: an action is appended, stamped with its effective time,
    exactly when the call returned true and the action targets the
    source node; in every other case (rejected, a GAIN_FADE, an
    exception) nothing is appended.  What was logged before stays in
    front, except when the call had to build the source node: then the
    log starts empty. *)
Theorem replay_log_records_accepted (mc : MixerChannel.t)
        (action : TrackAction.t) (base off min : option Q) :
  schedulable tracks mc ->
  actionsAddedCollection (snd (addAction action base off min mc))
  = match sourceNode mc with
    | Some _ => actionsAddedCollection mc
    | None => []
    end
    ++ match fst (addAction action base off min mc) with
       | Normal (Some true) =>
           if TrackAction.targets_eqb (TrackAction.getActionTarget action)
                                      TrackAction.SOURCE
           then [TrackAction.withTimeMSAbs (effectiveTime mc action base off)
                                           action]
           else []
       | _ => []
       end.
Proof.
  intros Hsch.
  destruct (addActionMc_unfolded mc action base off min Hsch)
    as (mc1 & _ & Hcases & ->).
  destruct (ensure_keeps mc mc1 Hcases) as (_ & _ & _ & _ & _ & _ & _ & Hlog).
  destruct (String.eqb _ _); [|simpl; now rewrite Hlog, app_nil_r].
  destruct (Qlt_bool _ _); [simpl; now rewrite Hlog, app_nil_r|].
  pose proof (dispatch_keeps_log mc1 action (effectiveTime mc action base off)
                (Track.bpm (tracks (track mc)))) as Hkeep.
  destruct (dispatch action (effectiveTime mc action base off)
                     (Track.bpm (tracks (track mc))) mc1) as [[a|e] mc2];
    simpl in Hkeep |- *; [|now rewrite Hkeep, Hlog, app_nil_r].
  destruct a as [[|]|]; simpl; try (now rewrite Hkeep, Hlog, app_nil_r).
  destruct (TrackAction.targets_eqb (TrackAction.getActionTarget action)
                                    TrackAction.SOURCE); simpl;
    rewrite Hkeep, Hlog, ?app_nil_r; reflexivity.
Qed.




(** X19. The [ended] callback: [_processPlaybackEnded] makes the channel
    STOPPED and discards the source node.  When the track has a buffer
    it puts a new node in its place (made by the context, wired to the
    gain node, nothing scheduled on it) and empties the replay log;
    when the track has no buffer any more, the channel is left without
    a source node and the replay log stays as it was.  In both cases
    the two scheduled times and the two offsets stay as they are, so
    [getTrackCurrentOffsetMS] then reports the offset recorded for the
    stop.  On the new node a PLAY for the hosted track with a good time
    is accepted again. *)
Theorem playbackEnded_renews_source (mc : MixerChannel.t) (g : GainNode) :
  gainNode mc = Some g ->
  let r := _processPlaybackEnded isBadNumber INVALID_TIME_VAL INVALID_VAL
                                 tracks mc in
  fst r = Normal tt
  /\ _playState (snd r) = STOPPED
  /\ sourceNode (snd r)
     = match Track.getAudioBuffer (tracks (track mc)) with
       | Some b => Some (connect g (fst (createBufferSource (audioContext mc) b)))
       | None => None
       end
  /\ actionsAddedCollection (snd r)
     = match Track.getAudioBuffer (tracks (track mc)) with
       | Some _ => []
       | None => actionsAddedCollection mc
       end
  /\ startScheduledTimeMS (snd r) = startScheduledTimeMS mc
  /\ stopScheduledTimeMS (snd r) = stopScheduledTimeMS mc
  /\ startedAtOffsetMS (snd r) = startedAtOffsetMS mc
  /\ stoppedAtOffsetMS (snd r) = stoppedAtOffsetMS mc
  /\ fst (getTrackCurrentOffsetMS INVALID_TIME_VAL INVALID_VAL (snd r))
     = Normal (if Qeq_bool (stoppedAtOffsetMS mc) INVALID_TIME_VAL
               then INVALID_VAL else stoppedAtOffsetMS mc)
  /\ (forall action base off min,
        Track.getAudioBuffer (tracks (track mc)) <> None ->
        TrackAction.getActionType action = TrackAction.PLAY ->
        Track.guid (tracks (track mc)) = TrackAction.getActionTrackGuid action ->
        Qlt_bool (_filterAtTimeNow mc (TrackAction.getActionTimeMSAbs action))
                 (orZero isBadNumber min) = false ->
        isBadNumber (effectiveTime mc action base off) = false ->
        fst (addAction action base off min (snd r)) = Normal (Some true)).
Proof.
  intros Hg r.
  assert (snd r
          = match Track.getAudioBuffer (tracks (track mc)) with
            | Some b => withNewSource g b (set_playState STOPPED mc)
            | None => set_sourceNode None (set_playState STOPPED mc)
            end
          /\ fst r = Normal tt) as [Hr Hok].
  { subst r. unfold _processPlaybackEnded, _sourceNodeRecreate,
      _sourceNodeRecreateVia, withNewSource.
    destruct mc as [ctx tr gn sno pre bent acts ps t1 t2 o1 o2].
    simpl in Hg. subst gn. run.
    destruct sno as [sn|]; simpl;
      destruct (Track.getAudioBuffer (tracks tr)); simpl; split; reflexivity. }
  split; [exact Hok|]. rewrite Hr. clear Hr Hok r.
  destruct (Track.getAudioBuffer (tracks (track mc))) as [b|] eqn:Eb.
  - repeat split; try reflexivity.
    + unfold getTrackCurrentOffsetMS, _getPlayState. run.
      now destruct (Qeq_bool (stoppedAtOffsetMS mc) INVALID_TIME_VAL).
    + intros action base off min _ Hty Hguid Hmin Hbad.
      set (mc0 := withNewSource g b (set_playState STOPPED mc)).
      assert (schedulable tracks mc0) as Hsch.
      { split; [simpl; rewrite Hg|left]; discriminate. }
      assert (currentTimeMS mc0 = currentTimeMS mc) as Hclk by reflexivity.
      destruct (addActionMc_dispatch mc0 action base off min Hsch Hguid)
        as (mc1 & _ & Hcases & ->).
      { now rewrite (filterAtTimeNow_clock mc mc0 _ Hclk). }
      destruct Hcases as [[_ ->]|(g' & b' & _ & Hnone & _)];
        [|discriminate Hnone].
      rewrite Hty.
      pose proof (actionPlay_accepts mc0 _
                    (effectiveTime mc0 action base off)
                    (TrackAction.getActionOffsetMS action) eq_refl) as Hplay.
      rewrite (filterAtTimeNow_clock mc mc0 _ Hclk), Hbad in Hplay.
      destruct (_actionPlay _ _ _ mc0) as [[a|e] mc2]; exact Hplay.
  - repeat split; try reflexivity.
    + unfold getTrackCurrentOffsetMS, _getPlayState. run.
      now destruct (Qeq_bool (stoppedAtOffsetMS mc) INVALID_TIME_VAL).
    + intros action base off min H. contradiction.
Qed.

(** X20. A GAIN_FADE for a track whose bpm is not positive makes
    [addActionMc] throw IllegalParam; nothing is scheduled on the gain
    node and nothing is appended to the replay log. *)
Theorem gainFade_rejects_bad_bpm (mc : MixerChannel.t) (action : TrackAction.t)
        (base off min : option Q) :
  schedulable tracks mc ->
  Track.guid (tracks (track mc)) = TrackAction.getActionTrackGuid action ->
  Qlt_bool (_filterAtTimeNow mc (TrackAction.getActionTimeMSAbs action))
           (orZero isBadNumber min) = false ->
  TrackAction.getActionType action = TrackAction.GAIN_FADE ->
  isPositive (Track.bpm (tracks (track mc))) = false ->
  fst (addAction action base off min mc) = Throw IllegalParam
  /\ gainNode (snd (addAction action base off min mc)) = gainNode mc
  /\ actionsAddedCollection (snd (addAction action base off min mc))
     = match sourceNode mc with
       | Some _ => actionsAddedCollection mc
       | None => []
       end.
Proof.
  intros Hsch Hguid Hmin Hty Hbpm.
  destruct (addActionMc_dispatch mc action base off min Hsch Hguid Hmin)
    as (mc1 & _ & Hcases & ->).
  destruct (ensure_keeps mc mc1 Hcases) as (_ & _ & Hg & _ & _ & _ & _ & Hlog).
  rewrite Hty. unfold _actionGainFade. rewrite Hbpm. simpl. auto.
Qed.

Lemma filterAtTimeNow_now (mc : MixerChannel.t) (timeMS : Q) :
  Qeq_bool timeMS AT_TIME_NOW = true ->
  _filterAtTimeNow mc timeMS = currentTimeMS mc.
Proof. intros H. unfold _filterAtTimeNow. now rewrite H. Qed.

(** [_actionPlay] on a channel that is STOPPED. *)
Lemma actionPlay_stopped (mc : MixerChannel.t) (sn : SourceNode)
      (atTimeMS : Q) (offsetMS : option Q) :
  sourceNode mc = Some sn ->
  isBadNumber atTimeMS = false ->
  _playState mc = STOPPED ->
  exists mc',
    _actionPlay isBadNumber atTimeMS offsetMS mc = (Normal (Some true), mc')
    /\ _playState mc' = STOPPED_AND_PLAY_SCHEDULED
    /\ startScheduledTimeMS mc' = _filterAtTimeNow mc atTimeMS
    /\ startedAtOffsetMS mc' = orZero isBadNumber offsetMS
    /\ actionsAddedCollection mc' = actionsAddedCollection mc.
Proof.
  intros Hs Hbad Hps.
  destruct mc as [ctx tr gn sno pre bent acts ps t1 t2 o1 o2].
  simpl in Hs, Hps. subst sno ps.
  unfold _actionPlay. rewrite Hbad.
  unfold _actionPlayHelper, _getPlayState. run.
  eexists. split; [reflexivity|]. repeat split; reflexivity.
Qed.

(** X21. The effective time is passed through the test for "now" a
    second time.  A PLAY whose effective time works out as the value of
    AT_TIME_NOW, as when 999 is brought down by a set offset of 1000,
    is started at the current clock time, while the replay log keeps it
    under the effective time. *)
Theorem effective_time_of_sentinel_means_now (mc : MixerChannel.t)
        (action : TrackAction.t) (base off min : option Q) :
  schedulable tracks mc ->
  Track.guid (tracks (track mc)) = TrackAction.getActionTrackGuid action ->
  Qlt_bool (_filterAtTimeNow mc (TrackAction.getActionTimeMSAbs action))
           (orZero isBadNumber min) = false ->
  TrackAction.getActionType action = TrackAction.PLAY ->
  TrackAction.getActionTarget action = TrackAction.SOURCE ->
  isBadNumber (effectiveTime mc action base off) = false ->
  Qeq_bool (effectiveTime mc action base off) AT_TIME_NOW = true ->
  _playState mc = STOPPED ->
  let mc' := snd (addAction action base off min mc) in
  fst (addAction action base off min mc) = Normal (Some true)
  /\ startScheduledTimeMS mc' = currentTimeMS mc
  /\ actionsAddedCollection mc'
     = match sourceNode mc with
       | Some _ => actionsAddedCollection mc
       | None => []
       end
       ++ [TrackAction.withTimeMSAbs (effectiveTime mc action base off) action].
Proof.
  intros Hsch Hguid Hmin Hty Htarget Hbad Hnow Hps mc'. subst mc'.
  destruct (addActionMc_dispatch mc action base off min Hsch Hguid Hmin)
    as (mc1 & _ & Hcases & ->).
  destruct (ensure_keeps mc mc1 Hcases)
    as (_ & Hclk & _ & Hs1 & Hps1 & _ & _ & Hlog).
  destruct (sourceNode mc1) as [sn|] eqn:Es; [clear Hs1 | contradiction].
  rewrite Hty, Htarget. rewrite Hps in Hps1.
  destruct (actionPlay_stopped mc1 sn (effectiveTime mc action base off)
              (TrackAction.getActionOffsetMS action) Es Hbad Hps1)
    as (mc2 & -> & _ & Hstart & _ & Hlog2).
  assert (startScheduledTimeMS mc2 = currentTimeMS mc) as Hstart'.
  { now rewrite Hstart, (filterAtTimeNow_now mc1 _ Hnow). }
  cbn [fst snd truthy andb TrackAction.targets_eqb].
  split; [reflexivity|]. split; [exact Hstart'|].
  cbn [actionsAddedCollection set_actionsAddedCollection].
  now rewrite Hlog2, Hlog.
Qed.

(** X22. A STOP cannot be put in ahead of the start.  On a channel with
    its nodes that is STOPPED_AND_PLAY_SCHEDULED and whose scheduled
    start is still ahead of the clock, every PLAY, STOP or PAUSE is
    turned down and leaves the channel exactly as it was. *)
Theorem stop_refused_before_start (mc : MixerChannel.t) (g : GainNode)
        (sn : SourceNode) (action : TrackAction.t) (base off min : option Q) :
  gainNode mc = Some g ->
  sourceNode mc = Some sn ->
  _playState mc = STOPPED_AND_PLAY_SCHEDULED ->
  currentTimeMS mc < startScheduledTimeMS mc ->
  TrackAction.getActionType action <> TrackAction.PITCH ->
  TrackAction.getActionType action <> TrackAction.GAIN_FADE ->
  addAction action base off min mc = (Normal (Some false), mc).
Proof.
  intros Hg Hs Hps Hlt Hnp Hnf.
  assert (schedulable tracks mc) as Hsch.
  { split; [rewrite Hg | left; rewrite Hs]; discriminate. }
  destruct (addActionMc_unfolded mc action base off min Hsch)
    as (mc1 & _ & Hcases & ->).
  destruct Hcases as [[_ ->]|(g' & b & _ & Hnone & _)]; [|congruence].
  destruct (String.eqb _ _); [|reflexivity].
  destruct (Qlt_bool _ _); [reflexivity|].
  assert (Qle_bool (startScheduledTimeMS mc) (currentTimeMS mc) = false) as Hle.
  { apply Qlt_bool_iff in Hlt. unfold Qlt_bool in Hlt.
    now apply negb_true_iff in Hlt. }
  destruct mc as [ctx tr gn sno pre bent acts ps t1 t2 o1 o2].
  simpl in Hg, Hs, Hps, Hle. subst gn sno ps.
  destruct (TrackAction.getActionType action); try contradiction;
    unfold _actionPlay, _actionStop, _actionPause, _getPlayState;
    try destruct (isBadNumber _); run; rewrite ?Hle; simpl;
    comparisons; reflexivity.
Qed.

(** *** Pitch bend *)

(** X23. [pitchBend] on a channel with its nodes whose pitch is not
    bent: it returns true, remembers the playback rate it read, and
    schedules one change of the rate at the current clock time, to the
    rate read less PITCH_BEND_FACTOR when the direction is
    PITCH_BEND_DOWN and to the rate read plus PITCH_BEND_FACTOR for
    every other direction.  Until the bend is taken back a further
    [pitchBend], in either direction, returns false and does
    nothing. *)
Theorem pitchBend_once (mc : MixerChannel.t) (g : GainNode) (sn : SourceNode)
        (direction : string) :
  gainNode mc = Some g ->
  sourceNode mc = Some sn ->
  isBent mc = false ->
  let newPitch :=
    if String.eqb direction PITCH_BEND_DOWN
    then value (playbackRate sn) - PITCH_BEND_FACTOR
    else value (playbackRate sn) + PITCH_BEND_FACTOR in
  let mc' :=
    set_isBent true
      (set_sourceNode
         (Some (setPlaybackRateAtTime newPitch (currentTime (audioContext mc)) sn))
         (set_preBendPitchValue (Some (value (playbackRate sn))) mc)) in
  pitchBend tracks direction mc = (Normal true, mc')
  /\ (forall direction' sec,
        pitchBend tracks direction' (clockReads sec mc')
        = (Normal false, clockReads sec mc')).
Proof.
  intros Hg Hs Hb newPitch mc'. subst newPitch mc'.
  destruct mc as [ctx tr gn sno pre bent acts ps t1 t2 o1 o2].
  simpl in Hg, Hs, Hb. subst gn sno bent.
  unfold pitchBend, _ensureSourceNodePresent, _sourceNodeRecreateVia.
  split; [reflexivity|]. intros direction' sec. reflexivity.
Qed.

(** X24. [pitchBendRestore] after a [pitchBend], at whatever clock
    reading: it schedules one change of the playback rate, back to the
    rate read before the bend, clears the bent flag, and answers
    [undefined], not true.  The two changes are all that bend and
    restore have scheduled.  On a channel whose pitch is not bent
    [pitchBendRestore] does nothing, and also answers [undefined]. *)
Theorem pitchBend_then_restore (mc : MixerChannel.t) (g : GainNode)
        (sn : SourceNode) (direction : string) (sec : Q) :
  gainNode mc = Some g ->
  sourceNode mc = Some sn ->
  isBent mc = false ->
  let newPitch :=
    if String.eqb direction PITCH_BEND_DOWN
    then value (playbackRate sn) - PITCH_BEND_FACTOR
    else value (playbackRate sn) + PITCH_BEND_FACTOR in
  let bent := clockReads sec (snd (pitchBend tracks direction mc)) in
  fst (pitchBendRestore tracks bent) = Normal None
  /\ isBent (snd (pitchBendRestore tracks bent)) = false
  /\ option_map (fun s => events (playbackRate s))
                (sourceNode (snd (pitchBendRestore tracks bent)))
     = Some (events (playbackRate sn)
             ++ [SetValueAtTime newPitch (currentTime (audioContext mc));
                 SetValueAtTime (value (playbackRate sn)) sec])
  /\ pitchBendRestore tracks (snd (pitchBendRestore tracks bent))
     = (Normal None, snd (pitchBendRestore tracks bent))
  /\ pitchBendRestore tracks mc = (Normal None, mc).
Proof.
  intros Hg Hs Hb newPitch bent. subst newPitch bent.
  destruct mc as [ctx tr gn sno pre bent acts ps t1 t2 o1 o2].
  simpl in Hg, Hs, Hb. subst gn sno bent.
  unfold pitchBend, pitchBendRestore, _ensureSourceNodePresent,
    _sourceNodeRecreateVia.
  run. rewrite <- app_assoc. repeat split; reflexivity.
Qed.

(** X25. A PITCH action that is taken on while the pitch is bent clears
    the bent flag: the rate it sets is scheduled after the bend, and a
    [pitchBendRestore] that follows does nothing, so the rate the
    action set is not taken back. *)
Theorem pitch_action_ends_bend (mc : MixerChannel.t) (g : GainNode)
        (sn : SourceNode) (action : TrackAction.t) (base off min : option Q) :
  gainNode mc = Some g ->
  sourceNode mc = Some sn ->
  Track.guid (tracks (track mc)) = TrackAction.getActionTrackGuid action ->
  Qlt_bool (_filterAtTimeNow mc (TrackAction.getActionTimeMSAbs action))
           (orZero isBadNumber min) = false ->
  TrackAction.getActionType action = TrackAction.PITCH ->
  isBadNumber (effectiveTime mc action base off) = false ->
  let mc' := snd (addAction action base off min mc) in
  fst (addAction action base off min mc) = Normal (Some true)
  /\ isBent mc' = false
  /\ sourceNode mc'
     = Some (setPlaybackRateAtTime
               (TrackAction.getPitchValueApplied action)
               (msToSec (_filterAtTimeNow mc (effectiveTime mc action base off)))
               sn)
  /\ (forall sec,
        pitchBendRestore tracks (clockReads sec mc')
        = (Normal None, clockReads sec mc')).
Proof.
  intros Hg Hs Hguid Hmin Hty Hbad mc'. subst mc'.
  assert (schedulable tracks mc) as Hsch.
  { split; [rewrite Hg | left; rewrite Hs]; discriminate. }
  destruct (addActionMc_dispatch mc action base off min Hsch Hguid Hmin)
    as (mc1 & _ & Hcases & ->).
  destruct Hcases as [[_ ->]|(g' & b & _ & Hnone & _)]; [|congruence].
  rewrite Hty. unfold _actionPitch. rewrite Hbad.
  destruct mc as [ctx tr gn sno pre bent acts ps t1 t2 o1 o2].
  simpl in Hg, Hs. subst gn sno. run.
  destruct (TrackAction.targets_eqb (TrackAction.getActionTarget action)
                                    TrackAction.SOURCE);
    simpl; repeat split; reflexivity.
Qed.

(** *** Teardown *)

(** X26. [destroy] never throws.  It disconnects the source node and the
    gain node that are there and changes nothing else; done twice it
    does what it does once.  The nodes stay on the channel, so the
    channel goes on accepting actions: after [destroy] the guard of
    [addActionMc] still finds a source node. *)
Theorem destroy_disconnects (mc : MixerChannel.t) :
  destroy mc
  = (Normal tt,
     set_gainNode (option_map (setDestination false) (gainNode mc))
       (set_sourceNode (option_map disconnect (sourceNode mc)) mc))
  /\ destroy (snd (destroy mc)) = destroy mc
  /\ (gainNode mc <> None -> sourceNode mc <> None ->
      _ensureSourceNodePresent tracks (snd (destroy mc))
      = (Normal true, snd (destroy mc))).
Proof.
  destruct mc as [ctx tr gn sno pre bent acts ps t1 t2 o1 o2].
  unfold destroy, _ensureSourceNodePresent, _sourceNodeRecreateVia. run.
  destruct sno as [sn|], gn as [g|]; simpl;
    (split; [reflexivity|]); (split; [reflexivity|]);
    intros H1 H2; try contradiction; reflexivity.
Qed.

(** X27. A channel whose track is not loaded (no source node, no
    buffer): [pitchBend] and [pitchBendRestore] throw TrackNotLoaded and
    [getPitch] throws a [TypeError], each leaving the channel as it
    was, while [destroy] returns. *)
Theorem unloaded_channel_calls (mc : MixerChannel.t) (direction : string) :
  sourceNode mc = None ->
  Track.getAudioBuffer (tracks (track mc)) = None ->
  pitchBend tracks direction mc = (Throw TrackNotLoaded, mc)
  /\ pitchBendRestore tracks mc = (Throw TrackNotLoaded, mc)
  /\ getPitch mc = (Throw TypeError, mc)
  /\ fst (destroy mc) = Normal tt.
Proof.
  intros Hs Hb.
  pose proof (ensure_absent tracks mc Hs Hb) as Hens.
  unfold pitchBend, pitchBendRestore, getPitch, destroy.
  unfold bind at 1. rewrite Hens. simpl.
  unfold bind at 1. rewrite Hens. simpl.
  run. rewrite Hs. repeat split; try reflexivity.
  destruct (gainNode mc) eqn:Eg; simpl; rewrite ?Eg; reflexivity.
Qed.

(** *** Construction *)

(** X28. What the constructor sets up, for every track and context: a
    gain node made by the context, wired to the destination, with
    nothing scheduled on it; a source node on the track's buffer, wired
    to the gain node, when the track has a buffer, and none when it has
    not; the state STOPPED, an empty replay log, the pitch not bent,
    and the four times and offsets at INVALID_TIME_VAL, so that
    [getTrackCurrentOffsetMS] answers INVALID_VAL.  The channel can
    schedule exactly when the track had a buffer. *)
Theorem constructor_sets_up (trackRef : Ref) (ctx : AudioContext) :
  let mc := constructor isBadNumber INVALID_TIME_VAL INVALID_VAL tracks
                        trackRef ctx in
  let g := setDestination true (fst (createGain ctx)) in
  track mc = trackRef
  /\ gainNode mc = Some g
  /\ gain g = mkParam 1 []
  /\ sourceNode mc
     = match Track.getAudioBuffer (tracks trackRef) with
       | Some b =>
           Some (connect g (fst (createBufferSource (snd (createGain ctx)) b)))
       | None => None
       end
  /\ _playState mc = STOPPED
  /\ actionsAddedCollection mc = []
  /\ isBent mc = false
  /\ preBendPitchValue mc = None
  /\ (startScheduledTimeMS mc, stopScheduledTimeMS mc,
      startedAtOffsetMS mc, stoppedAtOffsetMS mc)
     = (INVALID_TIME_VAL, INVALID_TIME_VAL, INVALID_TIME_VAL, INVALID_TIME_VAL)
  /\ fst (getTrackCurrentOffsetMS INVALID_TIME_VAL INVALID_VAL mc)
     = Normal INVALID_VAL
  /\ (schedulable tracks mc <-> Track.getAudioBuffer (tracks trackRef) <> None).
Proof.
  unfold constructor, _sourceNodeRecreate, _sourceNodeRecreateVia,
    _resetPlayAttributes, _createGainNode, blank, schedulable,
    getTrackCurrentOffsetMS, _getPlayState.
  run.
  destruct (Track.getAudioBuffer (tracks trackRef)) as [b|] eqn:Eb; simpl;
    rewrite ?Eb, Qeq_bool_refl; simpl;
    repeat (split; [reflexivity|]); split.
  - discriminate.
  - intros _. split; [|left]; discriminate.
  - intros [_ [H|H]]; contradiction.
  - contradiction.
Qed.

(** X29. The bent flag outlives the source node.  When the source node
    of a channel whose pitch is bent is replaced, by the [ended]
    callback or by a [clearActions] that resets the source node, the
    new node plays at the normal rate with nothing scheduled, but the
    channel still counts as bent: [pitchBend] is turned down, and
    [pitchBendRestore] schedules the rate remembered from the old node
    on the new one. *)
Theorem bend_outlives_source_node (mc mc' : MixerChannel.t) (g : GainNode)
        (b : Track.AudioBuffer) (v : Q) (forceSourceNodeReset : option bool) :
  gainNode mc = Some g ->
  Track.getAudioBuffer (tracks (track mc)) = Some b ->
  isBent mc = true ->
  preBendPitchValue mc = Some v ->
  mc' = snd (_processPlaybackEnded isBadNumber INVALID_TIME_VAL INVALID_VAL
                                   tracks mc)
  \/ (stoppedOrScheduled (_playState (snd (_getPlayState mc)))
      || defaultVal forceSourceNodeReset false = true
      /\ mc' = snd (clearActions isBadNumber INVALID_TIME_VAL INVALID_VAL tracks
                                 forceSourceNodeReset None mc)) ->
  option_map playbackRate (sourceNode mc') = Some (mkParam 1 [])
  /\ isBent mc' = true
  /\ (forall direction, pitchBend tracks direction mc' = (Normal false, mc'))
  /\ option_map (fun s => events (playbackRate s))
                (sourceNode (snd (pitchBendRestore tracks mc')))
     = Some [SetValueAtTime v (currentTime (audioContext mc))].
Proof.
  intros Hg Hb Hbent Hpre Hmc'.
  assert (gainNode mc' = Some g
          /\ sourceNode mc'
             = Some (connect g (fst (createBufferSource (audioContext mc) b)))
          /\ isBent mc' = true
          /\ preBendPitchValue mc' = Some v
          /\ currentTime (audioContext mc') = currentTime (audioContext mc))
    as (Hg' & Hs' & Hbent' & Hpre' & Hclk').
  { destruct mc as [ctx tr gn sno pre bent acts ps t1 t2 o1 o2].
    simpl in Hg, Hb, Hbent, Hpre. subst gn bent pre.
    destruct Hmc' as [->|[Hreset ->]].
    - unfold _processPlaybackEnded, _sourceNodeRecreate, _sourceNodeRecreateVia.
      run. destruct sno; simpl; rewrite Hb; simpl; repeat split; reflexivity.
    - revert Hreset.
      unfold clearActions, _sourceNodeRecreate, _sourceNodeRecreateVia,
        _resetPlayAttributes, _getPlayState, stoppedOrScheduled, currentTimeMS.
      destruct (defaultVal forceSourceNodeReset false);
        destruct ps; run; comparisons; intros Hreset;
        try discriminate Hreset;
        destruct sno; simpl; rewrite Hb; simpl; repeat split; reflexivity. }
  destruct mc' as [ctx' tr' gn' sno' pre' bent' acts' ps' t1' t2' o1' o2'].
  simpl in Hg', Hs', Hbent', Hpre', Hclk'. subst gn' sno' bent' pre'.
  unfold pitchBend, pitchBendRestore, _ensureSourceNodePresent,
    _sourceNodeRecreateVia. run. rewrite Hclk'.
  repeat split; reflexivity.
Qed.

End Env.

(** ** On the sample channels *)

Lemma addActionMc_acceptance_witness :
  schedulable sampleHeap loadedChannel
  /\ fst (submit (playAt (guidOf 0) 3000) loadedChannel) = Normal (Some true)
  /\ fst (submit (stopAt (guidOf 0) 5000) loadedChannel) = Normal (Some false)
  /\ schedulable sampleHeap playingChannel
  /\ fst (submit (stopAt (guidOf 0) 5000) playingChannel) = Normal (Some true)
  /\ fst (submit (playAt (guidOf 0) 5000) playingChannel) = Normal (Some false).
Proof.
  assert (schedulable sampleHeap loadedChannel) as H1
      by (apply schedulableb_sound; reflexivity).
  assert (schedulable sampleHeap playingChannel) as H2
      by (apply schedulableb_sound; reflexivity).
  split; [exact H1|].
  split; [exact (addActionMc_acceptance anyNumber invalid invalid sampleHeap
                   loadedChannel (playAt (guidOf 0) 3000) None None None
                   H1 eq_refl eq_refl (fun _ => eq_refl))|].
  split; [exact (addActionMc_acceptance anyNumber invalid invalid sampleHeap
                   loadedChannel (stopAt (guidOf 0) 5000) None None None
                   H1 eq_refl eq_refl (fun _ => eq_refl))|].
  split; [exact H2|].
  split; [exact (addActionMc_acceptance anyNumber invalid invalid sampleHeap
                   playingChannel (stopAt (guidOf 0) 5000) None None None
                   H2 eq_refl eq_refl (fun _ => eq_refl))|].
  exact (addActionMc_acceptance anyNumber invalid invalid sampleHeap
           playingChannel (playAt (guidOf 0) 5000) None None None
           H2 eq_refl eq_refl (fun _ => eq_refl)).
Defined.

Lemma replay_log_records_accepted_witness :
  schedulable sampleHeap loadedChannel
  /\ actionsAddedCollection (snd (submit (playAt (guidOf 0) 3000) loadedChannel))
     = [TrackAction.withTimeMSAbs (3000 + 0 - 0) (playAt (guidOf 0) 3000)]
  /\ actionsAddedCollection (snd (submit (fadeAt (guidOf 0) 3000 0 8) loadedChannel))
     = [].
Proof.
  assert (schedulable sampleHeap loadedChannel) as H1
      by (apply schedulableb_sound; reflexivity).
  split; [exact H1|].
  split; [exact (replay_log_records_accepted anyNumber invalid invalid sampleHeap
                   loadedChannel (playAt (guidOf 0) 3000) None None None H1)|].
  exact (replay_log_records_accepted anyNumber invalid invalid sampleHeap
           loadedChannel (fadeAt (guidOf 0) 3000 0 8) None None None H1).
Defined.



Lemma playbackEnded_renews_source_witness :
  gainNode stopScheduledChannel = Some (mkGain 0 (mkParam 1 []) true)
  /\ _playState (snd (_processPlaybackEnded anyNumber invalid invalid sampleHeap
                                            stopScheduledChannel)) = STOPPED
  /\ fst (getTrackCurrentOffsetMS
            invalid invalid
            (snd (_processPlaybackEnded anyNumber invalid invalid sampleHeap
                                        stopScheduledChannel)))
     = Normal (stoppedAtOffsetMS stopScheduledChannel)
  /\ fst (submit (playAt (guidOf 0) 7000)
                 (snd (_processPlaybackEnded anyNumber invalid invalid sampleHeap
                                             stopScheduledChannel)))
     = Normal (Some true).
Proof.
  destruct (playbackEnded_renews_source
              anyNumber invalid invalid sampleHeap stopScheduledChannel
              (mkGain 0 (mkParam 1 []) true) eq_refl)
    as (_ & Hps & _ & _ & _ & _ & _ & _ & Hoff & Hplay).
  split; [reflexivity|]. split; [exact Hps|]. split; [exact Hoff|].
  apply (Hplay (playAt (guidOf 0) 7000) None None None);
    try reflexivity; discriminate.
Defined.

Lemma gainFade_rejects_bad_bpm_witness :
  schedulable noTempoHeap loadedChannel
  /\ isPositive (Track.bpm (noTempoHeap (track loadedChannel))) = false
  /\ fst (addActionMc anyNumber invalid invalid noTempoHeap
                      (fadeAt (guidOf 0) 3000 0 8) None None None loadedChannel)
     = Throw IllegalParam
  /\ gainNode (snd (addActionMc anyNumber invalid invalid noTempoHeap
                                (fadeAt (guidOf 0) 3000 0 8) None None None
                                loadedChannel))
     = gainNode loadedChannel.
Proof.
  assert (schedulable noTempoHeap loadedChannel) as H1
      by (apply schedulableb_sound; reflexivity).
  split; [exact H1|]. split; [reflexivity|].
  destruct (gainFade_rejects_bad_bpm anyNumber invalid invalid noTempoHeap
              loadedChannel (fadeAt (guidOf 0) 3000 0 8) None None None
              H1 eq_refl eq_refl eq_refl eq_refl) as (Hthrow & Hgain & _).
  split; [exact Hthrow | exact Hgain].
Defined.

Lemma effective_time_of_sentinel_means_now_witness :
  schedulable sampleHeap loadedChannel
  /\ Qeq_bool (_filterAtTimeNow loadedChannel 999 + 0 - 1000) AT_TIME_NOW = true
  /\ currentTimeMS loadedChannel == 2000
  /\ startScheduledTimeMS
       (snd (addActionMc anyNumber invalid invalid sampleHeap
                         (playAt (guidOf 0) 999) None (Some 1000) None
                         loadedChannel))
     = currentTimeMS loadedChannel.
Proof.
  assert (schedulable sampleHeap loadedChannel) as H1
      by (apply schedulableb_sound; reflexivity).
  split; [exact H1|]. split; [reflexivity|]. split; [reflexivity|].
  exact (proj1 (proj2 (effective_time_of_sentinel_means_now
                         anyNumber invalid invalid sampleHeap loadedChannel
                         (playAt (guidOf 0) 999) None (Some 1000) None
                         H1 eq_refl eq_refl eq_refl eq_refl eq_refl eq_refl
                         eq_refl))).
Defined.

Lemma stop_refused_before_start_witness :
  _playState playScheduledChannel = STOPPED_AND_PLAY_SCHEDULED
  /\ currentTimeMS playScheduledChannel < startScheduledTimeMS playScheduledChannel
  /\ submit (stopAt (guidOf 0) 5000) playScheduledChannel
     = (Normal (Some false), playScheduledChannel).
Proof.
  assert (currentTimeMS playScheduledChannel
          < startScheduledTimeMS playScheduledChannel) as Hlt by reflexivity.
  split; [reflexivity|]. split; [exact Hlt|].
  apply (stop_refused_before_start
           anyNumber invalid invalid sampleHeap playScheduledChannel
           (mkGain 0 (mkParam 1 []) true)
           (setOnended
              (mkSource 1 [0%Z] [0%nat] (Some (msToSec 3000, msToSec 0)) None
                        (mkParam 1 []) false))
           (stopAt (guidOf 0) 5000) None None None);
    try reflexivity; try exact Hlt; discriminate.
Defined.

Lemma pitchBend_once_witness :
  isBent loadedChannel = false
  /\ fst (pitchBend sampleHeap PITCH_BEND_UP loadedChannel) = Normal true
  /\ option_map (fun s => events (playbackRate s)) (sourceNode bentChannel)
     = Some [SetValueAtTime (1 + PITCH_BEND_FACTOR) 2]
  /\ pitchBend sampleHeap PITCH_BEND_DOWN (clockReads 3 bentChannel)
     = (Normal false, clockReads 3 bentChannel).
Proof.
  destruct (pitchBend_once sampleHeap loadedChannel
              (mkGain 0 (mkParam 1 []) true)
              (mkSource 1 [0%Z] [0%nat] None None (mkParam 1 []) false)
              PITCH_BEND_UP eq_refl eq_refl eq_refl) as [Hbend Hagain].
  split; [reflexivity|]. split; [now rewrite Hbend|]. split; [reflexivity|].
  unfold bentChannel. rewrite Hbend. apply Hagain.
Defined.

Lemma pitchBend_then_restore_witness :
  isBent loadedChannel = false
  /\ fst (pitchBendRestore sampleHeap (clockReads 3 bentChannel)) = Normal None
  /\ isBent (snd (pitchBendRestore sampleHeap (clockReads 3 bentChannel))) = false
  /\ option_map (fun s => events (playbackRate s))
                (sourceNode (snd (pitchBendRestore sampleHeap
                                                   (clockReads 3 bentChannel))))
     = Some ([] ++ [SetValueAtTime (1 + PITCH_BEND_FACTOR) 2; SetValueAtTime 1 3]).
Proof.
  destruct (pitchBend_then_restore sampleHeap loadedChannel
              (mkGain 0 (mkParam 1 []) true)
              (mkSource 1 [0%Z] [0%nat] None None (mkParam 1 []) false)
              PITCH_BEND_UP 3 eq_refl eq_refl eq_refl)
    as (Hret & Hbent & Hevents & _).
  split; [reflexivity|]. split; [exact Hret|]. split; [exact Hbent | exact Hevents].
Defined.

Lemma pitch_action_ends_bend_witness :
  isBent bentChannel = true
  /\ fst (submit (pitchAt (guidOf 0) 3000 (12 # 10)) bentChannel) = Normal (Some true)
  /\ isBent (snd (submit (pitchAt (guidOf 0) 3000 (12 # 10)) bentChannel)) = false
  /\ pitchBendRestore sampleHeap
       (clockReads 4 (snd (submit (pitchAt (guidOf 0) 3000 (12 # 10)) bentChannel)))
     = (Normal None,
        clockReads 4 (snd (submit (pitchAt (guidOf 0) 3000 (12 # 10)) bentChannel))).
Proof.
  destruct (pitch_action_ends_bend
              anyNumber invalid invalid sampleHeap bentChannel
              (mkGain 0 (mkParam 1 []) true)
              (setPlaybackRateAtTime
                 (1 + PITCH_BEND_FACTOR) 2
                 (mkSource 1 [0%Z] [0%nat] None None (mkParam 1 []) false))
              (pitchAt (guidOf 0) 3000 (12 # 10)) None None None
              eq_refl eq_refl eq_refl eq_refl eq_refl eq_refl)
    as (Hok & Hbent & _ & Hrestore).
  split; [reflexivity|]. split; [exact Hok|]. split; [exact Hbent|].
  apply Hrestore.
Defined.

Lemma unloaded_channel_calls_witness :
  sourceNode unloadedChannel = None
  /\ Track.getAudioBuffer (sampleHeap (track unloadedChannel)) = None
  /\ pitchBend sampleHeap PITCH_BEND_UP unloadedChannel
     = (Throw TrackNotLoaded, unloadedChannel)
  /\ getPitch unloadedChannel = (Throw TypeError, unloadedChannel).
Proof.
  destruct (unloaded_channel_calls sampleHeap unloadedChannel PITCH_BEND_UP
              eq_refl eq_refl) as (Hbend & _ & Hpitch & _).
  split; [reflexivity|]. split; [reflexivity|]. split; [exact Hbend | exact Hpitch].
Defined.

Lemma bend_outlives_source_node_witness :
  isBent bentChannel = true
  /\ preBendPitchValue bentChannel = Some 1
  /\ option_map playbackRate
                (sourceNode (snd (_processPlaybackEnded
                                    anyNumber invalid invalid sampleHeap
                                    bentChannel)))
     = Some (mkParam 1 [])
  /\ pitchBend sampleHeap PITCH_BEND_UP
               (snd (_processPlaybackEnded anyNumber invalid invalid sampleHeap
                                           bentChannel))
     = (Normal false,
        snd (_processPlaybackEnded anyNumber invalid invalid sampleHeap
                                   bentChannel)).
Proof.
  destruct (bend_outlives_source_node
              anyNumber invalid invalid sampleHeap bentChannel
              (snd (_processPlaybackEnded anyNumber invalid invalid sampleHeap
                                          bentChannel))
              (mkGain 0 (mkParam 1 []) true) [0%Z] 1 None
              eq_refl eq_refl eq_refl eq_refl (or_introl eq_refl))
    as (Hrate & _ & Hbend & _).
  split; [reflexivity|]. split; [reflexivity|]. split; [exact Hrate|].
  apply Hbend.
Defined.

End MixerChannelMore.
